(** * Nova voice assistant: the voice-command resolution pipeline

    A shallow embedding of the command pipeline of [mainv3.py] (the
    "accuracy & alias build") and of the parts of [mainv4.py] and
    [mainv2.py] that differ from it: transcript normalisation and
    confusion correction, the fuzzy target resolver, the wake/asleep
    state machine with its intent gate and router, the loops that feed
    it, the audio buffer of [mainv4.py], and the streams of the audio
    listener from [start] to [stop].

    Conventions of the model.
    - A Python [str] is a [text], a list of 8-bit characters read as
      7-bit ASCII; characters from 128 on are carried along unchanged and
      belong to no character class.
    - Side effects (speech, opening a URL, starting a process, key
      presses) are returned as a list of [Action]s, in program order; the
      diagnostic prints under [--debug] are left out, and so are the
      banner of [run] and the command line [on_final] of [mainv2.py]
      prints.  Starting a process can fail, as the code provides for;
      the other calls are taken to return.
    - The similarity score of [difflib] is a float [2.0 * m / t]; it is
      kept as the exact rational [2m / t].  For the lengths at hand the
      comparisons of the code ([>= 0.7], the tuple order of [max]) give
      the same answers on both. *)

From Stdlib Require Import Ascii String.
From Stdlib Require Import List Bool Arith PeanoNat NArith ZArith QArith Lia.
From Stdlib Require Import Permutation Sorted.
Import ListNotations.

Set Implicit Arguments.

Local Open Scope nat_scope.
Local Open Scope list_scope.

(** ** Texts and character classes *)

Definition text := list ascii.

Definition txt (s : string) : text := list_ascii_of_string s.
Arguments txt s%_string.

Definition code (c : ascii) : N := N_of_ascii c.

Definition in_range (lo hi : N) (c : ascii) : bool :=
  (lo <=? code c)%N && (code c <=? hi)%N.

(** [str.isspace] and the regex class [\s]: TAB..CR, FS..US and the space. *)
Definition is_space (c : ascii) : bool :=
  in_range 9 13 c || in_range 28 32 c.

(** The regex class [\w]: letters, digits and the underscore. *)
Definition is_word (c : ascii) : bool :=
  in_range 48 57 c || in_range 65 90 c || in_range 97 122 c || (code c =? 95)%N.

Definition is_word_opt (o : option ascii) : bool :=
  match o with Some c => is_word c | None => false end.

Definition lower_char (c : ascii) : ascii :=
  if in_range 65 90 c then ascii_of_N (code c + 32) else c.

(** [str.lower] *)
Definition lower (t : text) : text := map lower_char t.

Fixpoint text_eqb (x y : text) : bool :=
  match x, y with
  | [], [] => true
  | c :: x', d :: y' => Ascii.eqb c d && text_eqb x' y'
  | _, _ => false
  end.

(** [x < y] on Python strings: lexicographic on code points, a proper
    prefix being smaller. *)
Fixpoint text_ltb (x y : text) : bool :=
  match x, y with
  | _, [] => false
  | [], _ :: _ => true
  | c :: x', d :: y' =>
      if (code c <? code d)%N then true
      else if Ascii.eqb c d then text_ltb x' y' else false
  end.

(** [x in choices] for a list of strings *)
Definition mem (x : text) (l : list text) : bool := existsb (text_eqb x) l.

Fixpoint lstrip (t : text) : text :=
  match t with
  | c :: t' => if is_space c then lstrip t' else t
  | [] => []
  end.

Fixpoint rstrip (t : text) : text :=
  match t with
  | [] => []
  | c :: t' =>
      match rstrip t' with
      | [] => if is_space c then [] else [c]
      | r => c :: r
      end
  end.

(** [str.strip()] *)
Definition strip (t : text) : text := rstrip (lstrip t).

(** A Python [dict] with string keys, in insertion order. *)
Definition dict (V : Type) := list (text * V).

Fixpoint lookup {V} (d : dict V) (k : text) : option V :=
  match d with
  | [] => None
  | (k', v) :: d' => if text_eqb k k' then Some v else lookup d' k
  end.

Definition keys {V} (d : dict V) : list text := map fst d.

(** [d.get(k, default)] *)
Definition get_default {V} (d : dict V) (k : text) (default : V) : V :=
  match lookup d k with Some v => v | None => default end.

(** ** [difflib]: the similarity score and [get_close_matches] *)

Module Difflib.

(** A matching block [(i, j, k)]: [a[i:i+k] == b[j:j+k]]. *)
Record Match := mkMatch { m_i : nat; m_j : nat; m_size : nat }.

(** [__chain_b]: with [autojunk], an element of a [b] of 200 elements
    or more that occurs more than [len(b) // 100 + 1] times is popular
    and is left out of the index [b2j]. *)
Definition count (c : ascii) (t : text) : nat :=
  length (filter (Ascii.eqb c) t).

Definition is_popular (b : text) (c : ascii) : bool :=
  (200 <=? length b) && (length b / 100 + 1 <? count c b).

Section Matcher.
Variable popular : ascii -> bool.

(** Length of the run of equal, indexed (not popular) elements at the
    head of [x] and [y]. *)
Fixpoint run_len (x y : text) : nat :=
  match x, y with
  | c :: x', d :: y' =>
      if Ascii.eqb c d && negb (popular d) then S (run_len x' y') else 0
  | _, _ => 0
  end.

(** Length of the common prefix, popular elements included. *)
Fixpoint common_prefix (x y : text) : nat :=
  match x, y with
  | c :: x', d :: y' => if Ascii.eqb c d then S (common_prefix x' y') else 0
  | _, _ => 0
  end.

(** The main loop of [find_longest_match]: of all longest runs, the one
    that starts earliest in [a], and of those the one that starts
    earliest in [b].  The library walks the ends of the runs in this
    order and keeps the first run of greatest length; all longest runs
    have one length, so the first by its end is the first by its start,
    which is what the scan below keeps.  [x] is [a[i:]], [y] is
    [b[j:]]. *)
Fixpoint scan_b (x y : text) (i j : nat) (best : Match) : Match :=
  match y with
  | [] => best
  | _ :: y' =>
      let k := run_len x y in
      scan_b x y' i (S j) (if m_size best <? k then mkMatch i j k else best)
  end.

Fixpoint scan_a (x b : text) (i : nat) (best : Match) : Match :=
  match x with
  | [] => best
  | _ :: x' => scan_a x' b (S i) (scan_b x b i 0 best)
  end.

(** The two [while] loops that extend the best run over equal
    elements on each side (the loops for junk never run: no [isjunk]
    is given). *)
Definition extend (a b : text) (m : Match) : Match :=
  let e := common_prefix (rev (firstn (m_i m) a)) (rev (firstn (m_j m) b)) in
  let i := m_i m - e in
  let j := m_j m - e in
  let k := m_size m + e in
  let e' := common_prefix (skipn (i + k) a) (skipn (j + k) b) in
  mkMatch i j (k + e').

Definition find_longest_match (a b : text) : Match :=
  extend a b (scan_a a b 0 (mkMatch 0 0 0)).

(** The sum of the sizes of [get_matching_blocks]: the longest match,
    then the same to its left and to its right.  [a] and [b] are the
    slices [a[alo:ahi]] and [b[blo:bhi]]; the fuel bounds the depth
    by the length of [a]. *)
Fixpoint matched (fuel : nat) (a b : text) : nat :=
  match fuel with
  | 0 => 0
  | S fuel' =>
      let m := find_longest_match a b in
      let i := m_i m in
      let j := m_j m in
      let k := m_size m in
      if k =? 0 then 0
      else k
           + (if (0 <? i) && (0 <? j)
              then matched fuel' (firstn i a) (firstn j b) else 0)
           + (if (i + k <? length a) && (j + k <? length b)
              then matched fuel' (skipn (i + k) a) (skipn (j + k) b) else 0)
  end.
End Matcher.

Definition matches (a b : text) : nat :=
  matched (is_popular b) (length a) a b.

(** [_calculate_ratio] *)
Definition calculate_ratio (m len : nat) : Q :=
  if len =? 0 then 1 else Z.of_nat (2 * m) # Pos.of_nat len.

Definition ratio (a b : text) : Q :=
  calculate_ratio (matches a b) (length a + length b).

Definition real_quick_ratio (a b : text) : Q :=
  calculate_ratio (Nat.min (length a) (length b)) (length a + length b).

(** [quick_ratio]: [avail] counts what is left of each element of [b].
    In Python the count goes below zero once an element is used up; only
    the test [numb > 0] reads it, so the count stops at zero here. *)
Fixpoint quick_matches (a : text) (avail : ascii -> nat) : nat :=
  match a with
  | [] => 0
  | c :: a' =>
      let numb := avail c in
      (if 0 <? numb then 1 else 0)
      + quick_matches a' (fun d => if Ascii.eqb d c then numb - 1 else avail d)
  end.

Definition quick_ratio (a b : text) : Q :=
  calculate_ratio (quick_matches a (fun c => count c b)) (length a + length b).

Definition cutoff : Q := 7 # 10.

(** The test of the loop of [get_close_matches]; [word] is [seq2]. *)
Definition close_enough (word x : text) : bool :=
  Qle_bool cutoff (real_quick_ratio x word)
  && Qle_bool cutoff (quick_ratio x word)
  && Qle_bool cutoff (ratio x word).

(** [item > best] on the tuples [(score, x)]. *)
Definition tuple_gtb (item best : Q * text) : bool :=
  if Qeq_bool (fst item) (fst best) then text_ltb (snd best) (snd item)
  else negb (Qle_bool (fst item) (fst best)).

(** [max(result)]: the first of the greatest items. *)
Definition pick (best : option (Q * text)) (item : Q * text) : option (Q * text) :=
  match best with
  | None => Some item
  | Some m => if tuple_gtb item m then Some item else Some m
  end.

Definition scored (word : text) (possibilities : list text) : list (Q * text) :=
  map (fun x => (ratio x word, x)) (filter (close_enough word) possibilities).

(** [get_close_matches(word, possibilities, n=1, cutoff=0.7)]: a list of
    at most one element. *)
Definition get_close_matches (word : text) (possibilities : list text) : option text :=
  option_map snd (fold_left pick (scored word possibilities) None).

End Difflib.

(** ** The fuzzy target resolver *)

(** The first three lines of [resolve_name_fuzzy]: the name, stripped
    and in lower case, or its alias when an alias table is given and has
    the name as a key. *)
Definition effective_name (name : text) (extra_alias : option (dict text)) : text :=
  let n := lower (strip name) in
  match extra_alias with
  | Some d => match lookup d n with Some v => v | None => n end
  | None => n
  end.

Definition resolve_name_fuzzy (name : text) (choices : list text)
    (extra_alias : option (dict text)) : option text :=
  let n := effective_name name extra_alias in
  if mem n choices then Some n
  else Difflib.get_close_matches n choices.

(** ** Regular expressions

    The patterns of the program are built from literals, [\s+] and [\b].
    A [pattern] tells, at a position of the text, how long its match
    there is; it sees the character before the position (for a leading
    [\b]) and the text from the position on. *)

Definition pattern := option ascii -> text -> option nat.

(** [re.sub(p, repl, t)]: matches are searched from left to right and do
    not overlap; [skip] counts the characters of the current match that
    are still to be dropped.  No pattern of the program matches the empty
    string. *)
Fixpoint sub_from (p : pattern) (repl : text) (skip : nat)
    (prev : option ascii) (t : text) : text :=
  match t with
  | [] => []
  | c :: t' =>
      match skip with
      | S n => sub_from p repl n (Some c) t'
      | 0 =>
          match p prev t with
          | Some (S n) => repl ++ sub_from p repl n (Some c) t'
          | _ => c :: sub_from p repl 0 (Some c) t'
          end
      end
  end.

Definition re_sub (p : pattern) (repl t : text) : text :=
  sub_from p repl 0 None t.

(** [re.search(p, t)] as a truth value *)
Fixpoint search_from (p : pattern) (prev : option ascii) (t : text) : bool :=
  match t with
  | [] => false
  | c :: t' =>
      match p prev t with
      | Some _ => true
      | None => search_from p (Some c) t'
      end
  end.

Definition re_search (p : pattern) (t : text) : bool := search_from p None t.

(** The literal [k] at the head of [t]: what follows it. *)
Fixpoint strip_prefix (k t : text) : option text :=
  match k, t with
  | [], _ => Some t
  | c :: k', d :: t' => if Ascii.eqb c d then strip_prefix k' t' else None
  | _ :: _, [] => None
  end.

(** The same under [re.IGNORECASE], for a literal in lower case. *)
Fixpoint strip_prefix_ci (k t : text) : option text :=
  match k, t with
  | [], _ => Some t
  | c :: k', d :: t' =>
      if Ascii.eqb c (lower_char d) then strip_prefix_ci k' t' else None
  | _ :: _, [] => None
  end.

(** [\b] between two neighbours; the ends of the text count as
    non-word. *)
Definition word_boundary (before after : option ascii) : bool :=
  xorb (is_word_opt before) (is_word_opt after).

Definition last_char (k : text) : option ascii := hd_error (rev k).

(** [\b] + [re.escape(k)] + [\b], for a key [k] that is not empty *)
Definition pat_word (k : text) : pattern := fun prev t =>
  match strip_prefix k t with
  | Some rest =>
      if word_boundary prev (hd_error k)
         && word_boundary (last_char k) (hd_error rest)
      then Some (length k) else None
  | None => None
  end.

(** [\s+]: the whole run of white space, which is what a greedy [+]
    takes when nothing follows it in the pattern. *)
Definition pat_spaces : pattern := fun _ t =>
  match t with
  | c :: _ => if is_space c then Some (length t - length (lstrip t)) else None
  | [] => None
  end.

(** [\b w1 \s+ w2 \b] for two words of lower-case letters; [ci] is
    [re.IGNORECASE].  After the greedy [\s+] comes a letter, so only the
    whole run of white space can lead to a match. *)
Definition pat_wake (ci : bool) (w : text * text) : pattern := fun prev t =>
  let pre := if ci then strip_prefix_ci else strip_prefix in
  match pre (fst w) t with
  | Some r1 =>
      let r2 := lstrip r1 in
      if length r2 <? length r1 then
        match pre (snd w) r2 with
        | Some r3 =>
            if word_boundary prev (hd_error t)
               && word_boundary (last_char (snd w)) (hd_error r3)
            then Some (length t - length r3) else None
        | None => None
        end
      else None
  | None => None
  end.

(** ** Configuration of [mainv3.py] *)

(** [WAKE_WORDS]: [\bhey\s+nova\b], [\bhello\s+nova\b], [\bhey\s+noah\b],
    [\bhey\s+novaa\b] *)
Definition WAKE_WORDS : list (text * text) :=
  [ (txt "hey", txt "nova"); (txt "hello", txt "nova");
    (txt "hey", txt "noah"); (txt "hey", txt "novaa") ].

(** [INTENT_VERBS] of [mainv4.py], which no function reads *)
Definition INTENT_VERBS : list text :=
  map txt ["open"; "search"; "google"; "lookup"; "close"; "time"; "what";
           "volume"; "mute"; "screenshot"]%string.

(** The keys of [APP_PATHS], in order *)
Definition APP_PATHS : dict text :=
  [ (txt "chrome", txt "C:\\Program Files\\Google\\Chrome\\Application\\chrome.exe");
    (txt "edge", txt "C:\\Program Files (x86)\\Microsoft\\Edge\\Application\\msedge.exe");
    (txt "brave", txt "C:\\Program Files\\BraveSoftware\\Brave-Browser\\Application\\brave.exe");
    (txt "vscode", txt "C:\\Users\\%USERNAME%\\AppData\\Local\\Programs\\Microsoft VS Code\\Code.exe");
    (txt "notepad", txt "notepad.exe");
    (txt "spotify", txt "C:\\Users\\%USERNAME%\\AppData\\Roaming\\Spotify\\Spotify.exe");
    (txt "calculator", txt "calc.exe") ].

Definition WEBSITES : dict text :=
  [ (txt "google", txt "https://www.google.com");
    (txt "youtube", txt "https://www.youtube.com");
    (txt "gmail", txt "https://mail.google.com");
    (txt "google drive", txt "https://drive.google.com");
    (txt "drive", txt "https://drive.google.com");
    (txt "chatgpt", txt "https://chat.openai.com");
    (txt "github", txt "https://github.com");
    (txt "stackoverflow", txt "https://stackoverflow.com") ].

(** [CONFUSIONS] of [mainv3.py] *)
Definition CONFUSIONS : dict text :=
  [ (txt "grown", txt "chrome"); (txt "goal", txt "chrome");
    (txt "rome", txt "chrome"); (txt "googly", txt "google");
    (txt "googling", txt "google"); (txt "googling.", txt "google");
    (txt "goole", txt "google"); (txt "orban", txt "open");
    (txt "old when", txt "open"); (txt "oh been", txt "open");
    (txt "been", txt "open"); (txt "or been", txt "open");
    (txt "or but", txt "open"); (txt "opening", txt "open");
    (txt "open will", txt "open"); (txt "open book", txt "open");
    (txt "open building", txt "open"); (txt "open braille", txt "open chrome");
    (txt "open ravi", txt "open chrome"); (txt "open robbie", txt "open chrome");
    (txt "open bully", txt "open"); (txt "blows", txt "close");
    (txt "i think", []); (txt "that", []); (txt "it's", []);
    (txt "video", []); (txt "while you are", []) ].

(** [CONFUSIONS] of [mainv4.py] *)
Definition CONFUSIONS_v4 : dict text :=
  [ (txt "grow", txt "chrome"); (txt "goal", txt "chrome");
    (txt "rome", txt "chrome"); (txt "googly", txt "google");
    (txt "googling", txt "google"); (txt "blows", txt "close") ].

Definition APP_ALIASES : dict text :=
  [ (txt "google", txt "chrome"); (txt "visual studio code", txt "vscode");
    (txt "code", txt "vscode"); (txt "bad", txt "notepad") ].

Definition SITE_ALIASES : dict text :=
  [ (txt "yt", txt "youtube"); (txt "you", txt "youtube");
    (txt "you tube", txt "youtube"); (txt "g mail", txt "gmail");
    (txt "mail", txt "gmail"); (txt "drive", txt "google drive");
    (txt "good", txt "github") ].


(** ** The transcript normaliser *)

(** [re.sub(r"\s+", " ", t)] *)
Definition collapse_spaces (t : text) : text := re_sub pat_spaces (txt " ") t.

Definition normalize (t : text) : text := collapse_spaces (strip (lower t)).

(** [fuzzy_wake] *)
Definition fuzzy_wake (t : text) : bool :=
  existsb (fun w => re_search (pat_wake false w) (lower t)) WAKE_WORDS.

(** [sorted(keys, key=len, reverse=True)]: the sort is stable, so keys of
    one length keep the order of the table. *)
Fixpoint insert_by_len (k : text) (l : list text) : list text :=
  match l with
  | [] => [k]
  | k' :: l' =>
      if length k' <=? length k then k :: l else k' :: insert_by_len k l'
  end.

Definition longest_first (ks : list text) : list text :=
  fold_right insert_by_len [] ks.

(** [d[k]] for a key of [d] *)
Definition item (d : dict text) (k : text) : text := get_default d k [].

Section Confusions.
(** The confusion table, [CONFUSIONS] in each version of the program. *)
Variable table : dict text.

Definition substitute_all (t : text) : text :=
  fold_left (fun t k => re_sub (pat_word k) (item table k) t)
            (longest_first (keys table)) t.

Definition apply_confusions (t : text) : text :=
  strip (collapse_spaces (substitute_all t)).
End Confusions.

(** ** The intent patterns

    All are used with [re.match] and are anchored by [^] and [$]; [$]
    holds at the end of the text and before a last line feed. *)

Definition newline : ascii := ascii_of_N 10.

Definition at_end (r : text) : bool :=
  match r with
  | [] => true
  | [c] => Ascii.eqb c newline
  | _ => false
  end.

(** [(.+)$]: the group, which takes every character up to the first line
    feed. *)
Fixpoint dots (r : text) : text * text :=
  match r with
  | [] => ([], [])
  | c :: r' =>
      if Ascii.eqb c newline then ([], r)
      else let (g, rest) := dots r' in (c :: g, rest)
  end.

Definition rest_group (r : text) : option text :=
  let (g, rest) := dots r in
  match g with
  | [] => None
  | _ => if at_end rest then Some g else None
  end.

(** [\s+(.+)$] after a first white-space character: the greedy [\s+]
    takes more white space first and gives it back on failure. *)
Fixpoint spaces_then_rest (r : text) : option text :=
  match r with
  | c :: r' =>
      if is_space c then
        match spaces_then_rest r' with
        | Some g => Some g
        | None => rest_group r
        end
      else rest_group r
  | [] => None
  end.

(** [^(v1|v2|...)\s+(.+)$]: group 2 *)
Fixpoint match_verb (verbs : list text) (t : text) : option text :=
  match verbs with
  | [] => None
  | v :: vs =>
      let here :=
        match strip_prefix v t with
        | Some (c :: r) => if is_space c then spaces_then_rest r else None
        | _ => None
        end in
      match here with
      | Some g => Some g
      | None => match_verb vs t
      end
  end.

(** Words separated by [\s+], then [$] *)
Fixpoint match_words (ws : list text) (t : text) : bool :=
  match ws with
  | [] => at_end t
  | w :: ws' =>
      match strip_prefix w t with
      | Some r =>
          match ws' with
          | [] => at_end r
          | _ => let r' := lstrip r in
                 (length r' <? length r) && match_words ws' r'
          end
      | None => false
      end
  end.

(** [^(p1|p2)$] for literal phrases *)
Definition match_phrases (ps : list text) (t : text) : bool :=
  existsb (fun p => match strip_prefix p t with
                    | Some r => at_end r
                    | None => false
                    end) ps.

Definition OPEN_APP_PAT (t : text) : option text :=
  match_verb (map txt ["open"; "launch"; "start"]%string) t.
Definition OPEN_SITE_PAT (t : text) : option text :=
  match_verb [txt "open"] t.
Definition SEARCH_PAT (t : text) : option text :=
  match_verb (map txt ["search for"; "google"; "lookup"]%string) t.
Definition CLOSE_PAT (t : text) : option text :=
  match_verb [txt "close"] t.
Definition TIME_PAT (t : text) : bool :=
  match_words (map txt ["what"; "time"; "is"; "it"]%string) t
  || match_phrases [txt "time"] t.
Definition VOLUME_UP_PAT (t : text) : bool :=
  match_phrases (map txt ["volume up"; "increase volume"]%string) t.
Definition VOLUME_DOWN_PAT (t : text) : bool :=
  match_phrases (map txt ["volume down"; "decrease volume"]%string) t.
Definition MUTE_PAT (t : text) : bool :=
  match_phrases (map txt ["mute"; "mute volume"]%string) t.
Definition SCREENSHOT_PAT (t : text) : bool :=
  match_phrases (map txt ["take a screenshot"; "screenshot"]%string) t.

(** ** The executor *)

(** What the program does to the outside world. *)
Inductive Action : Type :=
| Say (msg : text)          (* speaker.say *)
| OpenUrl (url : text)      (* webbrowser.open *)
| Popen (path : text)       (* subprocess.Popen *)
| Hotkey (keys : text)      (* pyautogui.hotkey *)
| KeyEvent (vk : N)         (* win32api.keybd_event *)
| SaveScreenshot.           (* pyautogui.screenshot().save *)

(** What the platform offers. *)
Record Env : Type := mkEnv {
  has_win32api : bool;          (* the import of win32api succeeded *)
  has_pyautogui : bool;         (* the import of pyautogui succeeded *)
  popen_ok : text -> bool;      (* subprocess.Popen(path) does not raise *)
  expandvars : text -> text;    (* os.path.expandvars *)
  clock : text                  (* datetime.now().strftime("%I:%M %p") *)
}.

(** [s.split(sep)[0]] for a separator that is not empty *)
Fixpoint before (sep t : text) : text :=
  match t with
  | [] => []
  | c :: t' =>
      match strip_prefix sep t with
      | Some _ => []
      | None => c :: before sep t'
      end
  end.

(** [t.startswith(p)] *)
Definition startswith (p t : text) : bool :=
  match strip_prefix p t with Some _ => true | None => false end.

(** [s.replace(' ', '+')] *)
Definition plus_for_space (q : text) : text :=
  map (fun c => if Ascii.eqb c " "%char then "+"%char else c) q.

(** The truth value of an [Optional[str]]: [None] and the empty string are false. *)
Definition found (choice : option text) : option text :=
  match choice with
  | Some [] => None
  | other => other
  end.

Section Executor.
Variable env : Env.

Definition web_search (query : text) : list Action :=
  [ OpenUrl (txt "https://www.google.com/search?q=" ++ plus_for_space query);
    Say (txt "Searching for " ++ query ++ txt ".") ].

Definition open_app (phrase : text) : list Action :=
  let target := strip (before (txt " on ") (before (txt " for ") phrase)) in
  let key := get_default APP_ALIASES target target in
  match found (resolve_name_fuzzy key (keys APP_PATHS) (Some APP_ALIASES)) with
  | None => [ Say (txt "I couldn't find an app like " ++ target ++ txt ".") ]
  | Some choice =>
      let path := expandvars env (item APP_PATHS choice) in
      if popen_ok env path
      then [ Popen path; Say (txt "Opening " ++ choice ++ txt ".") ]
      else [ Say (txt "Couldn't open " ++ choice ++ txt ".") ]
  end.

Definition open_site (phrase : text) : list Action :=
  let target := strip phrase in
  let target := get_default SITE_ALIASES target target in
  match found (resolve_name_fuzzy target (keys WEBSITES) (Some SITE_ALIASES)) with
  | None =>
      match strip_prefix (txt "google ") target with
      | Some q => web_search q
      | None => [ Say (txt "I don't know the site " ++ target ++ txt ".") ]
      end
  | Some choice =>
      [ OpenUrl (item WEBSITES choice); Say (txt "Opening " ++ choice ++ txt ".") ]
  end.

Definition close_foreground : list Action :=
  if has_pyautogui env then [ Hotkey (txt "alt+f4"); Say (txt "Closed.") ]
  else [ Say (txt "Close command not available.") ].

Definition tell_time : list Action :=
  [ Say (txt "It's " ++ clock env ++ txt ".") ].

Definition volume_up : list Action :=
  (if has_win32api env then repeat (KeyEvent 175) 10 else [])
  ++ [ Say (txt "Volume up.") ].

Definition volume_down : list Action :=
  (if has_win32api env then repeat (KeyEvent 174) 10 else [])
  ++ [ Say (txt "Volume down.") ].

Definition mute : list Action :=
  (if has_win32api env then [ KeyEvent 173 ] else [])
  ++ [ Say (txt "Muted.") ].

Definition screenshot : list Action :=
  if has_pyautogui env
  then [ SaveScreenshot; Say (txt "Screenshot saved in Pictures.") ]
  else [ Say (txt "Screenshot tool not available.") ].
End Executor.

(** ** The orchestrator *)

Record Nova : Type := mkNova { awake : bool; bypass_wake : bool }.

Definition set_awake (st : Nova) (b : bool) : Nova :=
  mkNova b (bypass_wake st).

(** [Nova._gate_intent] *)
Definition _gate_intent (t : text) : bool :=
  let first := before (txt " ") t in
  mem first (map txt ["open"; "search"; "google"; "lookup"; "close"; "time"; "what"]%string).

(** The chain of [if]/[elif] of [on_final] and [on_text]: the first
    pattern that matches decides. *)
Definition route (env : Env) (clean : text) : list Action :=
  match SEARCH_PAT clean with
  | Some q => web_search q
  | None =>
  match CLOSE_PAT clean with
  | Some _ => close_foreground env
  | None =>
  match OPEN_APP_PAT clean with
  | Some target => open_app env target
  | None =>
  match OPEN_SITE_PAT clean with
  | Some target => open_site target
  | None =>
  if TIME_PAT clean then tell_time env
  else if VOLUME_UP_PAT clean then volume_up env
  else if VOLUME_DOWN_PAT clean then volume_down env
  else if MUTE_PAT clean then mute env
  else if SCREENSHOT_PAT clean then screenshot env
  else match strip_prefix (txt "google ") clean with
       | Some q => web_search q
       | None => []
       end
  end end end end.

(** The loop that deletes the wake phrases from the command *)
Definition strip_wake_words (clean : text) : text :=
  fold_left (fun c w => strip (re_sub (pat_wake true w) [] c)) WAKE_WORDS clean.

(** The text the gate and the router see. *)
Definition cleaned (table : dict text) (t : text) : text :=
  strip_wake_words (apply_confusions table t).

(** [on_final] and [on_text] once the session is awake *)
Definition command (table : dict text) (env : Env) (st : Nova) (t : text)
  : Nova * list Action :=
  let clean := cleaned table t in
  match clean with
  | [] => (st, [])
  | _ =>
      if negb (_gate_intent clean) then (st, [])
      else (set_awake st (bypass_wake st), route env clean)
  end.

(** [Nova.on_partial] of [mainv3.py] *)
Definition on_partial (st : Nova) (t : text) : Nova * list Action :=
  if negb (awake st) && fuzzy_wake t
  then (set_awake st true, [ Say (txt "Listening") ])
  else (st, []).

(** [Nova.on_final] of [mainv3.py] *)
Definition on_final (env : Env) (st : Nova) (t : text) : Nova * list Action :=
  let t := normalize t in
  match t with
  | [] => (st, [])
  | _ =>
      if negb (awake st) then
        if fuzzy_wake t then (set_awake st true, [ Say (txt "Ready") ])
        else (st, [])
      else command CONFUSIONS env st t
  end.

(** [Nova.on_text] of [mainv4.py] *)
Definition on_text (env : Env) (st : Nova) (t : text) : Nova * list Action :=
  let raw := normalize t in
  if negb (awake st) then
    if fuzzy_wake raw then (set_awake st true, [ Say (txt "Ready") ])
    else (st, [])
  else command CONFUSIONS_v4 env st raw.

(** A transcript event of the recogniser *)
Inductive TranscriptEvent : Type :=
| Partial (t : text)
| Final (t : text).

Definition event_text (e : TranscriptEvent) : text :=
  match e with Partial t | Final t => t end.

(** One turn of [listen_forever] *)
Definition on_event (env : Env) (st : Nova) (e : TranscriptEvent)
  : Nova * list Action :=
  match e with
  | Partial t => on_partial st t
  | Final t => on_final env st t
  end.

(** ** The listener *)

Inductive StartResult : Type :=
| Started (rate : N)
| DeviceUnavailable (msg : text).   (* the RuntimeError of [start] *)

Section Listener.
(** Whether the recogniser and the input stream open at a rate. *)
Variable opens : N -> bool.

(** The loop of [Listener.start]: the rates tried, and the rate in
    use. *)
Fixpoint try_rates (rates : list N) : list N * option N :=
  match rates with
  | [] => ([], None)
  | rate :: rest =>
      if opens rate then ([rate], Some rate)
      else let (tried, r) := try_rates rest in (rate :: tried, r)
  end.

(** The rates of [start], in the order of the loop *)
Definition RATES : list N := [16000; 44100; 48000]%N.

Definition start : list N * StartResult :=
  let (tried, r) := try_rates RATES in
  (tried,
   match r with
   | Some rate => Started rate
   | None => DeviceUnavailable
               (txt "Could not start microphone stream at 16k/44.1k/48k. Try --device.")
   end).

(** What [main] shows of a start: the rates tried and, on a failure,
    the lines printed before it returns. *)
Inductive Startup : Type :=
| Listening (rate : N)
| Exited (printed : list text).

Definition main_startup : list N * Startup :=
  let (tried, r) := start in
  (tried,
   match r with
   | Started rate => Listening rate
   | DeviceUnavailable msg =>
       Exited [ txt "Error: " ++ msg;
                txt "Check VOSK_MODEL_DIR and audio device index with --list-devices." ]
   end).
End Listener.


(** ** Reference points of the specification *)

(** The allow-list of the intent gate in the words of the specification:
    open, launch, start, search, google, lookup, close, time, what,
    volume, mute, screenshot. *)
Definition SPEC_GATE_VERBS : list text :=
  map txt ["open"; "launch"; "start"; "search"; "google"; "lookup"; "close";
           "time"; "what"; "volume"; "mute"; "screenshot"]%string.

(** The leading token of a command, as the gate takes it. *)
Definition leading_token (t : text) : text := before (txt " ") t.

(** A platform on which every capability is present and every program
    starts; used in examples. *)
Definition full_env : Env :=
  mkEnv true true (fun _ => true) (fun p => p) (txt "10:00 AM").

(** ** Notions used in the proofs *)

(** The character before the position reached after reading [x]. *)
Fixpoint last_from (prev : option ascii) (x : text) : option ascii :=
  match x with
  | [] => prev
  | c :: x' => last_from (Some c) x'
  end.

(** Every run of white space becomes one space; [in_ws] tells that the
    space for the current run is already written. *)
Fixpoint squeeze (in_ws : bool) (t : text) : text :=
  match t with
  | [] => []
  | c :: t' =>
      if is_space c then
        if in_ws then squeeze true t' else " "%char :: squeeze true t'
      else c :: squeeze false t'
  end.

(** White space in normal form: single spaces only, none doubled. *)
Fixpoint spaced (after_space : bool) (t : text) : bool :=
  match t with
  | [] => true
  | c :: t' =>
      if is_space c then Ascii.eqb c " "%char && negb after_space && spaced true t'
      else spaced false t'
  end.

Definition starts_with_space (t : text) : bool :=
  match t with
  | c :: _ => is_space c
  | [] => false
  end.

(** A key occurs in [t] as a whole word: [t] is [pre ++ k ++ rest] with a
    word boundary on each side of [k]. *)
Definition whole_word_at (k pre rest : text) : Prop :=
  word_boundary (last_from None pre) (hd_error k) = true
  /\ word_boundary (last_char k) (hd_error rest) = true.

Definition occurs_as_word (k t : text) : Prop :=
  exists pre rest, t = pre ++ k ++ rest /\ whole_word_at k pre rest.

(** A text cut into its words (the longest runs of [\w] characters) and
    the characters between them. *)
Inductive seg : Type :=
| W (w : text)
| P (c : ascii).

Definition seg_text (f : text -> text) (s : seg) : text :=
  match s with
  | W w => f w
  | P c => [c]
  end.

(** The text of a list of segments, with [f] applied to the words. *)
Definition flat_with (f : text -> text) (l : list seg) : text :=
  flat_map (seg_text f) l.

Definition flat (l : list seg) : text := flat_with (fun w => w) l.

Definition on_word (f : text -> text) (s : seg) : seg :=
  match s with
  | W w => W (f w)
  | P c => P c
  end.

(** A single word: not empty, [\w] characters only. *)
Definition is_wordb (w : text) : bool :=
  match w with
  | [] => false
  | _ => forallb is_word w
  end.

Definition starts_with_word (l : list seg) : bool :=
  match l with
  | W _ :: _ => true
  | _ => false
  end.

(** Words are words, the rest is not, and no two words touch. *)
Fixpoint wf (l : list seg) : bool :=
  match l with
  | [] => true
  | P c :: l' => negb (is_word c) && wf l'
  | W w :: l' => is_wordb w && negb (starts_with_word l') && wf l'
  end.

Definition cons_seg (c : ascii) (l : list seg) : list seg :=
  if is_word c then
    match l with
    | W w :: l' => W (c :: w) :: l'
    | _ => W [c] :: l
    end
  else P c :: l.

Fixpoint parse (t : text) : list seg :=
  match t with
  | [] => []
  | c :: t' => cons_seg c (parse t')
  end.

Definition is_space_seg (s : seg) : bool :=
  match s with
  | P c => is_space c
  | W _ => false
  end.

Fixpoint squeeze_segs (in_ws : bool) (l : list seg) : list seg :=
  match l with
  | [] => []
  | s :: l' =>
      if is_space_seg s then
        if in_ws then squeeze_segs true l' else P " "%char :: squeeze_segs true l'
      else s :: squeeze_segs false l'
  end.

Fixpoint lstrip_segs (l : list seg) : list seg :=
  match l with
  | s :: l' => if is_space_seg s then lstrip_segs l' else l
  | [] => []
  end.

Fixpoint rstrip_segs (l : list seg) : list seg :=
  match l with
  | [] => []
  | s :: l' =>
      match rstrip_segs l' with
      | [] => if is_space_seg s then [] else [s]
      | r => s :: r
      end
  end.

(** What the corrections for the keys [ks], taken in this order, make of
    one word. *)
Definition correct_word (table : dict text) (ks : list text) (w : text) : text :=
  fold_left (fun w k => if text_eqb w k then item table k else w) ks w.

(** A table of single words: every key and every correction is one
    word. *)
Definition single_words (table : dict text) : bool :=
  forallb (fun kv => is_wordb (fst kv) && is_wordb (snd kv)) table.

(** No correction is itself a key. *)
Definition corrections_final (table : dict text) : bool :=
  forallb (fun kv => negb (mem (snd kv) (keys table))) table.

(** Whether [\b w1 \s+ w2 \b] matches at a position, without the length
    of the match. *)
Definition wake_hit (w : text * text) (prev : option ascii) (t : text) : bool :=
  match strip_prefix (fst w) t with
  | Some r1 =>
      starts_with_space r1
      && match strip_prefix (snd w) (lstrip r1) with
         | Some r3 =>
             word_boundary prev (hd_error t)
             && word_boundary (last_char (snd w)) (hd_error r3)
         | None => false
         end
  | None => false
  end.

(** A search that only asks whether there is a match at each position. *)
Fixpoint search_hit (h : option ascii -> text -> bool)
    (prev : option ascii) (t : text) : bool :=
  match t with
  | [] => false
  | c :: t' => h prev t || search_hit h (Some c) t'
  end.

(** A matching block is sound when it cuts both sequences around the
    same middle part. *)
Definition sound (a b : text) (m : Difflib.Match) : Prop :=
  exists a1 a2 b1 b2 mid,
    a = a1 ++ mid ++ a2 /\ b = b1 ++ mid ++ b2 /\
    length a1 = Difflib.m_i m /\ length b1 = Difflib.m_j m /\
    length mid = Difflib.m_size m.

(** Sums over all characters *)
Definition all_chars : list ascii := map ascii_of_nat (seq 0 256).

Definition sum_chars (g : ascii -> nat) : nat := list_sum (map g all_chars).

(** The size of the multiset intersection of [a] and a bag [f]. *)
Definition isect (a : text) (f : ascii -> nat) : nat :=
  sum_chars (fun c => Nat.min (Difflib.count c a) (f c)).

(** [it <= r] on scored keys: [it > r] is false. *)
Definition tuple_le (it r : Q * text) : Prop := Difflib.tuple_gtb it r = false.

(** The order of the keys of the confusion table: no key before a longer
    one. *)
Definition not_shorter (a b : text) : Prop := length b <= length a.

(** ** The event loops *)

(** [Nova.__init__]: the session starts awake exactly when the wake
    phrase is bypassed. *)
Definition init_nova (bypass : bool) : Nova := mkNova bypass bypass.

(** One turn of the loop of [Listener.listen_forever] in [mainv3.py]: a
    final result goes to [on_final] and a partial one to [on_partial],
    each only when its text is not empty. *)
Definition listen_step (env : Env) (st : Nova) (e : TranscriptEvent)
  : Nova * list Action :=
  match e with
  | Final [] => (st, [])
  | Partial [] => (st, [])
  | _ => on_event env st e
  end.

(** The loop of [listen_forever] over the results the recogniser has
    given so far. *)
Fixpoint listen_forever (env : Env) (st : Nova) (es : list TranscriptEvent)
  : Nova * list Action :=
  match es with
  | [] => (st, [])
  | e :: es' =>
      let (st1, acts1) := listen_step env st e in
      let (st2, acts2) := listen_forever env st1 es' in
      (st2, acts1 ++ acts2)
  end.

(** The end of a turn of [WhisperListener.listen_loop] in [mainv4.py]:
    the text of the segments is stripped and goes to [on_text] when it
    is not empty. *)
Definition listen_loop_step (env : Env) (st : Nova) (segments : text)
  : Nova * list Action :=
  match strip segments with
  | [] => (st, [])
  | t => on_text env st t
  end.

Fixpoint listen_loop (env : Env) (st : Nova) (heard : list text)
  : Nova * list Action :=
  match heard with
  | [] => (st, [])
  | t :: heard' =>
      let (st1, acts1) := listen_loop_step env st t in
      let (st2, acts2) := listen_loop env st1 heard' in
      (st2, acts1 ++ acts2)
  end.

(** ** The audio buffer of [mainv4.py] *)

(** [frames_per_chunk = int(SAMPLE_RATE * CHUNK_SECONDS)], for 16000
    samples a second and a second and a half. *)
Definition frames_per_chunk : nat := N.to_nat (16000 * 3 / 2).

Section WhisperBuffer.
(** A sample of the buffer, a float in the program. *)
Variable sample : Type.

(** What happens to the buffer under its lock: the audio callback
    appends the samples of a block, the loop looks for a full chunk. *)
Inductive BufferOp : Type :=
| Callback (pcm : list sample)
| Poll.

(** The locked part of a turn of [listen_loop]: the chunk, when the
    buffer holds one, and what stays in the buffer. *)
Definition take_chunk (n : nat) (buffer : list sample)
  : option (list sample) * list sample :=
  if n <=? length buffer then (Some (firstn n buffer), skipn n buffer)
  else (None, buffer).

(** The buffer and the chunks handed to the transcriber, in order, for
    chunks of [n] samples. *)
Fixpoint buffer_run (n : nat) (buffer : list sample) (ops : list BufferOp)
  : list sample * list (list sample) :=
  match ops with
  | [] => (buffer, [])
  | Callback pcm :: ops' => buffer_run n (buffer ++ pcm) ops'
  | Poll :: ops' =>
      match take_chunk n buffer with
      | (Some chunk, rest) =>
          let (b, chunks) := buffer_run n rest ops' in (b, chunk :: chunks)
      | (None, rest) => buffer_run n rest ops'
      end
  end.

(** All the samples the callbacks brought, in order. *)
Fixpoint captured (ops : list BufferOp) : list sample :=
  match ops with
  | [] => []
  | Callback pcm :: ops' => pcm ++ captured ops'
  | Poll :: ops' => captured ops'
  end.

Definition polls (ops : list BufferOp) : nat :=
  length (filter (fun o => match o with Poll => true | Callback _ => false end) ops).
End WhisperBuffer.

(** ** The streams of [Listener.start] and [Listener.stop] *)

(** How far an attempt of [start] gets at a rate: the recogniser cannot
    be made, the input stream cannot be made, the stream does not start,
    or all three steps succeed. *)
Inductive Stage : Type :=
| RecogniserFails
| StreamFails
| StartFails
| Opens.

(** What happens to input streams; a stream is named by its rate. *)
Inductive StreamEvent : Type :=
| StreamMade (rate : N)      (* sd.RawInputStream(...) returned *)
| StreamStarted (rate : N)   (* stream.start() returned *)
| StreamStopped (rate : N)   (* stream.stop() *)
| StreamClosed (rate : N).   (* stream.close() *)

(** The fields [rec] and [stream] of the listener, each holding the rate
    it was made for. *)
Record Listener : Type := mkListener {
  rec : option N;
  stream : option N
}.

Section ListenerStreams.
Variable attempt : N -> Stage.

(** The body of the [try] at one rate: the fields as the exception (or
    the return) finds them, and the streams made. *)
Definition try_rate (rate : N) (l : Listener) : Listener * list StreamEvent :=
  match attempt rate with
  | RecogniserFails => (l, [])
  | StreamFails => (mkListener (Some rate) (stream l), [])
  | StartFails => (mkListener (Some rate) (Some rate), [StreamMade rate])
  | Opens => (mkListener (Some rate) (Some rate),
              [StreamMade rate; StreamStarted rate])
  end.

(** The [except] branch: the stream at hand is closed and both fields
    are reset. *)
Definition close_and_reset (l : Listener) : Listener * list StreamEvent :=
  (mkListener None None,
   match stream l with
   | Some s => [StreamClosed s]
   | None => []
   end).

(** [Listener.start] with its fields: [true] when it returns, [false]
    when it raises. *)
Fixpoint start_loop (rates : list N) (l : Listener)
  : Listener * list StreamEvent * bool :=
  match rates with
  | [] => (l, [], false)
  | rate :: rest =>
      let (l1, made) := try_rate rate l in
      match attempt rate with
      | Opens => (l1, made, true)
      | _ =>
          let (l2, closed) := close_and_reset l1 in
          let '(l3, later, ok) := start_loop rest l2 in
          (l3, made ++ closed ++ later, ok)
      end
  end.

Definition start_streams (l : Listener) : Listener * list StreamEvent * bool :=
  start_loop RATES l.
End ListenerStreams.

(** [Listener.stop] *)
Definition stop (l : Listener) : Listener * list StreamEvent :=
  match stream l with
  | Some s => (mkListener (rec l) None, [StreamStopped s; StreamClosed s])
  | None => (l, [])
  end.

(** The listener of [Listener.__init__] *)
Definition new_listener : Listener := mkListener None None.

(** The rates of the streams made and of the streams closed, in
    order. *)
Fixpoint made_streams (evs : list StreamEvent) : list N :=
  match evs with
  | [] => []
  | StreamMade r :: evs' => r :: made_streams evs'
  | _ :: evs' => made_streams evs'
  end.

Fixpoint closed_streams (evs : list StreamEvent) : list N :=
  match evs with
  | [] => []
  | StreamClosed r :: evs' => r :: closed_streams evs'
  | _ :: evs' => closed_streams evs'
  end.

Definition held (l : Listener) : list N :=
  match stream l with
  | Some s => [s]
  | None => []
  end.

(** ** Notions used in the proofs about the session *)

(** An action on the machine, as opposed to a spoken message. *)
Definition is_say (a : Action) : bool :=
  match a with
  | Say _ => true
  | _ => false
  end.

(** The final transcript is routed: the session is awake and the cleaned
    text passes the gate. *)
Definition is_routed (st : Nova) (e : TranscriptEvent) : bool :=
  match e with
  | Final t => awake st && _gate_intent (cleaned CONFUSIONS (normalize t))
  | Partial _ => false
  end.

(** The event wakes the session. *)
Definition is_wake (st : Nova) (e : TranscriptEvent) : bool :=
  negb (awake st) && fuzzy_wake (event_text e).

(** How many events of a run are routed, and how many wake the
    session. *)
Fixpoint routed_count (env : Env) (st : Nova) (es : list TranscriptEvent) : nat :=
  match es with
  | [] => 0
  | e :: es' =>
      (if is_routed st e then 1 else 0)
      + routed_count env (fst (on_event env st e)) es'
  end.

Fixpoint wake_count (env : Env) (st : Nova) (es : list TranscriptEvent) : nat :=
  match es with
  | [] => 0
  | e :: es' =>
      (if is_wake st e then 1 else 0)
      + wake_count env (fst (on_event env st e)) es'
  end.

(** The URL of a search starts like this. *)
Definition SEARCH_URL : text := txt "https://www.google.com/search?q=".

(** A key press for the volume or a screenshot. *)
Definition media_action (a : Action) : bool :=
  match a with
  | KeyEvent _ => true
  | SaveScreenshot => true
  | _ => false
  end.

Definition no_space (t : text) : bool :=
  forallb (fun c => negb (Ascii.eqb c " "%char)) t.

(** ** [Nova.run] of [mainv3.py] *)

(** How [run] ends: it returns, once the loop is interrupted, or a
    [RuntimeError] leaves it, which [main] prints. *)
Inductive RunResult : Type :=
| Returned
| Raised (msg : text).

(** The whole of an attempt at a rate succeeds. *)
Definition opens_at (attempt : N -> Stage) (rate : N) : bool :=
  match attempt rate with
  | Opens => true
  | _ => false
  end.

(** [run]: the greeting, [start], then [listen_forever] over the results
    that come before the interrupt, and [stop] in the [finally] branch.
    [listen_forever] raises at once when the listener has no
    recogniser. *)
Definition run (attempt : N -> Stage) (env : Env) (bypass : bool)
    (es : list TranscriptEvent) : list Action * list StreamEvent * RunResult :=
  let online := Say (txt "Nova online") in
  match start_streams attempt new_listener with
  | (l, evs, false) =>
      ([online], evs,
       Raised (txt "Could not start microphone stream at 16k/44.1k/48k. Try --device."))
  | (l, evs, true) =>
      let (_, closing) := stop l in
      match rec l with
      | None => ([online], evs ++ closing, Raised (txt "Recognizer not initialised."))
      | Some _ =>
          let (_, acts) := listen_forever env (init_nova bypass) es in
          (online :: acts, evs ++ closing, Returned)
      end
  end.

(** ** [mainv2.py]: the build before the confusion table and the gate *)

(** [APP_PATHS] of [mainv2.py]: the keys of [mainv3.py], the paths with
    single backslashes. *)
Definition APP_PATHS_v2 : dict text :=
  [ (txt "chrome", txt "C:\Program Files\Google\Chrome\Application\chrome.exe");
    (txt "edge", txt "C:\Program Files (x86)\Microsoft\Edge\Application\msedge.exe");
    (txt "brave", txt "C:\Program Files\BraveSoftware\Brave-Browser\Application\brave.exe");
    (txt "vscode", txt "C:\Users\%USERNAME%\AppData\Local\Programs\Microsoft VS Code\Code.exe");
    (txt "notepad", txt "notepad.exe");
    (txt "spotify", txt "C:\Users\%USERNAME%\AppData\Roaming\Spotify\Spotify.exe");
    (txt "calculator", txt "calc.exe") ].

Definition APP_ALIASES_v2 : dict text :=
  [ (txt "grown", txt "chrome"); (txt "goal", txt "chrome");
    (txt "rome", txt "chrome"); (txt "google", txt "chrome");
    (txt "code", txt "vscode"); (txt "visual studio code", txt "vscode") ].

Definition WEBSITES_v2 : dict text :=
  [ (txt "google", txt "https://www.google.com");
    (txt "youtube", txt "https://www.youtube.com");
    (txt "gmail", txt "https://mail.google.com");
    (txt "drive", txt "https://drive.google.com");
    (txt "chatgpt", txt "https://chat.openai.com");
    (txt "github", txt "https://github.com");
    (txt "stackoverflow", txt "https://stackoverflow.com") ].

(** [normalize] of [mainv2.py], which strips before it lowers *)
Definition normalize_v2 (t : text) : text := collapse_spaces (lower (strip t)).

(** [resolve_name_fuzzy] of [mainv2.py]: the value of an alias is
    returned as it is, without a look at the choices. *)
Definition resolve_name_fuzzy_v2 (name : text) (choices : list text)
    (extra_alias : option (dict text)) : option text :=
  let n := lower (strip name) in
  match match extra_alias with Some d => lookup d n | None => None end with
  | Some v => Some v
  | None => if mem n choices then Some n else Difflib.get_close_matches n choices
  end.

(** The class [[\w\s\.\+\-]] *)
Definition is_name_char (c : ascii) : bool :=
  is_word c || is_space c
  || Ascii.eqb c "."%char || Ascii.eqb c "+"%char || Ascii.eqb c "-"%char.

(** [([\w\s\.\+\-]+)$]: the class holds the line feed, so the group runs
    to the end of the text, and no shorter group ends where [$] holds. *)
Definition name_group (r : text) : option text :=
  match r with
  | [] => None
  | _ => if forallb is_name_char r then Some r else None
  end.

(** [\s+([\w\s\.\+\-]+)$] after a first white-space character: the
    greedy [\s+] takes more white space first and gives it back on
    failure. *)
Fixpoint spaces_then_name (r : text) : option text :=
  match r with
  | c :: r' =>
      if is_space c then
        match spaces_then_name r' with
        | Some g => Some g
        | None => name_group r
        end
      else name_group r
  | [] => None
  end.

(** [^(v1|v2|...)\s+([\w\s\.\+\-]+)$]: group 2 *)
Fixpoint match_name_verb (verbs : list text) (t : text) : option text :=
  match verbs with
  | [] => None
  | v :: vs =>
      let here :=
        match strip_prefix v t with
        | Some (c :: r) => if is_space c then spaces_then_name r else None
        | _ => None
        end in
      match here with
      | Some g => Some g
      | None => match_name_verb vs t
      end
  end.

Definition OPEN_APP_PAT_v2 (t : text) : option text :=
  match_name_verb (map txt ["open"; "launch"; "start"]%string) t.

(** [\w+]: the longest run of word characters, and what follows it *)
Fixpoint word_run (r : text) : text * text :=
  match r with
  | c :: r' =>
      if is_word c then let (w, rest) := word_run r' in (c :: w, rest)
      else ([], r)
  | [] => ([], [])
  end.

(** [\s+(\w+)(?:\.com)?$] after a first white-space character: a word
    follows the white space, so all of the white space is taken, and
    after a shorter run of word characters neither [\.com] nor [$]
    holds. *)
Definition site_group (r : text) : option text :=
  let (w, r2) := word_run (lstrip r) in
  match w with
  | [] => None
  | _ =>
      if match strip_prefix (txt ".com") r2 with
         | Some r3 => at_end r3
         | None => false
         end
         || at_end r2
      then Some w else None
  end.

(** [^(open)\s+(\w+)(?:\.com)?$]: group 2 *)
Definition OPEN_SITE_PAT_v2 (t : text) : option text :=
  match strip_prefix (txt "open") t with
  | Some (c :: r) => if is_space c then site_group r else None
  | _ => None
  end.

Section Executor_v2.
Variable env : Env.

(** [Executor.open_app] of [mainv2.py]; [APP_PATHS.get(choice)] is
    [None] for a choice outside the registry, and [expandvars] then
    raises inside the [try]. *)
Definition open_app_v2 (name : text) : list Action :=
  let n := lower (strip name) in
  let key := get_default APP_ALIASES_v2 n n in
  match found (resolve_name_fuzzy_v2 key (keys APP_PATHS_v2) (Some APP_ALIASES_v2)) with
  | None => [ Say (txt "I couldn't find an app like " ++ name ++ txt ".") ]
  | Some choice =>
      match lookup APP_PATHS_v2 choice with
      | Some p =>
          let path := expandvars env p in
          if popen_ok env path
          then [ Popen path; Say (txt "Opening " ++ choice ++ txt ".") ]
          else [ Say (txt "Couldn't open " ++ choice ++ txt ".") ]
      | None => [ Say (txt "Couldn't open " ++ choice ++ txt ".") ]
      end
  end.

(** [Executor.open_site] of [mainv2.py] *)
Definition open_site_v2 (key : text) : list Action :=
  match found (resolve_name_fuzzy_v2 key (keys WEBSITES_v2) None) with
  | None => [ Say (txt "I don't know the site " ++ key ++ txt ".") ]
  | Some choice =>
      [ OpenUrl (item WEBSITES_v2 choice); Say (txt "Opening " ++ choice ++ txt ".") ]
  end.

(** The chain of [if]/[elif] of [on_final] in [mainv2.py] *)
Definition route_v2 (t : text) : list Action :=
  match SEARCH_PAT t with
  | Some q => web_search q
  | None =>
  match OPEN_SITE_PAT_v2 t with
  | Some key => open_site_v2 key
  | None =>
  match OPEN_APP_PAT_v2 t with
  | Some name => open_app_v2 name
  | None =>
  if TIME_PAT t then tell_time env
  else if VOLUME_UP_PAT t then volume_up env
  else if VOLUME_DOWN_PAT t then volume_down env
  else if MUTE_PAT t then mute env
  else if SCREENSHOT_PAT t then screenshot env
  else if mem t (map txt ["stop"; "go to sleep"; "sleep"]%string)
       then [ Say (txt "Going to sleep") ]
  else [ Say (txt "I didn't catch a supported command.") ]
  end end end.

(** [Nova.on_final] of [mainv2.py]; the line it prints for a command is
    no action. *)
Definition on_final_v2 (st : Nova) (t : text) : Nova * list Action :=
  let t := normalize_v2 t in
  match t with
  | [] => (st, [])
  | _ =>
      if negb (awake st) then
        if fuzzy_wake t then (set_awake st true, [ Say (txt "Ready") ])
        else (st, [])
      else
        match strip_wake_words t with
        | [] => (st, [])
        | cmd => (set_awake st (bypass_wake st), route_v2 cmd)
        end
  end.
End Executor_v2.

(* ================================================================== *)
(** * Properties *)

(** ** Characters and texts *)

Lemma ascii_eqb_true (c d : ascii) : Ascii.eqb c d = true <-> c = d.
Proof. apply Ascii.eqb_eq. Qed.

Lemma text_eqb_eq (x y : text) : text_eqb x y = true <-> x = y.
Proof.
  revert y; induction x as [|c x IH]; intros [|d y]; simpl; split; intro H;
    try reflexivity; try discriminate.
  - apply andb_true_iff in H as [H1 H2].
    apply Ascii.eqb_eq in H1; apply IH in H2; congruence.
  - injection H as -> ->. rewrite Ascii.eqb_refl. simpl. now apply IH.
Qed.

Lemma text_eqb_refl (x : text) : text_eqb x x = true.
Proof. now apply text_eqb_eq. Qed.

Lemma mem_In (x : text) (l : list text) : mem x l = true <-> In x l.
Proof.
  unfold mem. rewrite existsb_exists. split.
  - intros (y & Hy & E). apply text_eqb_eq in E. now subst.
  - intros H. exists x. split; [assumption | apply text_eqb_refl].
Qed.

(** ** The matcher of [difflib] *)

Module DifflibFacts.
Import Difflib.

Lemma sound_empty (a b : text) : sound a b (mkMatch 0 0 0).
Proof. exists [], a, [], b, []. simpl. auto. Qed.

Lemma common_prefix_split (x y : text) :
  exists p x' y', x = p ++ x' /\ y = p ++ y' /\ length p = common_prefix x y.
Proof.
  revert y; induction x as [|c x IH]; intros y.
  - exists [], [], y. simpl. auto.
  - destruct y as [|d y]; simpl.
    + exists [], (c :: x), []. auto.
    + destruct (Ascii.eqb c d) eqn:E.
      * apply Ascii.eqb_eq in E; subst d.
        destruct (IH y) as (p & x' & y' & -> & -> & L).
        exists (c :: p), x', y'. simpl. auto.
      * exists [], (c :: x), (d :: y). auto.
Qed.

Section WithPopular.
Variable popular : ascii -> bool.

Lemma run_len_split (x y : text) :
  exists p x' y', x = p ++ x' /\ y = p ++ y' /\ length p = run_len popular x y.
Proof.
  revert y; induction x as [|c x IH]; intros y.
  - exists [], [], y. simpl. auto.
  - destruct y as [|d y]; simpl.
    + exists [], (c :: x), []. auto.
    + destruct (Ascii.eqb c d && negb (popular d)) eqn:E.
      * apply andb_true_iff in E as [E _].
        apply Ascii.eqb_eq in E; subst d.
        destruct (IH y) as (p & x' & y' & -> & -> & L).
        exists (c :: p), x', y'. simpl. auto.
      * exists [], (c :: x), (d :: y). auto.
Qed.

Lemma scan_b_sound (a b a1 x : text) :
  a = a1 ++ x ->
  forall y b1 best,
    b = b1 ++ y -> sound a b best ->
    sound a b (scan_b popular x y (length a1) (length b1) best).
Proof.
  intros Ha. induction y as [|d y IH]; intros b1 best Hb Hbest; simpl.
  - assumption.
  - replace (S (length b1)) with (length (b1 ++ [d]))
      by (rewrite length_app; simpl; lia).
    apply IH.
    + rewrite Hb, <- app_assoc. reflexivity.
    + destruct (m_size best <? run_len popular x (d :: y)); [|assumption].
      destruct (run_len_split x (d :: y)) as (p & x' & y' & Hx & Hy & L).
      exists a1, x', b1, y', p. simpl.
      repeat split; auto; [rewrite Ha, Hx | rewrite Hb, Hy]; reflexivity.
Qed.

Lemma scan_a_sound (a b : text) :
  forall x a1 best,
    a = a1 ++ x -> sound a b best ->
    sound a b (scan_a popular x b (length a1) best).
Proof.
  induction x as [|c x IH]; intros a1 best Ha Hbest; simpl.
  - assumption.
  - replace (S (length a1)) with (length (a1 ++ [c]))
      by (rewrite length_app; simpl; lia).
    apply IH.
    + rewrite Ha, <- app_assoc. reflexivity.
    + apply (@scan_b_sound a b a1 (c :: x) Ha (b) [] best); auto.
Qed.

Lemma extend_sound (a b : text) (m : Match) :
  sound a b m -> sound a b (extend a b m).
Proof.
  intros (a1 & a2 & b1 & b2 & mid & Ha & Hb & L1 & L2 & L3).
  unfold extend.
  assert (F1 : firstn (m_i m) a = a1).
  { rewrite Ha, <- L1. rewrite firstn_app, Nat.sub_diag, firstn_all. simpl.
    apply app_nil_r. }
  assert (F2 : firstn (m_j m) b = b1).
  { rewrite Hb, <- L2. rewrite firstn_app, Nat.sub_diag, firstn_all. simpl.
    apply app_nil_r. }
  rewrite F1, F2.
  destruct (common_prefix_split (rev a1) (rev b1)) as (p & u & v & Hu & Hv & Lp).
  rewrite <- Lp.
  assert (Ea1 : a1 = rev u ++ rev p).
  { rewrite <- (rev_involutive a1), Hu, rev_app_distr. reflexivity. }
  assert (Eb1 : b1 = rev v ++ rev p).
  { rewrite <- (rev_involutive b1), Hv, rev_app_distr. reflexivity. }
  assert (Li : m_i m - length p = length (rev u)).
  { rewrite <- L1, Ea1, length_app, length_rev, length_rev. lia. }
  assert (Lj : m_j m - length p = length (rev v)).
  { rewrite <- L2, Eb1, length_app, length_rev, length_rev. lia. }
  rewrite Li, Lj.
  assert (S1 : skipn (length (rev u) + (m_size m + length p)) a = a2).
  { rewrite Ha, Ea1, <- !app_assoc.
    replace (rev u ++ rev p ++ mid ++ a2) with ((rev u ++ rev p ++ mid) ++ a2)
      by (rewrite <- !app_assoc; reflexivity).
    replace (length (rev u) + (m_size m + length p))
      with (length (rev u ++ rev p ++ mid))
      by (rewrite !length_app, !length_rev; lia).
    rewrite skipn_app, Nat.sub_diag, skipn_all. reflexivity. }
  assert (S2 : skipn (length (rev v) + (m_size m + length p)) b = b2).
  { rewrite Hb, Eb1, <- !app_assoc.
    replace (rev v ++ rev p ++ mid ++ b2) with ((rev v ++ rev p ++ mid) ++ b2)
      by (rewrite <- !app_assoc; reflexivity).
    replace (length (rev v) + (m_size m + length p))
      with (length (rev v ++ rev p ++ mid))
      by (rewrite !length_app, !length_rev; lia).
    rewrite skipn_app, Nat.sub_diag, skipn_all. reflexivity. }
  rewrite S1, S2.
  destruct (common_prefix_split a2 b2) as (q & a2' & b2' & Ha2 & Hb2 & Lq).
  rewrite <- Lq.
  exists (rev u), a2', (rev v), b2', (rev p ++ mid ++ q). simpl.
  repeat split.
  - rewrite Ha, Ea1, Ha2, <- !app_assoc. reflexivity.
  - rewrite Hb, Eb1, Hb2, <- !app_assoc. reflexivity.
  - rewrite !length_app, length_rev. lia.
Qed.

Lemma find_longest_match_sound (a b : text) :
  sound a b (find_longest_match popular a b).
Proof.
  unfold find_longest_match. apply extend_sound.
  apply (@scan_a_sound a b a [] (mkMatch 0 0 0)); [reflexivity|].
  apply sound_empty.
Qed.
End WithPopular.

(** *** The sum of the block sizes *)

Lemma matched_step (popular : ascii -> bool) (a b : text) :
  exists a1 a2 b1 b2 mid,
    a = a1 ++ mid ++ a2 /\ b = b1 ++ mid ++ b2 /\
    forall fuel,
      matched popular (S fuel) a b =
      if length mid =? 0 then 0
      else length mid
           + (if (0 <? length a1) && (0 <? length b1)
              then matched popular fuel a1 b1 else 0)
           + (if (0 <? length a2) && (0 <? length b2)
              then matched popular fuel a2 b2 else 0).
Proof.
  destruct (find_longest_match_sound popular a b)
    as (a1 & a2 & b1 & b2 & mid & Ha & Hb & L1 & L2 & L3).
  exists a1, a2, b1, b2, mid. repeat split; try assumption.
  intros fuel. cbn [matched]. rewrite <- L1, <- L2, <- L3.
  assert (F1 : firstn (length a1) a = a1).
  { rewrite Ha, firstn_app, Nat.sub_diag, firstn_all. simpl. apply app_nil_r. }
  assert (F2 : firstn (length b1) b = b1).
  { rewrite Hb, firstn_app, Nat.sub_diag, firstn_all. simpl. apply app_nil_r. }
  assert (S1 : skipn (length a1 + length mid) a = a2).
  { rewrite Ha, app_assoc, <- length_app, skipn_app, Nat.sub_diag, skipn_all.
    reflexivity. }
  assert (S2 : skipn (length b1 + length mid) b = b2).
  { rewrite Hb, app_assoc, <- length_app, skipn_app, Nat.sub_diag, skipn_all.
    reflexivity. }
  rewrite F1, F2, S1, S2.
  assert (La : length a = length a1 + length mid + length a2)
    by (rewrite Ha, !length_app; lia).
  assert (Lb : length b = length b1 + length mid + length b2)
    by (rewrite Hb, !length_app; lia).
  replace (length a1 + length mid <? length a) with (0 <? length a2).
  2:{ destruct (Nat.ltb_spec 0 (length a2));
      destruct (Nat.ltb_spec (length a1 + length mid) (length a)); lia. }
  replace (length b1 + length mid <? length b) with (0 <? length b2).
  2:{ destruct (Nat.ltb_spec 0 (length b2));
      destruct (Nat.ltb_spec (length b1 + length mid) (length b)); lia. }
  reflexivity.
Qed.

(** The fuel [length a] is enough: more fuel gives the same sum. *)
Lemma matched_fuel (popular : ascii -> bool) (f1 f2 : nat) :
  forall a b, length a <= f1 -> length a <= f2 ->
              matched popular f1 a b = matched popular f2 a b.
Proof.
  revert f2. induction f1 as [|f1 IH]; intros f2 a b H1 H2.
  - destruct a; [|simpl in H1; lia].
    destruct f2; [reflexivity|].
    destruct (matched_step popular [] b) as (a1 & a2 & b1 & b2 & mid & Ha & _ & E).
    rewrite E. destruct a1, mid; try discriminate. reflexivity.
  - destruct f2 as [|f2].
    + destruct a; [|simpl in H2; lia].
      destruct (matched_step popular [] b) as (a1 & a2 & b1 & b2 & mid & Ha & _ & E).
      rewrite E. destruct a1, mid; try discriminate. reflexivity.
    + destruct (matched_step popular a b) as (a1 & a2 & b1 & b2 & mid & Ha & _ & E).
      rewrite !E.
      assert (La : length a = length a1 + length mid + length a2)
        by (rewrite Ha, !length_app; lia).
      destruct (Nat.eqb_spec (length mid) 0); [reflexivity|].
      rewrite (IH f2 a1 b1), (IH f2 a2 b2) by lia. reflexivity.
Qed.

Lemma matched_le_min (popular : ascii -> bool) (fuel : nat) :
  forall a b, matched popular fuel a b <= Nat.min (length a) (length b).
Proof.
  induction fuel as [|fuel IH]; intros a b; [simpl; lia|].
  destruct (matched_step popular a b) as (a1 & a2 & b1 & b2 & mid & Ha & Hb & E).
  rewrite E.
  assert (La : length a = length a1 + length mid + length a2)
    by (rewrite Ha, !length_app; lia).
  assert (Lb : length b = length b1 + length mid + length b2)
    by (rewrite Hb, !length_app; lia).
  pose proof (IH a1 b1). pose proof (IH a2 b2).
  destruct (length mid =? 0); [lia|].
  destruct ((0 <? length a1) && (0 <? length b1));
    destruct ((0 <? length a2) && (0 <? length b2)); lia.
Qed.

(** *** The multiset bound of [quick_ratio] *)

Lemma all_chars_In (c : ascii) : In c all_chars.
Proof.
  unfold all_chars. rewrite <- (ascii_nat_embedding c).
  apply in_map, in_seq. pose proof (nat_ascii_bounded c). lia.
Qed.

Lemma all_chars_NoDup : NoDup all_chars.
Proof.
  assert (E : nodup ascii_dec all_chars = all_chars) by (vm_compute; reflexivity).
  rewrite <- E. apply NoDup_nodup.
Qed.

Lemma sum_chars_add (g h : ascii -> nat) :
  sum_chars (fun c => g c + h c) = sum_chars g + sum_chars h.
Proof.
  unfold sum_chars. induction all_chars as [|c l IH]; simpl; [reflexivity|].
  rewrite IH. lia.
Qed.

Lemma sum_chars_le (g h : ascii -> nat) :
  (forall c, g c <= h c) -> sum_chars g <= sum_chars h.
Proof.
  intros H. unfold sum_chars. induction all_chars as [|c l IH]; simpl; [lia|].
  specialize (H c). lia.
Qed.

Lemma sum_chars_ext (g h : ascii -> nat) :
  (forall c, g c = h c) -> sum_chars g = sum_chars h.
Proof.
  intros H. apply Nat.le_antisymm; apply sum_chars_le; intros c; rewrite H; lia.
Qed.

Lemma sum_indicator (x : ascii) (n : nat) :
  sum_chars (fun c => if Ascii.eqb c x then n else 0) = n.
Proof.
  unfold sum_chars.
  assert (G : forall l, NoDup l ->
              list_sum (map (fun c => if Ascii.eqb c x then n else 0) l)
              = if in_dec ascii_dec x l then n else 0).
  { induction l as [|d l IH]; intros ND; simpl; [reflexivity|].
    inversion ND as [|? ? Hd ND']; subst. rewrite (IH ND').
    destruct (Ascii.eqb_spec d x) as [E|Ne].
    - subst d. destruct (ascii_dec x x) as [C|C]; [|contradiction].
      destruct (in_dec ascii_dec x l); [contradiction | lia].
    - destruct (ascii_dec d x) as [C|C]; [contradiction|].
      destruct (in_dec ascii_dec x l); reflexivity. }
  rewrite (G _ all_chars_NoDup).
  destruct (in_dec ascii_dec x all_chars) as [C|C]; [reflexivity|].
  exfalso. apply C, all_chars_In.
Qed.

Lemma count_cons (c x : ascii) (t : text) :
  count c (x :: t) = (if Ascii.eqb c x then 1 else 0) + count c t.
Proof. unfold count. simpl. destruct (Ascii.eqb c x); reflexivity. Qed.

Lemma count_app (c : ascii) (s t : text) :
  count c (s ++ t) = count c s + count c t.
Proof. unfold count. rewrite filter_app, length_app. reflexivity. Qed.

Lemma sum_count (t : text) : sum_chars (fun c => count c t) = length t.
Proof.
  induction t as [|x t IH]; simpl.
  - rewrite <- (sum_indicator "000"%char 0) at 1.
    apply sum_chars_ext. intros c. destruct (Ascii.eqb c _); reflexivity.
  - rewrite (sum_chars_ext _ (fun c => (if Ascii.eqb c x then 1 else 0) + count c t))
      by (intros; apply count_cons).
    rewrite sum_chars_add, sum_indicator, IH. reflexivity.
Qed.

Lemma quick_matches_isect (a : text) :
  forall f, quick_matches a f = isect a f.
Proof.
  induction a as [|x a IH]; intros f; simpl.
  - unfold isect. rewrite <- (sum_indicator "000"%char 0) at 1.
    apply sum_chars_ext. intros c. destruct (Ascii.eqb c _); reflexivity.
  - rewrite IH. unfold isect.
    rewrite <- (sum_indicator x (if 0 <? f x then 1 else 0)) at 1.
    rewrite <- sum_chars_add. apply sum_chars_ext. intros c.
    rewrite count_cons.
    destruct (Ascii.eqb_spec c x) as [E|Ne].
    + subst c. destruct (Nat.ltb_spec 0 (f x)); lia.
    + reflexivity.
Qed.

Lemma matched_le_isect (popular : ascii -> bool) (fuel : nat) :
  forall a b, matched popular fuel a b <= isect a (fun c => count c b).
Proof.
  induction fuel as [|fuel IH]; intros a b; [simpl; lia|].
  destruct (matched_step popular a b) as (a1 & a2 & b1 & b2 & mid & Ha & Hb & E).
  rewrite E.
  assert (B : isect a1 (fun c => count c b1) + length mid
              + isect a2 (fun c => count c b2) <= isect a (fun c => count c b)).
  { unfold isect. rewrite <- (sum_count mid), <- !sum_chars_add.
    apply sum_chars_le. intros c. rewrite Ha, Hb, !count_app. lia. }
  pose proof (IH a1 b1). pose proof (IH a2 b2).
  destruct (length mid =? 0); [lia|].
  destruct ((0 <? length a1) && (0 <? length b1));
    destruct ((0 <? length a2) && (0 <? length b2)); lia.
Qed.

(** *** Scores *)

Lemma calculate_ratio_mono (m m' len : nat) :
  m <= m' -> (calculate_ratio m len <= calculate_ratio m' len)%Q.
Proof.
  intros H. unfold calculate_ratio. destruct (len =? 0); [apply Qle_refl|].
  unfold Qle. simpl. apply Z.mul_le_mono_nonneg_r; lia.
Qed.

Lemma ratio_le_real_quick (a b : text) : (ratio a b <= real_quick_ratio a b)%Q.
Proof. apply calculate_ratio_mono, matched_le_min. Qed.

Lemma ratio_le_quick (a b : text) : (ratio a b <= quick_ratio a b)%Q.
Proof.
  apply calculate_ratio_mono. rewrite quick_matches_isect. apply matched_le_isect.
Qed.

(** The two quick tests of [get_close_matches] reject nothing that the
    real score would accept. *)
Lemma close_enough_ratio (word x : text) :
  close_enough word x = Qle_bool cutoff (ratio x word).
Proof.
  unfold close_enough. destruct (Qle_bool cutoff (ratio x word)) eqn:E.
  - apply Qle_bool_iff in E.
    assert (E1 : Qle_bool cutoff (real_quick_ratio x word) = true).
    { apply Qle_bool_iff. eapply Qle_trans; [exact E | apply ratio_le_real_quick]. }
    assert (E2 : Qle_bool cutoff (quick_ratio x word) = true).
    { apply Qle_bool_iff. eapply Qle_trans; [exact E | apply ratio_le_quick]. }
    rewrite E1, E2. reflexivity.
  - apply andb_false_r.
Qed.

End DifflibFacts.

(** ** The order of [max] on scored keys *)

Lemma code_inj (c d : ascii) : code c = code d -> c = d.
Proof.
  unfold code. intros H.
  rewrite <- (ascii_N_embedding c), <- (ascii_N_embedding d), H. reflexivity.
Qed.

Lemma text_ltb_irrefl (x : text) : text_ltb x x = false.
Proof.
  induction x as [|c x IH]; simpl; [reflexivity|].
  rewrite N.ltb_irrefl, Ascii.eqb_refl. exact IH.
Qed.

Lemma text_ltb_trans (x y z : text) :
  text_ltb x y = true -> text_ltb y z = true -> text_ltb x z = true.
Proof.
  revert y z. induction x as [|c x IH]; intros [|d y] [|e z]; simpl;
    try discriminate; try reflexivity.
  destruct (N.ltb_spec (code c) (code d)) as [Hcd|Hcd];
    destruct (N.ltb_spec (code d) (code e)) as [Hde|Hde];
    destruct (N.ltb_spec (code c) (code e)) as [Hce|Hce]; try reflexivity;
    try lia;
    destruct (Ascii.eqb_spec c d) as [E1|E1]; try discriminate;
    destruct (Ascii.eqb_spec d e) as [E2|E2]; try discriminate;
    subst; try lia.
  rewrite Ascii.eqb_refl. apply IH.
Qed.

Lemma text_ltb_total (x y : text) :
  text_ltb x y = true \/ x = y \/ text_ltb y x = true.
Proof.
  revert y. induction x as [|c x IH]; intros [|d y]; simpl; auto.
  destruct (N.ltb_spec (code c) (code d)) as [Hcd|Hcd]; [auto|].
  destruct (N.ltb_spec (code d) (code c)) as [Hdc|Hdc]; [auto|].
  assert (c = d) by (apply code_inj; lia). subst d.
  rewrite Ascii.eqb_refl.
  destruct (IH y) as [H|[H|H]]; subst; auto.
Qed.

Module PickFacts.
Import Difflib DifflibFacts.

Lemma tuple_le_spec (it r : Q * text) :
  tuple_le it r <->
  (fst it <= fst r)%Q /\ (fst it == fst r -> text_ltb (snd r) (snd it) = false).
Proof.
  unfold tuple_le, tuple_gtb.
  destruct (Qeq_bool (fst it) (fst r)) eqn:E.
  - apply Qeq_bool_iff in E. split.
    + intros H. split; [rewrite E; apply Qle_refl | auto].
    + intros [_ H]. auto.
  - apply Qeq_bool_neq in E. rewrite negb_false_iff, Qle_bool_iff. split.
    + intros H. split; [assumption | intros C; contradiction].
    + intros [H _]. assumption.
Qed.

Lemma tuple_le_refl (it : Q * text) : tuple_le it it.
Proof.
  apply tuple_le_spec. split; [apply Qle_refl|].
  intros _. apply text_ltb_irrefl.
Qed.

Lemma tuple_le_trans (a b c : Q * text) :
  tuple_le a b -> tuple_le b c -> tuple_le a c.
Proof.
  rewrite !tuple_le_spec. intros [H1 T1] [H2 T2]. split.
  - eapply Qle_trans; eassumption.
  - intros E.
    assert (Eab : fst a == fst b).
    { apply Qle_antisym; [assumption|]. rewrite E. assumption. }
    assert (Ebc : fst b == fst c).
    { rewrite <- Eab. assumption. }
    specialize (T1 Eab). specialize (T2 Ebc).
    destruct (text_ltb (snd c) (snd a)) eqn:L; [|reflexivity].
    destruct (text_ltb_total (snd a) (snd b)) as [H|[H|H]].
    + rewrite (text_ltb_trans _ _ _ L H) in T2. discriminate.
    + rewrite <- H, L in T2. discriminate.
    + rewrite H in T1. discriminate.
Qed.

Lemma tuple_gtb_le (a b : Q * text) : tuple_gtb a b = true -> tuple_le b a.
Proof.
  unfold tuple_gtb. intros H. apply tuple_le_spec.
  destruct (Qeq_bool (fst a) (fst b)) eqn:E.
  - apply Qeq_bool_iff in E. split; [rewrite E; apply Qle_refl|].
    intros _. destruct (text_ltb (snd a) (snd b)) eqn:L; [|reflexivity].
    pose proof (text_ltb_trans _ _ _ H L) as C.
    rewrite text_ltb_irrefl in C. discriminate.
  - apply negb_true_iff in H.
    assert (~ (fst a <= fst b)%Q) as N.
    { intros C. apply Qle_bool_iff in C. congruence. }
    apply Qnot_le_lt in N. split; [apply Qlt_le_weak; assumption|].
    intros C. rewrite C in N. exfalso. revert N. apply Qlt_irrefl.
Qed.

Lemma pick_some (init : option (Q * text)) (item : Q * text) :
  exists m, pick init item = Some m /\ (m = item \/ init = Some m) /\
            tuple_le item m /\ (forall i0, init = Some i0 -> tuple_le i0 m).
Proof.
  destruct init as [m0|]; simpl.
  - destruct (tuple_gtb item m0) eqn:G.
    + exists item. repeat split; auto using tuple_le_refl.
      intros i0 [= <-]. apply tuple_gtb_le. assumption.
    + exists m0. repeat split; auto.
      intros i0 [= <-]. apply tuple_le_refl.
  - exists item. repeat split; auto using tuple_le_refl. discriminate.
Qed.

Lemma fold_pick_some (l : list (Q * text)) :
  forall init r, fold_left pick l init = Some r ->
    (init = Some r \/ In r l) /\
    (forall it, In it l -> tuple_le it r) /\
    (forall i0, init = Some i0 -> tuple_le i0 r).
Proof.
  induction l as [|item l IH]; intros init r H; simpl in H.
  - subst init. repeat split; auto.
    + intros it [].
    + intros i0 [= <-]. apply tuple_le_refl.
  - destruct (pick_some init item) as (m & Em & Hm & Li & Lo).
    destruct (IH _ _ H) as (Hr & Hl & Hi).
    assert (Lm : tuple_le m r) by (apply Hi; assumption).
    repeat split.
    + destruct Hr as [Hr|Hr]; [|right; right; assumption].
      rewrite Em in Hr. injection Hr as <-.
      destruct Hm as [->|Hm]; [right; left; reflexivity | left; assumption].
    + intros it [<-|Hit]; [|auto].
      eapply tuple_le_trans; eassumption.
    + intros i0 E. eapply tuple_le_trans; [apply Lo; assumption | assumption].
Qed.

Lemma fold_pick_none (l : list (Q * text)) :
  forall init, fold_left pick l init = None -> init = None /\ l = [].
Proof.
  induction l as [|item l IH]; intros init H; simpl in H; [auto|].
  apply IH in H as [H _].
  destruct (pick_some init item) as (m & Em & _). congruence.
Qed.

(** What [get_close_matches] returns, in terms of the score alone. *)
Lemma get_close_matches_some (word : text) (l : list text) (k : text) :
  get_close_matches word l = Some k ->
  In k l /\ (cutoff <= ratio k word)%Q /\
  forall c, In c l -> (cutoff <= ratio c word)%Q ->
            tuple_le (ratio c word, c) (ratio k word, k).
Proof.
  unfold get_close_matches. intros H.
  destruct (fold_left pick (scored word l) None) as [r|] eqn:F; [|discriminate].
  simpl in H. injection H as <-.
  destruct (fold_pick_some _ _ F) as ([C|Hin] & Hall & _); [discriminate|].
  unfold scored in Hin. apply in_map_iff in Hin as (x & Ex & Hx).
  apply filter_In in Hx as [Hx Cx]. subst r. simpl.
  rewrite close_enough_ratio in Cx. apply Qle_bool_iff in Cx.
  repeat split; try assumption.
  intros c Hc Cc. apply (Hall (ratio c word, c)).
  unfold scored. apply in_map_iff. exists c. split; [reflexivity|].
  apply filter_In. split; [assumption|].
  rewrite close_enough_ratio. apply Qle_bool_iff. assumption.
Qed.

Lemma get_close_matches_none (word : text) (l : list text) :
  get_close_matches word l = None <->
  forall c, In c l -> (ratio c word < cutoff)%Q.
Proof.
  unfold get_close_matches. split.
  - intros H c Hc.
    destruct (fold_left pick (scored word l) None) as [r|] eqn:F; [discriminate|].
    apply fold_pick_none in F as [_ F].
    apply Qnot_le_lt. intros C.
    assert (I : In (ratio c word, c) (scored word l)).
    { unfold scored. apply in_map_iff. exists c. split; [reflexivity|].
      apply filter_In. split; [assumption|].
      rewrite close_enough_ratio. apply Qle_bool_iff. assumption. }
    rewrite F in I. destruct I.
  - intros H.
    assert (E : scored word l = []).
    { unfold scored.
      destruct (filter (close_enough word) l) as [|x f] eqn:F; [reflexivity|].
      assert (I : In x (filter (close_enough word) l)) by (rewrite F; left; reflexivity).
      apply filter_In in I as [I C]. rewrite close_enough_ratio in C.
      apply Qle_bool_iff in C. specialize (H x I).
      exfalso. apply (Qlt_irrefl cutoff). eapply Qle_lt_trans; eassumption. }
    rewrite E. reflexivity.
Qed.
End PickFacts.

(** ** The fuzzy target resolver *)

Import Difflib.

(** C10. Whatever the name, the choices and the alias table, a result of
    [resolve_name_fuzzy] other than [None] is one of the choices: the
    resolver makes up no key, also when the alias table maps the name to
    a value that is no registry key. *)
Theorem resolve_name_fuzzy_in_choices
    (name : text) (choices : list text) (extra_alias : option (dict text))
    (k : text) :
  resolve_name_fuzzy name choices extra_alias = Some k -> In k choices.
Proof.
  unfold resolve_name_fuzzy.
  destruct (mem (effective_name name extra_alias) choices) eqn:M.
  - intros [= <-]. apply mem_In. assumption.
  - intros H. apply PickFacts.get_close_matches_some in H. tauto.
Qed.

(** The alias table sends "bad" to a value that is no key of the
    registry; the resolver still answers with a key. *)
Lemma resolve_name_fuzzy_in_choices_witness :
  resolve_name_fuzzy (txt "bad") (keys APP_PATHS)
                     (Some [(txt "bad", txt "notepads")])
  = Some (txt "notepad")
  /\ In (txt "notepad") (keys APP_PATHS).
Proof.
  assert (H : resolve_name_fuzzy (txt "bad") (keys APP_PATHS)
                (Some [(txt "bad", txt "notepads")]) = Some (txt "notepad"))
    by (vm_compute; reflexivity).
  split; [exact H|].
  exact (resolve_name_fuzzy_in_choices (txt "bad") (keys APP_PATHS)
           (Some [(txt "bad", txt "notepads")]) H).
Defined.

(** C7, as the code has it.  When the name is no exact key, no key that
    ties with the result at its score is greater than the result in the
    order of Python strings: of the tied keys the resolver returns the
    greatest, whatever their lengths and their places in the registry.
    The result is a function of the three inputs. *)
Theorem resolve_name_fuzzy_tie_break
    (name : text) (choices : list text) (extra_alias : option (dict text))
    (k : text) :
  resolve_name_fuzzy name choices extra_alias = Some k ->
  mem (effective_name name extra_alias) choices = false ->
  (forall c, In c choices ->
             ratio c (effective_name name extra_alias)
             == ratio k (effective_name name extra_alias) ->
             text_ltb k c = false)
  /\ (forall r, resolve_name_fuzzy name choices extra_alias = r -> r = Some k).
Proof.
  intros H M. split; [|intros r <-; assumption].
  unfold resolve_name_fuzzy in H. rewrite M in H.
  apply PickFacts.get_close_matches_some in H as (_ & Hk & Hmax).
  intros c Hc E.
  assert (Cc : (cutoff <= ratio c (effective_name name extra_alias))%Q)
    by (rewrite E; assumption).
  specialize (Hmax c Hc Cc). apply PickFacts.tuple_le_spec in Hmax as [_ T].
  apply T. assumption.
Qed.

Lemma resolve_name_fuzzy_tie_break_witness :
  resolve_name_fuzzy (txt "ab") [txt "abc"; txt "abd"] None = Some (txt "abd")
  /\ mem (effective_name (txt "ab") None) [txt "abc"; txt "abd"] = false
  /\ (forall c, In c [txt "abc"; txt "abd"] ->
                ratio c (effective_name (txt "ab") None)
                == ratio (txt "abd") (effective_name (txt "ab") None) ->
                text_ltb (txt "abd") c = false)
  /\ (forall r, resolve_name_fuzzy (txt "ab") [txt "abc"; txt "abd"] None = r ->
                r = Some (txt "abd")).
Proof.
  assert (H : resolve_name_fuzzy (txt "ab") [txt "abc"; txt "abd"] None
              = Some (txt "abd")) by (vm_compute; reflexivity).
  assert (M : mem (effective_name (txt "ab") None) [txt "abc"; txt "abd"] = false)
    by (vm_compute; reflexivity).
  split; [exact H|]. split; [exact M|].
  exact (resolve_name_fuzzy_tie_break (txt "ab") [txt "abc"; txt "abd"] None H M).
Defined.

(** C7, as the claim states it, fails.  For the phrase "abcdef" the keys
    "abcd" and "abcdefxyz" tie at the greatest score, 4/5, which is above
    the cutoff; the resolver returns "abcdefxyz", which is neither the
    shortest of the two nor the first in the registry. *)
Lemma resolve_name_fuzzy_tie_not_shortest :
  let registry := [txt "abcd"; txt "abcdefxyz"] in
  let phrase := txt "abcdef" in
  ratio (txt "abcd") phrase == 4 # 5
  /\ ratio (txt "abcdefxyz") phrase == 4 # 5
  /\ (cutoff <= 4 # 5)%Q
  /\ length (txt "abcd") < length (txt "abcdefxyz")
  /\ resolve_name_fuzzy phrase registry None = Some (txt "abcdefxyz")
  /\ resolve_name_fuzzy phrase registry None <> Some (txt "abcd").
Proof.
  cbv zeta. repeat split; try (vm_compute; reflexivity).
  - vm_compute. discriminate.
  - vm_compute. lia.
  - vm_compute. discriminate.
Qed.

(** C8. When the name, after the alias table, is no exact key of the
    registry, [resolve_name_fuzzy] returns a key only if the score of that
    key is at least the cutoff 0.7, and then no key of the registry scores
    higher; it returns [None] exactly when every key scores below the
    cutoff.  In an awake session "open zzzznotreal", which scores below
    the cutoff against every application, starts nothing: the fallback is
    spoken and the session is asleep again. *)
Theorem resolve_name_fuzzy_cutoff
    (name : text) (choices : list text) (extra_alias : option (dict text)) :
  mem (effective_name name extra_alias) choices = false ->
  (forall k, resolve_name_fuzzy name choices extra_alias = Some k ->
     In k choices
     /\ (cutoff <= ratio k (effective_name name extra_alias))%Q
     /\ forall c, In c choices ->
          (ratio c (effective_name name extra_alias)
           <= ratio k (effective_name name extra_alias))%Q)
  /\ (resolve_name_fuzzy name choices extra_alias = None <->
      forall c, In c choices ->
        (ratio c (effective_name name extra_alias) < cutoff)%Q)
  /\ Forall (fun c => (ratio c (txt "zzzznotreal") < cutoff)%Q) (keys APP_PATHS)
  /\ (forall env,
        on_final env (mkNova true false) (txt "open zzzznotreal")
        = (mkNova false false,
           [Say (txt "I couldn't find an app like zzzznotreal.")])).
Proof.
  intros M. unfold resolve_name_fuzzy. rewrite M.
  split; [|split; [|split]].
  - intros k H. apply PickFacts.get_close_matches_some in H as (Hin & Hk & Hmax).
    repeat split; try assumption.
    intros c Hc.
    destruct (Qlt_le_dec (ratio c (effective_name name extra_alias)) cutoff) as [L|L].
    + apply Qlt_le_weak. eapply Qlt_le_trans; eassumption.
    + specialize (Hmax c Hc L). apply PickFacts.tuple_le_spec in Hmax as [Hq _].
      exact Hq.
  - apply PickFacts.get_close_matches_none.
  - repeat constructor; vm_compute; reflexivity.
  - intros env. vm_compute. reflexivity.
Qed.

Lemma resolve_name_fuzzy_cutoff_witness :
  mem (effective_name (txt "crome") (Some APP_ALIASES)) (keys APP_PATHS) = false
  /\ resolve_name_fuzzy (txt "crome") (keys APP_PATHS) (Some APP_ALIASES)
     = Some (txt "chrome")
  /\ (cutoff <= ratio (txt "chrome") (effective_name (txt "crome") (Some APP_ALIASES)))%Q.
Proof.
  assert (M : mem (effective_name (txt "crome") (Some APP_ALIASES)) (keys APP_PATHS)
              = false) by (vm_compute; reflexivity).
  assert (R : resolve_name_fuzzy (txt "crome") (keys APP_PATHS) (Some APP_ALIASES)
              = Some (txt "chrome")) by (vm_compute; reflexivity).
  split; [exact M|]. split; [exact R|].
  exact (proj1 (proj2
    (proj1 (resolve_name_fuzzy_cutoff (txt "crome") (keys APP_PATHS)
              (Some APP_ALIASES) M) (txt "chrome") R))).
Defined.

(** ** The intent gate and the router *)

(** C1.  A text whose leading token is outside the allow-list of the
    specification never passes the gate, and "the weather is nice" is
    dropped in an awake session.  The converse fails in the code: the set
    of [_gate_intent] lacks launch, start, volume, mute and screenshot, so
    "volume up", whose leading token is in the allow-list and which
    [VOLUME_UP_PAT] matches, is dropped before any pattern is tried. *)
Theorem gate_intent_narrower_than_allow_list :
  (forall t, implb (_gate_intent t) (mem (leading_token t) SPEC_GATE_VERBS) = true)
  /\ (forall env b,
        on_final env (mkNova true b) (txt "the weather is nice")
        = (mkNova true b, []))
  /\ mem (leading_token (txt "volume up")) SPEC_GATE_VERBS = true
  /\ mem (txt "volume") INTENT_VERBS = true
  /\ VOLUME_UP_PAT (txt "volume up") = true
  /\ _gate_intent (txt "volume up") = false
  /\ (forall env b,
        on_final env (mkNova true b) (txt "volume up") = (mkNova true b, [])).
Proof.
  split; [|split; [|split; [|split; [|split; [|split]]]]];
    try (vm_compute; reflexivity).
  - intros t. unfold _gate_intent, leading_token.
    generalize (before (txt " ") t). intros f.
    unfold SPEC_GATE_VERBS, mem. cbn [map existsb].
    repeat match goal with
           | |- context [text_eqb f ?x] => destruct (text_eqb f x); cbn
           end; reflexivity.
Qed.

(** C2.  In an awake session "open youtube" goes to [open_app], because
    [OPEN_APP_PAT] is tried before [OPEN_SITE_PAT] and matches every text
    that [OPEN_SITE_PAT] matches; no application resolves, the fallback is
    spoken, and the site registry, of which "youtube" is a key, is never
    asked. *)
Theorem open_youtube_never_reaches_sites :
  (forall env,
     on_final env (mkNova true false) (txt "open youtube")
     = (mkNova false false, [Say (txt "I couldn't find an app like youtube.")]))
  /\ mem (txt "youtube") (keys WEBSITES) = true
  /\ open_site (txt "youtube")
     = [OpenUrl (txt "https://www.youtube.com"); Say (txt "Opening youtube.")]
  /\ (forall t, OPEN_SITE_PAT t = None \/ OPEN_APP_PAT t = OPEN_SITE_PAT t).
Proof.
  split; [|split; [|split]]; try (vm_compute; reflexivity).
  intros t. unfold OPEN_SITE_PAT, OPEN_APP_PAT. cbn [map match_verb].
    destruct (match strip_prefix (txt "open") t with
              | Some (c :: r) => if is_space c then spaces_then_rest r else None
              | _ => None
              end); [right; reflexivity | left; reflexivity].
Qed.

(** ** The start of the listener *)

Section ListenerFacts.
Variable opens : N -> bool.

Lemma try_rates_spec (rates : list N) :
  exists rest, rates = fst (try_rates opens rates) ++ rest /\
    match snd (try_rates opens rates) with
    | Some rate =>
        exists failed, fst (try_rates opens rates) = failed ++ [rate] /\
                       opens rate = true /\
                       Forall (fun r => opens r = false) failed
    | None =>
        fst (try_rates opens rates) = rates /\
        Forall (fun r => opens r = false) rates
    end.
Proof.
  induction rates as [|rate rates IH]; simpl.
  - exists []. repeat split; constructor.
  - destruct (opens rate) eqn:E; simpl.
    + exists rates. split; [reflexivity|]. exists []. repeat split; auto.
    + destruct (try_rates opens rates) as [tried r]. simpl in *.
      destruct IH as (rest & Hr & IH). exists rest. split; [congruence|].
      destruct r as [r|].
      * destruct IH as (failed & Hf & Ho & Hall).
        exists (rate :: failed). simpl. repeat split; auto. congruence.
      * destruct IH as [Ht Hall]. split; [congruence | auto].
Qed.

(** C9.  [start] tries 16000, 44100 and 48000 in this order, stops at the
    first rate at which the device opens and uses it, and fails with the
    error of an unavailable device exactly when all three fail; [main]
    then prints the error once and returns, each rate having been tried
    once. *)
Theorem start_tries_rates_in_order :
  RATES = [16000; 44100; 48000]%N
  /\ (exists rest, RATES = fst (start opens) ++ rest)
  /\ (forall rate, snd (start opens) = Started rate <->
        exists failed, fst (start opens) = failed ++ [rate] /\
                       opens rate = true /\
                       Forall (fun r => opens r = false) failed)
  /\ ((exists msg, snd (start opens) = DeviceUnavailable msg) <->
      Forall (fun r => opens r = false) RATES)
  /\ (Forall (fun r => opens r = false) RATES ->
      exists msg hint,
        main_startup opens = (RATES, Exited [(txt "Error: " ++ msg)%list; hint]))
  /\ (forall rate, snd (start opens) = Started rate ->
        main_startup opens = (fst (start opens), Listening rate)).
Proof.
  split; [reflexivity|].
  unfold main_startup, start.
  destruct (try_rates_spec RATES) as (rest & Hrest & Hspec).
  destruct (try_rates opens RATES) as [tried r]. simpl in *.
  split; [exists rest; assumption|].
  destruct r as [r|].
  - destruct Hspec as (failed & Hf & Ho & Hall).
    split; [|split; [|split]].
    + intros rate. split.
      * intros [= <-]. exists failed. auto.
      * intros (failed' & Hf' & _). rewrite Hf in Hf'.
        apply app_inj_tail in Hf' as [_ ->]. reflexivity.
    + split.
      * intros (msg & C). discriminate.
      * intros Hno. exfalso.
        assert (I : In r RATES).
        { rewrite Hrest, Hf. apply in_or_app. left. apply in_or_app. right.
          left. reflexivity. }
        rewrite Forall_forall in Hno. rewrite (Hno r I) in Ho. discriminate.
    + intros Hno. exfalso.
      assert (I : In r RATES).
      { rewrite Hrest, Hf. apply in_or_app. left. apply in_or_app. right.
        left. reflexivity. }
      rewrite Forall_forall in Hno. rewrite (Hno r I) in Ho. discriminate.
    + intros rate [= <-]. reflexivity.
  - destruct Hspec as [Ht Hall]. subst tried.
    split; [|split; [|split]].
    + intros rate. split; [discriminate|].
      intros (failed & Hf & Ho & _). exfalso.
      assert (I : In rate RATES).
      { rewrite Hf. apply in_or_app. right. left. reflexivity. }
      rewrite Forall_forall in Hall. rewrite (Hall rate I) in Ho. discriminate.
    + split; [intros _; assumption | intros _; eexists; reflexivity].
    + intros _. eexists. eexists. reflexivity.
    + intros rate C. discriminate.
Qed.
End ListenerFacts.

Lemma start_tries_rates_in_order_witness :
  let opens := fun r => (r =? 44100)%N in
  Forall (fun r => (fun _ => false) r = false) RATES
  /\ start opens = ([16000; 44100]%N, Started 44100)
  /\ (exists msg hint,
        main_startup (fun _ => false)
        = (RATES, Exited [(txt "Error: " ++ msg)%list; hint])).
Proof.
  cbv zeta.
  assert (H : Forall (fun r : N => (fun _ : N => false) r = false) RATES)
    by (repeat constructor).
  split; [exact H|]. split; [vm_compute; reflexivity|].
  exact (proj1 (proj2 (proj2 (proj2 (proj2
           (start_tries_rates_in_order (fun _ => false)))))) H).
Defined.

(** ** White space *)

Lemma sub_from_skip (p : pattern) (repl x y : text) :
  forall prev,
    sub_from p repl (length x) prev (x ++ y)
    = sub_from p repl 0 (last_from prev x) y.
Proof.
  induction x as [|c x IH]; intros prev; simpl.
  - destruct y; reflexivity.
  - apply IH.
Qed.

Lemma lstrip_split (t : text) :
  exists run, t = run ++ lstrip t /\ forallb is_space run = true.
Proof.
  induction t as [|c t IH]; simpl.
  - exists []. auto.
  - destruct (is_space c) eqn:E.
    + destruct IH as (run & Ht & Hr). exists (c :: run). simpl.
      rewrite E, Hr. split; [congruence | reflexivity].
    + exists []. auto.
Qed.

Lemma lstrip_length (t : text) : length (lstrip t) <= length t.
Proof.
  destruct (lstrip_split t) as (run & Ht & _).
  rewrite Ht at 2. rewrite length_app. lia.
Qed.

Lemma lstrip_no_space (t : text) : starts_with_space (lstrip t) = false.
Proof.
  induction t as [|c t IH]; simpl; [reflexivity|].
  destruct (is_space c) eqn:E; [assumption | simpl; assumption].
Qed.

Lemma squeeze_run (run t : text) :
  forallb is_space run = true -> squeeze true (run ++ t) = squeeze true t.
Proof.
  induction run as [|c run IH]; simpl; [reflexivity|].
  intros H. apply andb_true_iff in H as [H1 H2]. rewrite H1. auto.
Qed.

Lemma squeeze_flag (b : bool) (t : text) :
  starts_with_space t = false -> squeeze b t = squeeze false t.
Proof.
  destruct t as [|c t]; simpl; [reflexivity|]. intros ->. reflexivity.
Qed.

(** The substitution of [\s+] by one space is [squeeze]. *)
Lemma collapse_spaces_squeeze (t : text) : collapse_spaces t = squeeze false t.
Proof.
  unfold collapse_spaces, re_sub. generalize (@None ascii).
  remember (length t) as n eqn:Hn.
  assert (Hle : length t <= n) by lia. clear Hn. revert t Hle.
  induction n as [|n IH]; intros t Hle prev.
  - destruct t; [reflexivity | simpl in Hle; lia].
  - destruct t as [|c t]; [reflexivity|]. simpl in Hle.
    cbn [sub_from squeeze pat_spaces]. destruct (is_space c) eqn:E.
    + destruct (lstrip_split t) as (run & Ht & Hr).
      cbn [lstrip]. rewrite E.
      assert (L : length (c :: t) - length (lstrip t) = S (length run)).
      { simpl length. rewrite Ht at 1. rewrite length_app.
        pose proof (lstrip_length t). lia. }
      rewrite L. rewrite Ht at 1. rewrite sub_from_skip.
      rewrite IH by (pose proof (lstrip_length t); lia).
      rewrite Ht at 2. rewrite squeeze_run by assumption.
      rewrite (squeeze_flag true) by apply lstrip_no_space.
      reflexivity.
    + rewrite IH by lia. reflexivity.
Qed.

Lemma squeeze_spaced (b : bool) (t : text) : spaced b (squeeze b t) = true.
Proof.
  revert b. induction t as [|c t IH]; intros b; simpl; [reflexivity|].
  destruct (is_space c) eqn:E.
  - destruct b; [apply IH|]. simpl. apply IH.
  - simpl. rewrite E. apply IH.
Qed.

Lemma spaced_weaken (b : bool) (t : text) : spaced b t = true -> spaced false t = true.
Proof.
  destruct t as [|c t]; simpl; [reflexivity|].
  destruct (is_space c); [|auto].
  rewrite !andb_true_iff. intros [[H1 _] H2]. auto.
Qed.

Lemma spaced_fixed (t : text) : spaced false t = true -> squeeze false t = t.
Proof.
  assert (G : forall b, spaced b t = true -> squeeze false t = t).
  { induction t as [|c t IH]; intros b; simpl; [reflexivity|].
    destruct (is_space c) eqn:E.
    - rewrite !andb_true_iff. intros [[H1 _] H2].
      apply Ascii.eqb_eq in H1. subst c. f_equal.
      rewrite squeeze_flag; [apply (IH true H2)|].
      destruct t as [|d t]; [reflexivity|].
      simpl in H2 |- *. destruct (is_space d); [|reflexivity].
      rewrite !andb_true_iff in H2. destruct H2 as [[_ C] _]. discriminate.
    - intros H. f_equal. apply (IH false). assumption. }
  apply G.
Qed.

Lemma lstrip_spaced (b : bool) (t : text) :
  spaced b t = true -> spaced false (lstrip t) = true.
Proof.
  revert b. induction t as [|c t IH]; intros b; simpl; [reflexivity|].
  destruct (is_space c) eqn:E.
  - rewrite !andb_true_iff. intros [_ H]. eapply IH; eassumption.
  - intros H. simpl. rewrite E. assumption.
Qed.

Lemma rstrip_cons (c : ascii) (t : text) :
  is_space c = false -> rstrip (c :: t) = c :: rstrip t.
Proof. intros E. simpl. rewrite E. destruct (rstrip t); reflexivity. Qed.

Lemma spaced_cons (b : bool) (c : ascii) (t : text) :
  spaced b (c :: t)
  = if is_space c then Ascii.eqb c " "%char && negb b && spaced true t
    else spaced false t.
Proof. reflexivity. Qed.

Lemma rstrip_spaced (b : bool) (t : text) :
  spaced b t = true -> spaced b (rstrip t) = true.
Proof.
  revert b. induction t as [|c t IH]; intros b; [reflexivity|].
  rewrite spaced_cons. destruct (is_space c) eqn:E.
  - rewrite !andb_true_iff. intros [[H1 H2] H3].
    cbn [rstrip]. rewrite E.
    destruct (rstrip t) as [|d r] eqn:R; [reflexivity|].
    rewrite spaced_cons, E, H1, H2. apply (IH true H3).
  - intros H. rewrite rstrip_cons by assumption. rewrite spaced_cons, E.
    apply IH. assumption.
Qed.

Lemma lstrip_fixed (t : text) : starts_with_space t = false -> lstrip t = t.
Proof. destruct t as [|c t]; simpl; [reflexivity|]. intros ->. reflexivity. Qed.

Lemma rstrip_no_space (t : text) :
  starts_with_space t = false -> starts_with_space (rstrip t) = false.
Proof.
  destruct t as [|c t]; [reflexivity|]. simpl. intros E. rewrite E.
  destruct (rstrip t); simpl; assumption.
Qed.

Lemma rstrip_idem (t : text) : rstrip (rstrip t) = rstrip t.
Proof.
  induction t as [|c t IH]; [reflexivity|].
  cbn [rstrip]. destruct (rstrip t) as [|d r] eqn:R.
  - destruct (is_space c) eqn:E; [reflexivity|]. simpl. rewrite E. reflexivity.
  - cbn [rstrip]. cbn [rstrip] in IH. rewrite <- R in *. rewrite IH.
    rewrite R. reflexivity.
Qed.

Lemma strip_idem (t : text) : strip (strip t) = strip t.
Proof.
  unfold strip.
  rewrite (lstrip_fixed (rstrip (lstrip t)))
    by (apply rstrip_no_space, lstrip_no_space).
  apply rstrip_idem.
Qed.

(** A text that was collapsed and stripped is left alone by both. *)
Lemma strip_collapse_fixed (t : text) :
  let u := strip (collapse_spaces t) in
  strip u = u /\ collapse_spaces u = u.
Proof.
  cbv zeta. split; [apply strip_idem|].
  rewrite (collapse_spaces_squeeze (strip _)). apply spaced_fixed.
  unfold strip. apply rstrip_spaced. eapply lstrip_spaced.
  rewrite collapse_spaces_squeeze. apply squeeze_spaced.
Qed.

(** ** The order and the reach of the confusion corrections *)

Lemma insert_by_len_perm (k : text) (l : list text) :
  Permutation (insert_by_len k l) (k :: l).
Proof.
  induction l as [|k' l IH]; simpl; [reflexivity|].
  destruct (length k' <=? length k); [reflexivity|].
  rewrite IH. apply perm_swap.
Qed.

Lemma longest_first_perm (ks : list text) : Permutation (longest_first ks) ks.
Proof.
  induction ks as [|k ks IH]; simpl; [reflexivity|].
  rewrite insert_by_len_perm. apply perm_skip. assumption.
Qed.

Lemma insert_by_len_sorted (k : text) (l : list text) :
  StronglySorted not_shorter l -> StronglySorted not_shorter (insert_by_len k l).
Proof.
  induction l as [|k' l IH]; intros S; simpl.
  - repeat constructor.
  - inversion S as [|? ? S' F]; subst.
    destruct (Nat.leb_spec (length k') (length k)) as [L|L].
    + constructor; [assumption|]. constructor; [exact L|].
      eapply Forall_impl; [|exact F]. unfold not_shorter. intros; lia.
    + constructor; [apply IH; assumption|].
      eapply Permutation_Forall; [symmetry; apply insert_by_len_perm|].
      constructor; [unfold not_shorter; lia | assumption].
Qed.

Lemma longest_first_sorted (ks : list text) :
  StronglySorted not_shorter (longest_first ks).
Proof.
  induction ks as [|k ks IH]; simpl; [constructor|].
  apply insert_by_len_sorted. assumption.
Qed.

Lemma strip_prefix_app (k t rest : text) :
  strip_prefix k t = Some rest <-> t = k ++ rest.
Proof.
  revert t. induction k as [|c k IH]; intros t; simpl.
  - split; [intros [= ->]; reflexivity | intros ->; reflexivity].
  - destruct t as [|d t]; [split; discriminate|].
    destruct (Ascii.eqb_spec c d) as [->|Ne].
    + rewrite IH. split; [intros ->; reflexivity | intros [= ->]; reflexivity].
    + split; [discriminate | intros [= E _]; congruence].
Qed.

Lemma last_from_app (prev : option ascii) (x : text) (c : ascii) :
  last_from prev (x ++ [c]) = Some c.
Proof. revert prev. induction x as [|d x IH]; intros prev; simpl; auto. Qed.

Lemma pat_word_occurs (k pre suf : text) (n : nat) :
  pat_word k (last_from None pre) suf = Some n ->
  occurs_as_word k (pre ++ suf).
Proof.
  unfold pat_word.
  destruct (strip_prefix k suf) as [rest|] eqn:P; [|discriminate].
  apply strip_prefix_app in P. subst suf.
  destruct (word_boundary (last_from None pre) (hd_error k)
            && word_boundary (last_char k) (hd_error rest)) eqn:B; [|discriminate].
  intros _. apply andb_true_iff in B as [B1 B2].
  exists pre, rest. split; [reflexivity | split; assumption].
Qed.

(** Where a key does not occur as a whole word, its substitution changes
    nothing. *)
Lemma re_sub_word_unchanged (k v t : text) :
  ~ occurs_as_word k t -> re_sub (pat_word k) v t = t.
Proof.
  intros No. unfold re_sub.
  assert (G : forall suf pre, t = pre ++ suf ->
                sub_from (pat_word k) v 0 (last_from None pre) suf = suf).
  { induction suf as [|c suf IH]; intros pre E; [reflexivity|].
    cbn [sub_from].
    assert (R : sub_from (pat_word k) v 0 (Some c) suf = suf).
    { rewrite <- (last_from_app None pre c). apply IH.
      rewrite E, <- app_assoc. reflexivity. }
    destruct (pat_word k (last_from None pre) (c :: suf)) as [[|n]|] eqn:M;
      try (rewrite R; reflexivity).
    exfalso. apply No. rewrite E. eapply pat_word_occurs. exact M. }
  apply (G t []). reflexivity.
Qed.

(** C6.  The keys of the confusion table are taken in an order that is a
    rearrangement of the table's keys with no key before a longer one;
    each key is replaced only where it occurs as a whole word; white space
    is collapsed and stripped after all the substitutions.  With the table
    "open google" -> "open chrome", "google" -> "search", in either order
    of entry, the longer key goes first and "open google drive" becomes
    "open chrome drive", not the mixed "open search drive". *)
Theorem apply_confusions_longest_first :
  (forall table : dict text,
     Permutation (longest_first (keys table)) (keys table)
     /\ StronglySorted not_shorter (longest_first (keys table)))
  /\ (forall (table : dict text) t,
        apply_confusions table t
        = strip (collapse_spaces
                   (fold_left (fun t k => re_sub (pat_word k) (item table k) t)
                              (longest_first (keys table)) t)))
  /\ (forall k v t, ~ occurs_as_word k t -> re_sub (pat_word k) v t = t)
  /\ (forall (table : dict text) t,
        strip (apply_confusions table t) = apply_confusions table t
        /\ collapse_spaces (apply_confusions table t) = apply_confusions table t)
  /\ (forall table,
        table = [(txt "open google", txt "open chrome"); (txt "google", txt "search")]
        \/ table = [(txt "google", txt "search"); (txt "open google", txt "open chrome")] ->
        longest_first (keys table) = [txt "open google"; txt "google"]
        /\ apply_confusions table (txt "open google drive") = txt "open chrome drive"
        /\ apply_confusions table (txt "open google drive") <> txt "open search drive").
Proof.
  split; [|split; [|split; [|split]]].
  - intros table. split; [apply longest_first_perm | apply longest_first_sorted].
  - reflexivity.
  - apply re_sub_word_unchanged.
  - intros table t. unfold apply_confusions. apply strip_collapse_fixed.
  - intros table [-> | ->]; repeat split; try (vm_compute; reflexivity);
      vm_compute; discriminate.
Qed.

Lemma apply_confusions_longest_first_witness :
  ~ occurs_as_word (txt "rome") (txt "chrome")
  /\ re_sub (pat_word (txt "rome")) (txt "chrome") (txt "chrome") = txt "chrome"
  /\ apply_confusions
       [(txt "google", txt "search"); (txt "open google", txt "open chrome")]
       (txt "open google drive") = txt "open chrome drive".
Proof.
  assert (No : ~ occurs_as_word (txt "rome") (txt "chrome")).
  { intros (pre & rest & E & B1 & B2).
    do 7 (destruct pre as [|? pre];
          [simpl in E; try discriminate;
           try (injection E as -> ; subst; vm_compute in B1; discriminate)
          | simpl in E; try discriminate; injection E as <- E]). }
  split; [exact No|]. split.
  - exact (proj1 (proj2 (proj2 apply_confusions_longest_first)) _ _ _ No).
  - exact (proj1 (proj2 (proj2 (proj2 (proj2 (proj2 apply_confusions_longest_first)))
                          _ (or_intror eq_refl)))).
Defined.

(** ** Texts as words and separators *)

Lemma flat_cons_seg (c : ascii) (l : list seg) : flat (cons_seg c l) = c :: flat l.
Proof.
  unfold cons_seg. destruct (is_word c); [|reflexivity].
  destruct l as [|[w|d] l]; reflexivity.
Qed.

Lemma flat_parse (t : text) : flat (parse t) = t.
Proof.
  induction t as [|c t IH]; [reflexivity|].
  simpl. rewrite flat_cons_seg, IH. reflexivity.
Qed.

Lemma wf_cons_seg (c : ascii) (l : list seg) :
  wf l = true -> wf (cons_seg c l) = true.
Proof.
  unfold cons_seg. destruct (is_word c) eqn:E.
  - destruct l as [|[w|d] l]; simpl; try (rewrite E; simpl; tauto).
    destruct w as [|x w]; [discriminate|]. cbn [is_wordb forallb]. rewrite E.
    simpl. tauto.
  - simpl. rewrite E. simpl. tauto.
Qed.

Lemma wf_parse (t : text) : wf (parse t) = true.
Proof.
  induction t as [|c t IH]; [reflexivity|]. simpl. apply wf_cons_seg, IH.
Qed.

Lemma parse_word_app (w x : text) :
  forallb is_word w = true -> w <> [] -> starts_with_word (parse x) = false ->
  parse (w ++ x) = W w :: parse x.
Proof.
  induction w as [|c w IH]; intros Hw Ne Hx; [contradiction|].
  simpl in Hw. apply andb_true_iff in Hw as [Hc Hw].
  simpl. unfold cons_seg. rewrite Hc.
  destruct w as [|d w].
  - simpl. destruct (parse x) as [|[u|e] l]; try reflexivity. discriminate.
  - rewrite IH by (try assumption; discriminate). reflexivity.
Qed.

Lemma wf_tail (s : seg) (l : list seg) : wf (s :: l) = true -> wf l = true.
Proof.
  destruct s; simpl; rewrite ?andb_true_iff; tauto.
Qed.

Lemma parse_flat (l : list seg) : wf l = true -> parse (flat l) = l.
Proof.
  induction l as [|[w|c] l IH]; intros H; [reflexivity| |].
  - pose proof (wf_tail _ _ H) as Hl. specialize (IH Hl).
    simpl in H. rewrite !andb_true_iff in H. destruct H as [[Hw Hs] _].
    change (flat (W w :: l)) with (w ++ flat l).
    rewrite parse_word_app, IH.
    + reflexivity.
    + destruct w; [discriminate | exact Hw].
    + destruct w; [discriminate | discriminate].
    + rewrite IH. apply negb_true_iff. exact Hs.
  - pose proof (wf_tail _ _ H) as Hl. specialize (IH Hl).
    simpl in H. rewrite andb_true_iff in H. destruct H as [Hc _].
    change (flat (P c :: l)) with (c :: flat l). simpl. rewrite IH.
    unfold cons_seg. apply negb_true_iff in Hc. rewrite Hc. reflexivity.
Qed.

Lemma flat_with_on_word (f : text -> text) (l : list seg) :
  flat_with f l = flat (map (on_word f) l).
Proof.
  induction l as [|[w|c] l IH]; simpl; [reflexivity| |];
    unfold flat, flat_with in *; simpl; rewrite IH; reflexivity.
Qed.

Lemma wf_on_word (f : text -> text) (l : list seg) :
  (forall w, is_wordb w = true -> is_wordb (f w) = true) ->
  wf l = true -> wf (map (on_word f) l) = true.
Proof.
  intros Hf. induction l as [|[w|c] l IH]; simpl; [reflexivity| |].
  - rewrite !andb_true_iff. intros [[Hw Hs] Hl]. repeat split; auto.
    destruct l as [|[u|d] l]; simpl in *; auto.
  - rewrite !andb_true_iff. intros [Hc Hl]. auto.
Qed.

(** *** The substitution of a one-word key, word by word *)

Section WordKey.
Variables k v : text.
Hypothesis Hk : is_wordb k = true.

Lemma key_all_word : forallb is_word k = true.
Proof. destruct k; [discriminate | exact Hk]. Qed.

Lemma key_head_word : is_word_opt (hd_error k) = true.
Proof.
  destruct k as [|c k']; [discriminate|]. simpl in *.
  apply andb_true_iff in Hk. tauto.
Qed.

Lemma key_last_word : is_word_opt (last_char k) = true.
Proof.
  unfold last_char. pose proof key_all_word as A.
  destruct (rev k) as [|c r] eqn:R.
  - apply (f_equal (@rev ascii)) in R. rewrite rev_involutive in R. simpl in R.
    rewrite R in Hk. discriminate.
  - simpl. rewrite forallb_forall in A. apply A. apply in_rev. rewrite R.
    left. reflexivity.
Qed.

Lemma pat_word_inside (prev : option ascii) (t : text) :
  is_word_opt prev = true -> pat_word k prev t = None.
Proof.
  intros H. unfold pat_word. destruct (strip_prefix k t); [|reflexivity].
  unfold word_boundary at 1. rewrite H, key_head_word. reflexivity.
Qed.

Lemma pat_word_nonword (prev : option ascii) (c : ascii) (t : text) :
  is_word c = false -> pat_word k prev (c :: t) = None.
Proof.
  intros H. unfold pat_word.
  destruct (strip_prefix k (c :: t)) as [rest|] eqn:S; [|reflexivity].
  apply strip_prefix_app in S. pose proof key_head_word as Hh.
  destruct k as [|d k']; [discriminate|]. simpl in S, Hh.
  injection S as -> _. congruence.
Qed.

Lemma sub_inside (w x : text) :
  forall prev,
    forallb is_word w = true -> is_word_opt prev = true ->
    sub_from (pat_word k) v 0 prev (w ++ x)
    = w ++ sub_from (pat_word k) v 0 (last_from prev w) x.
Proof.
  induction w as [|c w IH]; intros prev Hw Hp; [reflexivity|].
  simpl in Hw. apply andb_true_iff in Hw as [Hc Hw].
  cbn [app sub_from]. rewrite pat_word_inside by assumption.
  rewrite IH by assumption. reflexivity.
Qed.

Lemma word_run_unique (w x u rest : text) :
  forallb is_word w = true -> forallb is_word u = true ->
  is_word_opt (hd_error x) = false -> is_word_opt (hd_error rest) = false ->
  w ++ x = u ++ rest -> w = u.
Proof.
  revert u. induction w as [|c w IH]; intros u Hw Hu Hx Hr E.
  - destruct u as [|d u]; [reflexivity|]. simpl in *. subst x. simpl in Hx.
    apply andb_true_iff in Hu. destruct Hu. congruence.
  - destruct u as [|d u].
    + simpl in *. subst rest. simpl in Hr.
      apply andb_true_iff in Hw. destruct Hw. congruence.
    + simpl in *. injection E as -> E.
      apply andb_true_iff in Hw as [_ Hw]. apply andb_true_iff in Hu as [_ Hu].
      f_equal. eapply IH; eassumption.
Qed.

Lemma pat_word_at_word (prev : option ascii) (w x : text) :
  is_word_opt prev = false -> is_wordb w = true ->
  is_word_opt (hd_error x) = false ->
  pat_word k prev (w ++ x) = if text_eqb w k then Some (length k) else None.
Proof.
  intros Hp Hw Hx. unfold pat_word.
  destruct (text_eqb w k) eqn:E.
  - apply text_eqb_eq in E. subst w.
    rewrite (proj2 (strip_prefix_app k (k ++ x) x) eq_refl).
    unfold word_boundary. rewrite Hp, key_head_word, key_last_word, Hx.
    reflexivity.
  - destruct (strip_prefix k (w ++ x)) as [rest|] eqn:S; [|reflexivity].
    apply strip_prefix_app in S.
    destruct (word_boundary (last_char k) (hd_error rest)) eqn:B;
      [|rewrite andb_false_r; reflexivity].
    unfold word_boundary in B. rewrite key_last_word in B.
    exfalso.
    assert (w = k).
    { apply (word_run_unique w x k rest).
      - destruct w; [discriminate | exact Hw].
      - apply key_all_word.
      - exact Hx.
      - destruct (is_word_opt (hd_error rest)); [discriminate | reflexivity].
      - exact S. }
    subst w. rewrite text_eqb_refl in E. discriminate.
Qed.

Lemma flat_head (l : list seg) :
  wf l = true -> starts_with_word l = false ->
  is_word_opt (hd_error (flat l)) = false.
Proof.
  destruct l as [|[w|c] l]; simpl; try reflexivity; try discriminate.
  rewrite andb_true_iff. intros [H _] _. apply negb_true_iff. exact H.
Qed.

(** On a well-formed list of segments the substitution replaces the
    words that equal the key and nothing else. *)
Lemma sub_word_flat (l : list seg) :
  forall prev,
    wf l = true ->
    (starts_with_word l = true -> is_word_opt prev = false) ->
    sub_from (pat_word k) v 0 prev (flat l)
    = flat_with (fun w => if text_eqb w k then v else w) l.
Proof.
  set (f := fun w : text => if text_eqb w k then v else w).
  induction l as [|[w|c] l IH]; intros prev Hwf Hp; [reflexivity| |].
  - pose proof (wf_tail _ _ Hwf) as Hl.
    simpl in Hwf. rewrite !andb_true_iff in Hwf. destruct Hwf as [[Hw Hs] _].
    apply negb_true_iff in Hs. specialize (Hp eq_refl).
    pose proof (flat_head l Hl Hs) as Hx.
    change (flat (W w :: l)) with (w ++ flat l).
    change (flat_with f (W w :: l)) with (f w ++ flat_with f l).
    pose proof (pat_word_at_word prev w (flat l) Hp Hw Hx) as M.
    destruct w as [|c w]; [discriminate|].
    cbn [app sub_from]. cbn [app] in M. rewrite M. unfold f.
    destruct (text_eqb (c :: w) k) eqn:E.
    + apply text_eqb_eq in E.
      replace (length k) with (S (length w)) by (rewrite <- E; reflexivity).
      rewrite sub_from_skip. rewrite IH; [reflexivity | assumption |].
      rewrite Hs. discriminate.
    + simpl in Hw. apply andb_true_iff in Hw as [Hc Hw'].
      rewrite sub_inside by assumption.
      rewrite IH; [reflexivity | assumption |].
      rewrite Hs. discriminate.
  - pose proof (wf_tail _ _ Hwf) as Hl.
    simpl in Hwf. rewrite andb_true_iff in Hwf. destruct Hwf as [Hc _].
    apply negb_true_iff in Hc.
    change (flat (P c :: l)) with (c :: flat l).
    change (flat_with f (P c :: l)) with (c :: flat_with f l).
    cbn [sub_from]. rewrite pat_word_nonword by assumption.
    rewrite IH; [reflexivity | assumption |]. intros _. exact Hc.
Qed.

Lemma re_sub_word_flat (l : list seg) :
  wf l = true ->
  re_sub (pat_word k) v (flat l)
  = flat (map (on_word (fun w => if text_eqb w k then v else w)) l).
Proof.
  intros H. unfold re_sub. rewrite sub_word_flat by (auto; reflexivity).
  apply flat_with_on_word.
Qed.
End WordKey.

(** *** White space on segments *)

Lemma space_not_word (c : ascii) : is_space c = true -> is_word c = false.
Proof.
  destruct c as [[] [] [] [] [] [] [] []]; vm_compute; intros H;
    first [reflexivity | discriminate].
Qed.

Lemma cons_seg_nonword (c : ascii) (l : list seg) :
  is_word c = false -> cons_seg c l = P c :: l.
Proof. unfold cons_seg. intros ->. reflexivity. Qed.

Lemma squeeze_segs_cons_seg (b : bool) (c : ascii) (l : list seg) :
  is_space c = false ->
  squeeze_segs b (cons_seg c l) = cons_seg c (squeeze_segs false l).
Proof.
  intros E. unfold cons_seg. destruct (is_word c).
  - destruct l as [|[w|d] l]; simpl; try reflexivity.
    destruct (is_space d); reflexivity.
  - simpl. rewrite E. reflexivity.
Qed.

Lemma parse_squeeze (t : text) :
  forall b, parse (squeeze b t) = squeeze_segs b (parse t).
Proof.
  induction t as [|c t IH]; intros b; [reflexivity|].
  simpl. destruct (is_space c) eqn:E.
  - rewrite (cons_seg_nonword _ _ (space_not_word _ E)). simpl. rewrite E.
    destruct b; [apply IH|]. simpl. rewrite IH. reflexivity.
  - simpl. rewrite IH. symmetry. apply squeeze_segs_cons_seg. assumption.
Qed.

Lemma lstrip_segs_cons_seg (c : ascii) (l : list seg) :
  is_space c = false -> lstrip_segs (cons_seg c l) = cons_seg c l.
Proof.
  intros E. unfold cons_seg. destruct (is_word c).
  - destruct l as [|[w|d] l]; reflexivity.
  - simpl. rewrite E. reflexivity.
Qed.

Lemma parse_lstrip (t : text) : parse (lstrip t) = lstrip_segs (parse t).
Proof.
  induction t as [|c t IH]; [reflexivity|].
  simpl. destruct (is_space c) eqn:E.
  - rewrite (cons_seg_nonword _ _ (space_not_word _ E)). simpl. rewrite E.
    assumption.
  - rewrite lstrip_segs_cons_seg by assumption. reflexivity.
Qed.

Lemma rstrip_segs_cons_seg (c : ascii) (l : list seg) :
  is_space c = false ->
  rstrip_segs (cons_seg c l) = cons_seg c (rstrip_segs l).
Proof.
  intros E. unfold cons_seg. destruct (is_word c).
  - destruct l as [|[w|d] l]; try reflexivity.
    + cbn [rstrip_segs]. destruct (rstrip_segs l); reflexivity.
    + cbn [rstrip_segs is_space_seg].
      destruct (rstrip_segs l); [destruct (is_space d)|]; reflexivity.
  - cbn [rstrip_segs is_space_seg]. rewrite E.
    destruct (rstrip_segs l); reflexivity.
Qed.

Lemma cons_seg_not_nil (c : ascii) (l : list seg) : cons_seg c l <> [].
Proof.
  unfold cons_seg. destruct (is_word c); [|discriminate].
  destruct l as [|[w|d] l]; discriminate.
Qed.

Lemma parse_rstrip (t : text) : parse (rstrip t) = rstrip_segs (parse t).
Proof.
  induction t as [|c t IH]; [reflexivity|].
  destruct (is_space c) eqn:E.
  - cbn [parse]. rewrite (cons_seg_nonword _ _ (space_not_word _ E)).
    cbn [rstrip rstrip_segs is_space_seg]. rewrite E, <- IH.
    destruct (rstrip t) as [|d r]; [reflexivity|].
    cbn [parse]. rewrite (cons_seg_nonword c _ (space_not_word _ E)).
    destruct (cons_seg d (parse r)) eqn:C; [|reflexivity].
    exfalso. eapply cons_seg_not_nil. eassumption.
  - rewrite rstrip_cons by assumption. cbn [parse].
    rewrite rstrip_segs_cons_seg by assumption. rewrite IH. reflexivity.
Qed.

Lemma squeeze_segs_words (l : list seg) :
  forall b w, In (W w) (squeeze_segs b l) -> In (W w) l.
Proof.
  induction l as [|s l IH]; intros b w; simpl; [tauto|].
  destruct (is_space_seg s).
  - destruct b; simpl; intros H; [eauto|].
    destruct H as [H|H]; [discriminate | eauto].
  - simpl. intros [H|H]; eauto.
Qed.

Lemma lstrip_segs_words (l : list seg) (w : text) :
  In (W w) (lstrip_segs l) -> In (W w) l.
Proof.
  induction l as [|s l IH]; simpl; [tauto|].
  destruct (is_space_seg s); [auto | simpl; tauto].
Qed.

Lemma rstrip_segs_words (l : list seg) (w : text) :
  In (W w) (rstrip_segs l) -> In (W w) l.
Proof.
  induction l as [|s l IH]; simpl; [tauto|].
  destruct (rstrip_segs l) as [|s' r].
  - destruct (is_space_seg s); simpl; tauto.
  - simpl. simpl in IH. tauto.
Qed.

(** *** The corrections, word by word *)

Section Table.
Variable table : dict text.

Lemma correct_word_fix (ks : list text) (w : text) :
  (forall k, In k ks -> w <> k) -> correct_word table ks w = w.
Proof.
  revert w. induction ks as [|k ks IH]; intros w H; [reflexivity|].
  unfold correct_word. simpl.
  destruct (text_eqb w k) eqn:E.
  - apply text_eqb_eq in E. exfalso. apply (H k); [left; reflexivity | assumption].
  - apply IH. intros k' Hk'. apply H. right. assumption.
Qed.

Lemma correct_word_result (ks : list text) :
  (forall k, In k ks -> ~ In (item table k) ks) ->
  forall w, correct_word table ks w = w
            \/ exists k, In k ks /\ correct_word table ks w = item table k.
Proof.
  induction ks as [|k ks IH]; intros H w; [left; reflexivity|].
  unfold correct_word. simpl. destruct (text_eqb w k) eqn:E.
  - right. exists k. split; [left; reflexivity|].
    apply correct_word_fix. intros k' Hk' C.
    apply (H k); [left; reflexivity|]. right. rewrite C. assumption.
  - destruct (IH (fun k' Hk' C => H k' (or_intror Hk') (or_intror C)) w)
      as [F|(k' & Hk' & F)].
    + left. exact F.
    + right. exists k'. split; [right; assumption | exact F].
Qed.

Lemma substitute_keys_flat (ks : list text) :
  (forall k, In k ks -> is_wordb k = true /\ is_wordb (item table k) = true) ->
  forall l, wf l = true ->
    fold_left (fun t k => re_sub (pat_word k) (item table k) t) ks (flat l)
    = flat (map (on_word (correct_word table ks)) l).
Proof.
  induction ks as [|k ks IH]; intros H l Hl.
  - simpl. f_equal. rewrite <- (map_id l) at 1. apply map_ext.
    intros [w|c]; reflexivity.
  - destruct (H k (or_introl eq_refl)) as [Hk Hv].
    cbn [fold_left]. rewrite re_sub_word_flat by assumption.
    rewrite IH.
    + rewrite map_map. f_equal. apply map_ext. intros [w|c]; reflexivity.
    + intros k' Hk'. apply H. right. assumption.
    + apply wf_on_word; [|assumption].
      intros w Hw. destruct (text_eqb w k); assumption.
Qed.

Lemma lookup_in (k : text) :
  In k (keys table) -> exists v, lookup table k = Some v /\ In (k, v) table.
Proof.
  unfold keys. induction table as [|[k' v'] d IH]; simpl; [tauto|].
  intros H. destruct (text_eqb k k') eqn:E.
  - apply text_eqb_eq in E. subst k'. exists v'. auto.
  - destruct H as [H|H].
    + subst k'. rewrite text_eqb_refl in E. discriminate.
    + destruct (IH H) as (v & L & I). exists v. auto.
Qed.

Hypothesis Hwords : single_words table = true.
Hypothesis Hfinal : corrections_final table = true.

Lemma key_and_item_words (k : text) :
  In k (longest_first (keys table)) ->
  is_wordb k = true /\ is_wordb (item table k) = true.
Proof.
  intros H. apply (Permutation_in _ (longest_first_perm (keys table))) in H.
  destruct (lookup_in k H) as (v & L & I).
  unfold item, get_default. rewrite L.
  unfold single_words in Hwords. rewrite forallb_forall in Hwords.
  specialize (Hwords _ I). simpl in Hwords. apply andb_true_iff in Hwords.
  exact Hwords.
Qed.

Lemma item_not_key (k : text) :
  In k (longest_first (keys table)) ->
  ~ In (item table k) (longest_first (keys table)).
Proof.
  intros H C.
  apply (Permutation_in _ (longest_first_perm (keys table))) in H.
  apply (Permutation_in _ (longest_first_perm (keys table))) in C.
  destruct (lookup_in k H) as (v & L & I).
  unfold item, get_default in C. rewrite L in C.
  unfold corrections_final in Hfinal. rewrite forallb_forall in Hfinal.
  specialize (Hfinal _ I). simpl in Hfinal. apply negb_true_iff in Hfinal.
  apply mem_In in C. congruence.
Qed.

Lemma correct_word_idem (w : text) :
  let F := correct_word table (longest_first (keys table)) in
  F (F w) = F w.
Proof.
  cbv zeta.
  destruct (correct_word_result (longest_first (keys table)) item_not_key w)
    as [E|(k & Hk & E)]; rewrite E.
  - exact E.
  - apply correct_word_fix. intros k' Hk' C.
    apply (item_not_key k Hk). rewrite C. assumption.
Qed.

Lemma substitute_all_flat (l : list seg) :
  wf l = true ->
  substitute_all table (flat l)
  = flat (map (on_word (correct_word table (longest_first (keys table)))) l).
Proof.
  intros H. unfold substitute_all.
  apply substitute_keys_flat; [|assumption].
  intros k Hk. apply key_and_item_words. assumption.
Qed.

Lemma map_on_word_fixed (F : text -> text) (l : list seg) :
  (forall w, In (W w) l -> F w = w) -> map (on_word F) l = l.
Proof.
  induction l as [|[w|c] l IH]; intros H; [reflexivity| |]; simpl.
  - rewrite (H w) by (left; reflexivity). f_equal. apply IH.
    intros w' Hw'. apply H. right. assumption.
  - f_equal. apply IH. intros w' Hw'. apply H. right. assumption.
Qed.

(** C3, as the code has it.  For a confusion table whose keys and
    corrections are single words and none of whose corrections is a key,
    as the table of [mainv4.py] is, correcting twice gives what correcting
    once gives. *)
Theorem apply_confusions_idempotent_on_final_words (t : text) :
  apply_confusions table (apply_confusions table t) = apply_confusions table t.
Proof.
  set (F := correct_word table (longest_first (keys table))).
  set (L := map (on_word F) (parse t)).
  assert (HL : wf L = true).
  { apply wf_on_word; [|apply wf_parse].
    intros w Hw.
    destruct (correct_word_result (longest_first (keys table)) item_not_key w)
      as [E|(k & Hk & E)]; unfold F; rewrite E; [assumption|].
    apply key_and_item_words. assumption. }
  assert (Es : substitute_all table t = flat L).
  { rewrite <- (flat_parse t) at 1. apply substitute_all_flat, wf_parse. }
  set (u := apply_confusions table t).
  assert (Eu : parse u = rstrip_segs (lstrip_segs (squeeze_segs false L))).
  { unfold u, apply_confusions, strip. rewrite Es, collapse_spaces_squeeze.
    rewrite parse_rstrip, parse_lstrip, parse_squeeze, parse_flat by assumption.
    reflexivity. }
  assert (Su : substitute_all table u = u).
  { rewrite <- (flat_parse u) at 1.
    rewrite substitute_all_flat by apply wf_parse.
    fold F. rewrite map_on_word_fixed; [apply flat_parse|].
    intros w Hw. rewrite Eu in Hw.
    apply rstrip_segs_words, lstrip_segs_words, squeeze_segs_words in Hw.
    unfold L in Hw. apply in_map_iff in Hw as ([w0|c] & E & _); [|discriminate].
    simpl in E. injection E as <-. apply correct_word_idem. }
  unfold apply_confusions at 1. fold u. rewrite Su.
  unfold u, apply_confusions.
  destruct (strip_collapse_fixed (substitute_all table t)) as [H1 H2].
  rewrite H2. exact H1.
Qed.
End Table.

Lemma apply_confusions_idempotent_on_final_words_witness :
  single_words CONFUSIONS_v4 = true
  /\ corrections_final CONFUSIONS_v4 = true
  /\ forall t, apply_confusions CONFUSIONS_v4 (apply_confusions CONFUSIONS_v4 t)
               = apply_confusions CONFUSIONS_v4 t.
Proof.
  assert (H1 : single_words CONFUSIONS_v4 = true) by (vm_compute; reflexivity).
  assert (H2 : corrections_final CONFUSIONS_v4 = true) by (vm_compute; reflexivity).
  split; [exact H1|]. split; [exact H2|].
  exact (@apply_confusions_idempotent_on_final_words CONFUSIONS_v4 H1 H2).
Defined.

(** C3, as the claim states it, fails for the table of [mainv3.py]: "been"
    becomes "open" after the longer key "open book" had its turn, so
    "been book" is corrected to "open book", and this to "open". *)
Lemma apply_confusions_v3_not_idempotent :
  apply_confusions CONFUSIONS (txt "been book") = txt "open book"
  /\ apply_confusions CONFUSIONS (apply_confusions CONFUSIONS (txt "been book"))
     = txt "open"
  /\ apply_confusions CONFUSIONS (apply_confusions CONFUSIONS (txt "been book"))
     <> apply_confusions CONFUSIONS (txt "been book").
Proof.
  split; [vm_compute; reflexivity|]. split; [vm_compute; reflexivity|].
  vm_compute. discriminate.
Qed.

(** ** The wake phrase and white space *)

Lemma lstrip_shorter (r : text) :
  (length (lstrip r) <? length r) = starts_with_space r.
Proof.
  destruct r as [|c r]; [reflexivity|]. simpl.
  destruct (is_space c).
  - pose proof (lstrip_length r). apply Nat.ltb_lt. simpl. lia.
  - apply Nat.ltb_irrefl.
Qed.

Lemma pat_wake_hit (w : text * text) (prev : option ascii) (t : text) :
  match pat_wake false w prev t with Some _ => true | None => false end
  = wake_hit w prev t.
Proof.
  unfold pat_wake, wake_hit.
  destruct (strip_prefix (fst w) t) as [r1|]; [|reflexivity].
  rewrite lstrip_shorter. destruct (starts_with_space r1); [|reflexivity].
  simpl. destruct (strip_prefix (snd w) (lstrip r1)) as [r3|]; [|reflexivity].
  destruct (word_boundary prev (hd_error t)
            && word_boundary (last_char (snd w)) (hd_error r3)); reflexivity.
Qed.

Lemma search_from_hit (w : text * text) (t : text) :
  forall prev,
    search_from (pat_wake false w) prev t = search_hit (wake_hit w) prev t.
Proof.
  induction t as [|c t IH]; intros prev; [reflexivity|].
  cbn [search_from search_hit]. rewrite <- pat_wake_hit, <- IH.
  destruct (pat_wake false w prev (c :: t)); reflexivity.
Qed.

Lemma word_not_space (c : ascii) : is_word c = true -> is_space c = false.
Proof.
  intros H. destruct (is_space c) eqn:E; [|reflexivity].
  apply space_not_word in E. congruence.
Qed.

Lemma hd_squeeze (r : text) :
  is_word_opt (hd_error (squeeze false r)) = is_word_opt (hd_error r).
Proof.
  destruct r as [|c r]; [reflexivity|]. simpl.
  destruct (is_space c) eqn:E; [|reflexivity].
  simpl. rewrite (space_not_word _ E). reflexivity.
Qed.

Lemma starts_with_space_squeeze (r : text) :
  starts_with_space (squeeze false r) = starts_with_space r.
Proof.
  destruct r as [|c r]; [reflexivity|]. simpl.
  destruct (is_space c) eqn:E; [reflexivity | simpl; assumption].
Qed.

Lemma lstrip_squeeze (r : text) :
  forall b, lstrip (squeeze b r) = squeeze false (lstrip r).
Proof.
  induction r as [|c r IH]; intros b; [reflexivity|]. simpl.
  destruct (is_space c) eqn:E.
  - destruct b; [apply IH|]. simpl. apply IH.
  - simpl. rewrite E. reflexivity.
Qed.

Lemma strip_prefix_squeeze (w : text) :
  forallb is_word w = true ->
  forall t, strip_prefix w (squeeze false t)
            = option_map (squeeze false) (strip_prefix w t).
Proof.
  induction w as [|a w IH]; intros Hw t; [reflexivity|].
  simpl in Hw. apply andb_true_iff in Hw as [Ha Hw].
  destruct t as [|c t]; [reflexivity|]. simpl.
  destruct (is_space c) eqn:E.
  - simpl. destruct (Ascii.eqb_spec a " "%char) as [->|_]; [discriminate|].
    destruct (Ascii.eqb_spec a c) as [->|_]; [|reflexivity].
    apply word_not_space in Ha. congruence.
  - simpl. destruct (Ascii.eqb a c); [apply IH; assumption | reflexivity].
Qed.

Lemma hd_rstrip (r : text) :
  is_word_opt (hd_error (rstrip r)) = is_word_opt (hd_error r).
Proof.
  destruct r as [|c r]; [reflexivity|]. simpl.
  destruct (rstrip r); [|reflexivity].
  destruct (is_space c) eqn:E; [|reflexivity].
  simpl. rewrite (space_not_word _ E). reflexivity.
Qed.

Lemma starts_with_space_rstrip (r : text) :
  rstrip r <> [] -> starts_with_space (rstrip r) = starts_with_space r.
Proof.
  destruct r as [|c r]; [reflexivity|]. simpl.
  destruct (rstrip r); [|reflexivity].
  destruct (is_space c) eqn:E; [contradiction | simpl; intros _; exact E].
Qed.

Lemma lstrip_rstrip (r : text) : lstrip (rstrip r) = rstrip (lstrip r).
Proof.
  induction r as [|c r IH]; [reflexivity|].
  destruct (is_space c) eqn:E.
  - cbn [lstrip]. rewrite E, <- IH. cbn [rstrip]. rewrite E.
    destruct (rstrip r); [reflexivity|]. cbn [lstrip]. rewrite E. reflexivity.
  - rewrite rstrip_cons by assumption. cbn [lstrip]. rewrite E.
    rewrite rstrip_cons by assumption. reflexivity.
Qed.

Lemma strip_prefix_rstrip (w : text) :
  forallb is_word w = true ->
  forall t, strip_prefix w (rstrip t) = option_map rstrip (strip_prefix w t).
Proof.
  induction w as [|a w IH]; intros Hw t; [reflexivity|].
  simpl in Hw. apply andb_true_iff in Hw as [Ha Hw].
  destruct t as [|c t]; [reflexivity|].
  destruct (is_space c) eqn:E.
  - assert (Ne : Ascii.eqb a c = false).
    { destruct (Ascii.eqb_spec a c) as [->|_]; [|reflexivity].
      apply word_not_space in Ha. congruence. }
    cbn [rstrip strip_prefix]. rewrite E, Ne.
    destruct (rstrip t); [reflexivity|]. simpl. rewrite Ne. reflexivity.
  - rewrite rstrip_cons by assumption. cbn [strip_prefix].
    destruct (Ascii.eqb a c); [apply IH; assumption | reflexivity].
Qed.

Section WakeWord.
Variable w : text * text.
Hypothesis Hw1 : is_wordb (fst w) = true.
Hypothesis Hw2 : is_wordb (snd w) = true.

Lemma wake_all_word1 : forallb is_word (fst w) = true.
Proof. destruct (fst w); [discriminate | exact Hw1]. Qed.

Lemma wake_all_word2 : forallb is_word (snd w) = true.
Proof. destruct (snd w); [discriminate | exact Hw2]. Qed.

Lemma wake_hit_prev (p p' : option ascii) (t : text) :
  is_word_opt p = is_word_opt p' -> wake_hit w p t = wake_hit w p' t.
Proof. intros H. unfold wake_hit, word_boundary. rewrite H. reflexivity. Qed.

Lemma wake_hit_space (prev : option ascii) (c : ascii) (t : text) :
  is_space c = true -> wake_hit w prev (c :: t) = false.
Proof.
  intros E. unfold wake_hit. pose proof wake_all_word1 as A.
  destruct (fst w) as [|a w1]; [discriminate|]. simpl in A |- *.
  apply andb_true_iff in A as [Ha _].
  destruct (Ascii.eqb_spec a c) as [->|_]; [|reflexivity].
  apply word_not_space in Ha. congruence.
Qed.

Lemma wake_hit_nil (prev : option ascii) : wake_hit w prev [] = false.
Proof. unfold wake_hit. destruct (fst w); [discriminate | reflexivity]. Qed.

Lemma wake_hit_squeeze (prev : option ascii) (t : text) :
  wake_hit w prev (squeeze false t) = wake_hit w prev t.
Proof.
  unfold wake_hit.
  rewrite (strip_prefix_squeeze _ wake_all_word1).
  destruct (strip_prefix (fst w) t) as [r1|]; [|reflexivity]. simpl.
  rewrite starts_with_space_squeeze, lstrip_squeeze.
  rewrite (strip_prefix_squeeze _ wake_all_word2).
  destruct (strip_prefix (snd w) (lstrip r1)) as [r3|]; [|reflexivity]. simpl.
  unfold word_boundary. rewrite !hd_squeeze. reflexivity.
Qed.

Lemma wake_hit_rstrip (prev : option ascii) (t : text) :
  wake_hit w prev (rstrip t) = wake_hit w prev t.
Proof.
  unfold wake_hit.
  rewrite (strip_prefix_rstrip _ wake_all_word1).
  destruct (strip_prefix (fst w) t) as [r1|]; [|reflexivity]. simpl.
  rewrite lstrip_rstrip, (strip_prefix_rstrip _ wake_all_word2).
  destruct (rstrip r1) as [|d r] eqn:R.
  - simpl.
    assert (E : strip_prefix (snd w) (lstrip r1) = None
                \/ starts_with_space r1 = false).
    { pose proof (strip_prefix_rstrip _ wake_all_word2 (lstrip r1)) as S.
      rewrite <- lstrip_rstrip, R in S. simpl in S.
      destruct (strip_prefix (snd w) (lstrip r1)); [|left; reflexivity].
      destruct (snd w); [discriminate | discriminate]. }
    destruct E as [-> | ->]; [rewrite andb_false_r|]; reflexivity.
  - rewrite <- R.
    rewrite starts_with_space_rstrip by (rewrite R; discriminate).
    destruct (strip_prefix (snd w) (lstrip r1)) as [r3|]; [|reflexivity]. simpl.
    unfold word_boundary. rewrite !hd_rstrip. reflexivity.
Qed.

Lemma search_hit_prev (t : text) (p p' : option ascii) :
  is_word_opt p = is_word_opt p' ->
  search_hit (wake_hit w) p t = search_hit (wake_hit w) p' t.
Proof.
  intros H. destruct t as [|c t]; [reflexivity|]. simpl.
  rewrite (wake_hit_prev p p') by assumption. reflexivity.
Qed.

Lemma search_hit_squeeze (t : text) :
  forall b p p',
    is_word_opt p = is_word_opt p' ->
    (b = true -> is_word_opt p' = false) ->
    search_hit (wake_hit w) p (squeeze b t) = search_hit (wake_hit w) p' t.
Proof.
  induction t as [|c t IH]; intros b p p' Hp Hb; [reflexivity|].
  cbn [squeeze search_hit]. destruct (is_space c) eqn:E.
  - rewrite (wake_hit_space p' c t E). cbn [orb].
    pose proof (space_not_word _ E) as Nc.
    destruct b.
    + apply IH; [|intros _; exact Nc]. simpl. rewrite Nc, Hp. auto.
    + cbn [search_hit]. rewrite wake_hit_space by reflexivity. cbn [orb].
      apply IH; [|intros _; exact Nc]. simpl. rewrite Nc. reflexivity.
  - cbn [search_hit].
    replace (c :: squeeze false t) with (squeeze false (c :: t))
      by (simpl; rewrite E; reflexivity).
    rewrite wake_hit_squeeze, (wake_hit_prev p p') by assumption.
    f_equal. apply IH; [reflexivity | discriminate].
Qed.

Lemma search_hit_lstrip (t : text) :
  search_hit (wake_hit w) None (lstrip t) = search_hit (wake_hit w) None t.
Proof.
  induction t as [|c t IH]; [reflexivity|].
  cbn [lstrip]. destruct (is_space c) eqn:E; [|reflexivity].
  cbn [search_hit]. rewrite wake_hit_space by assumption. cbn [orb].
  rewrite IH. apply search_hit_prev. simpl.
  rewrite (space_not_word _ E). reflexivity.
Qed.

Lemma search_hit_rstrip (t : text) :
  forall p, search_hit (wake_hit w) p (rstrip t) = search_hit (wake_hit w) p t.
Proof.
  induction t as [|c t IH]; intros p; [reflexivity|].
  cbn [search_hit]. rewrite <- (wake_hit_rstrip p (c :: t)), <- IH.
  cbn [rstrip]. destruct (rstrip t) as [|d r].
  - destruct (is_space c); simpl; [rewrite wake_hit_nil|]; reflexivity.
  - reflexivity.
Qed.

(** The wake phrase is found in a text exactly when it is found in the
    text stripped and with white space collapsed. *)
Lemma re_search_wake_normal (z : text) :
  re_search (pat_wake false w) (collapse_spaces (strip z))
  = re_search (pat_wake false w) z.
Proof.
  unfold re_search. rewrite !search_from_hit, collapse_spaces_squeeze.
  rewrite (@search_hit_squeeze (strip z) false None None) by (auto; discriminate).
  unfold strip. rewrite search_hit_rstrip. apply search_hit_lstrip.
Qed.
End WakeWord.

Lemma lower_char_idem (c : ascii) : lower_char (lower_char c) = lower_char c.
Proof. destruct c as [[] [] [] [] [] [] [] []]; vm_compute; reflexivity. Qed.

Lemma lower_fixed (t : text) :
  (forall c, In c t -> lower_char c = c) -> lower t = t.
Proof.
  induction t as [|c t IH]; intros H; [reflexivity|]. simpl.
  rewrite (H c) by (left; reflexivity). f_equal. apply IH.
  intros d Hd. apply H. right. assumption.
Qed.

Lemma squeeze_In (t : text) :
  forall b c, In c (squeeze b t) -> In c t \/ c = " "%char.
Proof.
  induction t as [|d t IH]; intros b c; simpl; [tauto|].
  destruct (is_space d).
  - destruct b; simpl; intros H.
    + destruct (IH _ _ H); auto.
    + destruct H as [H|H]; [auto|]. destruct (IH _ _ H); auto.
  - simpl. intros [H|H]; [auto|]. destruct (IH _ _ H); auto.
Qed.

Lemma lstrip_In (t : text) (c : ascii) : In c (lstrip t) -> In c t.
Proof.
  induction t as [|d t IH]; simpl; [tauto|].
  destruct (is_space d); simpl; tauto.
Qed.

Lemma rstrip_In (t : text) (c : ascii) : In c (rstrip t) -> In c t.
Proof.
  induction t as [|d t IH]; simpl; [tauto|].
  destruct (rstrip t) as [|e r].
  - destruct (is_space d); simpl; tauto.
  - simpl in *. tauto.
Qed.

Lemma lower_normalize (t : text) : lower (normalize t) = normalize t.
Proof.
  apply lower_fixed. intros c H. unfold normalize in H.
  rewrite collapse_spaces_squeeze in H. apply squeeze_In in H as [H| ->].
  - unfold strip in H. apply rstrip_In, lstrip_In in H.
    unfold lower in H. apply in_map_iff in H as (d & <- & _).
    apply lower_char_idem.
  - reflexivity.
Qed.

(** [on_final] tests the normalised text; the test gives what it gives
    on the text of the event. *)
Lemma fuzzy_wake_normalize (t : text) : fuzzy_wake (normalize t) = fuzzy_wake t.
Proof.
  unfold fuzzy_wake. rewrite lower_normalize. unfold normalize, WAKE_WORDS.
  cbn [existsb].
  rewrite !re_search_wake_normal by (vm_compute; reflexivity).
  reflexivity.
Qed.

(** ** The wake gate and the session *)

Lemma lower_lower (t : text) : lower (lower t) = lower t.
Proof.
  unfold lower. rewrite map_map. apply map_ext. apply lower_char_idem.
Qed.

Lemma fuzzy_wake_lower (t : text) : fuzzy_wake (lower t) = fuzzy_wake t.
Proof. unfold fuzzy_wake. rewrite lower_lower. reflexivity. Qed.

Lemma on_final_asleep (env : Env) (st : Nova) (t : text) :
  awake st = false ->
  on_final env st t
  = if fuzzy_wake t then (set_awake st true, [Say (txt "Ready")]) else (st, []).
Proof.
  intros H. rewrite <- (fuzzy_wake_normalize t). unfold on_final.
  destruct (normalize t) as [|c n]; [reflexivity|].
  rewrite H. reflexivity.
Qed.

Lemma on_text_asleep (env : Env) (st : Nova) (t : text) :
  awake st = false ->
  on_text env st t
  = if fuzzy_wake t then (set_awake st true, [Say (txt "Ready")]) else (st, []).
Proof.
  intros H. rewrite <- (fuzzy_wake_normalize t). unfold on_text.
  rewrite H. reflexivity.
Qed.

(** C5.  While the session is asleep, an event whose text matches no wake
    phrase changes nothing and does nothing; an event whose text has a
    wake phrase, "hey nova" or the mis-hearing "hey noah" among them, in
    any case of letters, wakes the session, and the acknowledgement is all
    that happens on that event.  This holds for partial and final events
    of [mainv3.py] and for [on_text] of [mainv4.py]. *)
Theorem asleep_wake_gate (env : Env) (st : Nova) (e : TranscriptEvent) :
  awake st = false ->
  (fuzzy_wake (event_text e) = false -> on_event env st e = (st, []))
  /\ (fuzzy_wake (event_text e) = true ->
      exists ack, on_event env st e = (set_awake st true, [Say ack]))
  /\ (fuzzy_wake (event_text e) = false -> on_text env st (event_text e) = (st, []))
  /\ (fuzzy_wake (event_text e) = true ->
      on_text env st (event_text e) = (set_awake st true, [Say (txt "Ready")]))
  /\ (forall t, fuzzy_wake (lower t) = fuzzy_wake t)
  /\ fuzzy_wake (txt "hey nova") = true
  /\ fuzzy_wake (txt "hey noah") = true
  /\ fuzzy_wake (txt "Hey NOVA") = true
  /\ fuzzy_wake (txt "the weather is nice") = false.
Proof.
  intros H.
  split; [|split; [|split; [|split; [|split]]]].
  - intros F. destruct e as [t|t]; simpl in *.
    + unfold on_partial. rewrite H, F. reflexivity.
    + rewrite on_final_asleep, F by assumption. reflexivity.
  - intros F. destruct e as [t|t]; simpl in *.
    + exists (txt "Listening"). unfold on_partial. rewrite H, F. reflexivity.
    + exists (txt "Ready"). rewrite on_final_asleep, F by assumption. reflexivity.
  - intros F. rewrite on_text_asleep, F by assumption. reflexivity.
  - intros F. rewrite on_text_asleep, F by assumption. reflexivity.
  - apply fuzzy_wake_lower.
  - repeat split; vm_compute; reflexivity.
Qed.

Lemma asleep_wake_gate_witness :
  awake (mkNova false false) = false
  /\ fuzzy_wake (event_text (Final (txt "Hey  Noah"))) = true
  /\ (exists ack,
        on_event full_env (mkNova false false) (Final (txt "Hey  Noah"))
        = (set_awake (mkNova false false) true, [Say ack]))
  /\ fuzzy_wake (event_text (Partial (txt "open chrome"))) = false
  /\ on_event full_env (mkNova false false) (Partial (txt "open chrome"))
     = (mkNova false false, []).
Proof.
  assert (H : awake (mkNova false false) = false) by reflexivity.
  assert (F1 : fuzzy_wake (event_text (Final (txt "Hey  Noah"))) = true)
    by (vm_compute; reflexivity).
  assert (F2 : fuzzy_wake (event_text (Partial (txt "open chrome"))) = false)
    by (vm_compute; reflexivity).
  split; [exact H|]. split; [exact F1|]. split.
  - exact (proj1 (proj2 (asleep_wake_gate full_env (mkNova false false)
                           (Final (txt "Hey  Noah")) H)) F1).
  - split; [exact F2|].
    exact (proj1 (asleep_wake_gate full_env (mkNova false false)
                    (Partial (txt "open chrome")) H) F2).
Defined.

Lemma command_awake (table : dict text) (env : Env) (st : Nova) (t : text) :
  bypass_wake st = false ->
  command table env st t
  = if _gate_intent (cleaned table t)
    then (mkNova false false, route env (cleaned table t))
    else (st, []).
Proof.
  intros B. unfold command.
  destruct (cleaned table t) as [|c n]; [reflexivity|].
  destruct (_gate_intent (c :: n)); [|reflexivity].
  unfold set_awake. rewrite B. reflexivity.
Qed.

(** C4, as the code has it.  In an awake session that is not pinned
    awake, a final transcript whose cleaned text passes the intent gate is
    routed, whether or not a pattern or a target is found for it, and the
    session is asleep afterwards; a text that the gate rejects, or that is
    empty after cleaning, is dropped and leaves the session as it was.
    Once asleep, a text without a wake phrase is not taken as a command. *)
Theorem asleep_after_routed_command (env : Env) (st : Nova) (t : text) :
  awake st = true ->
  bypass_wake st = false ->
  (_gate_intent (cleaned CONFUSIONS (normalize t)) = true ->
   on_final env st t
   = (mkNova false false, route env (cleaned CONFUSIONS (normalize t))))
  /\ (_gate_intent (cleaned CONFUSIONS (normalize t)) = false ->
      on_final env st t = (st, []))
  /\ (_gate_intent (cleaned CONFUSIONS_v4 (normalize t)) = true ->
      on_text env st t
      = (mkNova false false, route env (cleaned CONFUSIONS_v4 (normalize t))))
  /\ (_gate_intent (cleaned CONFUSIONS_v4 (normalize t)) = false ->
      on_text env st t = (st, []))
  /\ (forall t', fuzzy_wake t' = false ->
        on_final env (mkNova false false) t' = (mkNova false false, [])
        /\ on_text env (mkNova false false) t' = (mkNova false false, [])).
Proof.
  intros A B.
  assert (F : on_final env st t = command CONFUSIONS env st (normalize t)).
  { unfold on_final. rewrite A. destruct (normalize t); reflexivity. }
  assert (T : on_text env st t = command CONFUSIONS_v4 env st (normalize t)).
  { unfold on_text. rewrite A. reflexivity. }
  rewrite F, T, !command_awake by assumption.
  split; [|split; [|split; [|split]]].
  - intros ->. reflexivity.
  - intros ->. reflexivity.
  - intros ->. reflexivity.
  - intros ->. reflexivity.
  - intros t' W. rewrite on_final_asleep, on_text_asleep, W by reflexivity.
    split; reflexivity.
Qed.

Lemma asleep_after_routed_command_witness :
  awake (mkNova true false) = true
  /\ bypass_wake (mkNova true false) = false
  /\ _gate_intent (cleaned CONFUSIONS (normalize (txt "open grown"))) = true
  /\ on_final full_env (mkNova true false) (txt "open grown")
     = (mkNova false false,
        route full_env (cleaned CONFUSIONS (normalize (txt "open grown"))))
  /\ _gate_intent (cleaned CONFUSIONS (normalize (txt "mute"))) = false
  /\ on_final full_env (mkNova true false) (txt "mute") = (mkNova true false, []).
Proof.
  assert (A : awake (mkNova true false) = true) by reflexivity.
  assert (B : bypass_wake (mkNova true false) = false) by reflexivity.
  assert (G : _gate_intent (cleaned CONFUSIONS (normalize (txt "open grown"))) = true)
    by (vm_compute; reflexivity).
  assert (G' : _gate_intent (cleaned CONFUSIONS (normalize (txt "mute"))) = false)
    by (vm_compute; reflexivity).
  split; [exact A|]. split; [exact B|]. split; [exact G|]. split.
  - exact (proj1 (asleep_after_routed_command full_env (mkNova true false)
                    (txt "open grown") A B) G).
  - split; [exact G'|].
    exact (proj1 (proj2 (asleep_after_routed_command full_env (mkNova true false)
                           (txt "mute") A B)) G').
Defined.

(** C4, as the claim states it, fails: the intent gate rejects "the
    weather is nice" and [on_final] returns before the line that puts the
    session to sleep, so the session, which is not pinned awake, is still
    awake. *)
Lemma gate_rejection_leaves_session_awake :
  bypass_wake (mkNova true false) = false
  /\ _gate_intent (cleaned CONFUSIONS (normalize (txt "the weather is nice"))) = false
  /\ on_final full_env (mkNova true false) (txt "the weather is nice")
     = (mkNova true false, [])
  /\ awake (fst (on_final full_env (mkNova true false)
                   (txt "the weather is nice"))) = true
  /\ awake (fst (on_text full_env (mkNova true false)
                   (txt "the weather is nice"))) = true.
Proof. repeat split; vm_compute; reflexivity. Qed.

(* ================================================================== *)
(** * Further properties of the program *)

(** ** The normal form of [normalize] *)

Lemma rstrip_nil_iff (y : text) : rstrip y = [] <-> forallb is_space y = true.
Proof.
  induction y as [|c y IH]; simpl; [tauto|].
  destruct (rstrip y) as [|d r].
  - destruct (is_space c); simpl; [tauto|]. split; discriminate.
  - split; [discriminate|]. intros H. apply andb_true_iff in H as [_ H].
    apply IH in H. discriminate.
Qed.

Lemma forallb_space_squeeze (y : text) :
  forall b, forallb is_space (squeeze b y) = forallb is_space y.
Proof.
  induction y as [|c y IH]; intros b; simpl; [reflexivity|].
  destruct (is_space c) eqn:E; simpl.
  - destruct b; simpl; apply IH.
  - rewrite E. reflexivity.
Qed.

Lemma squeeze_space (b : bool) (c : ascii) (y : text) :
  is_space c = true ->
  squeeze b (c :: y) = if b then squeeze true y else " "%char :: squeeze true y.
Proof. intros E. simpl. rewrite E. reflexivity. Qed.

Lemma squeeze_nonspace (b : bool) (c : ascii) (y : text) :
  is_space c = false -> squeeze b (c :: y) = c :: squeeze false y.
Proof. intros E. simpl. rewrite E. reflexivity. Qed.

Lemma rstrip_squeeze (y : text) :
  forall b, rstrip (squeeze b y) = squeeze b (rstrip y).
Proof.
  induction y as [|c y IH]; intros b; [reflexivity|].
  destruct (is_space c) eqn:E.
  - rewrite squeeze_space by assumption. cbn [rstrip]. rewrite E.
    destruct (rstrip y) as [|d r] eqn:R.
    + specialize (IH true). simpl in IH.
      destruct b; [exact IH|]. cbn [rstrip]. rewrite IH. reflexivity.
    + rewrite squeeze_space by assumption.
      destruct b; [apply IH|]. cbn [rstrip]. rewrite IH.
      destruct (squeeze true (d :: r)) as [|x s] eqn:S; [|reflexivity].
      exfalso.
      assert (A : forallb is_space (d :: r) = true).
      { rewrite <- (forallb_space_squeeze (d :: r) true), S. reflexivity. }
      apply rstrip_nil_iff in A. rewrite <- R, rstrip_idem, R in A.
      discriminate.
  - rewrite squeeze_nonspace by assumption. rewrite !rstrip_cons by assumption.
    rewrite squeeze_nonspace by assumption. rewrite IH. reflexivity.
Qed.

Lemma strip_squeeze (y : text) : strip (squeeze false y) = squeeze false (strip y).
Proof. unfold strip. rewrite lstrip_squeeze, rstrip_squeeze. reflexivity. Qed.

Lemma strip_normalize (t : text) : strip (normalize t) = normalize t.
Proof.
  unfold normalize. rewrite collapse_spaces_squeeze, strip_squeeze, strip_idem.
  reflexivity.
Qed.

Lemma spaced_normalize (t : text) : spaced false (normalize t) = true.
Proof. unfold normalize. rewrite collapse_spaces_squeeze. apply squeeze_spaced. Qed.

Lemma collapse_normalize (t : text) : collapse_spaces (normalize t) = normalize t.
Proof. rewrite collapse_spaces_squeeze. apply spaced_fixed, spaced_normalize. Qed.

(** X1.  What [normalize] returns is in lower case, has no white space
    at either end and none but single spaces inside; [normalize] leaves
    such a text as it is, so normalising twice is normalising once. *)
Theorem normalize_canonical (t : text) :
  lower (normalize t) = normalize t
  /\ strip (normalize t) = normalize t
  /\ collapse_spaces (normalize t) = normalize t
  /\ spaced false (normalize t) = true
  /\ normalize (normalize t) = normalize t.
Proof.
  split; [apply lower_normalize|].
  split; [apply strip_normalize|].
  split; [apply collapse_normalize|].
  split; [apply spaced_normalize|].
  unfold normalize at 1.
  rewrite lower_normalize, strip_normalize. apply collapse_normalize.
Qed.

(** ** Texts that need no correction *)

Lemma sub_from_no_match (p : pattern) (repl t : text) :
  forall prev, search_from p prev t = false -> sub_from p repl 0 prev t = t.
Proof.
  induction t as [|c t IH]; intros prev H; [reflexivity|].
  cbn [search_from] in H. cbn [sub_from].
  destruct (p prev (c :: t)); [discriminate|].
  rewrite IH by assumption. reflexivity.
Qed.

Lemma substitute_no_match (table : dict text) (t : text) (ks : list text) :
  forallb (fun k => negb (re_search (pat_word k) t)) ks = true ->
  fold_left (fun t k => re_sub (pat_word k) (item table k) t) ks t = t.
Proof.
  induction ks as [|k ks IH]; intros H; [reflexivity|].
  simpl in H. apply andb_true_iff in H as [Hk H].
  apply negb_true_iff in Hk. cbn [fold_left].
  unfold re_sub at 2. rewrite sub_from_no_match by exact Hk.
  apply IH. assumption.
Qed.

(** X2.  When the pattern of no key of the confusion table is found in a
    normalised text, [apply_confusions] returns that text as it is. *)
Theorem apply_confusions_keeps_clean_text (table : dict text) (t : text) :
  forallb (fun k => negb (re_search (pat_word k) (normalize t))) (keys table) = true ->
  apply_confusions table (normalize t) = normalize t.
Proof.
  intros H. unfold apply_confusions, substitute_all.
  rewrite substitute_no_match.
  - rewrite collapse_normalize. apply strip_normalize.
  - rewrite forallb_forall in H |- *. intros k Hk. apply H.
    apply (Permutation_in _ (longest_first_perm (keys table))). assumption.
Qed.

Lemma apply_confusions_keeps_clean_text_witness :
  forallb (fun k => negb (re_search (pat_word k) (normalize (txt "  Open   the Chrome browser "))))
          (keys CONFUSIONS) = true
  /\ apply_confusions CONFUSIONS (normalize (txt "  Open   the Chrome browser "))
     = txt "open the chrome browser".
Proof.
  assert (H : forallb (fun k => negb (re_search (pat_word k)
                         (normalize (txt "  Open   the Chrome browser "))))
                      (keys CONFUSIONS) = true) by (vm_compute; reflexivity).
  split; [exact H|].
  rewrite (apply_confusions_keeps_clean_text CONFUSIONS _ H).
  vm_compute. reflexivity.
Defined.

(** ** No mis-heard word is left *)

Section WordKeySearch.
Variable k : text.
Hypothesis Hk : is_wordb k = true.

Lemma search_inside (w x : text) :
  forall prev,
    forallb is_word w = true -> is_word_opt prev = true ->
    search_from (pat_word k) prev (w ++ x)
    = search_from (pat_word k) (last_from prev w) x.
Proof.
  induction w as [|c w IH]; intros prev Hw Hp; [reflexivity|].
  simpl in Hw. apply andb_true_iff in Hw as [Hc Hw].
  cbn [app search_from]. rewrite (pat_word_inside k Hk) by assumption.
  apply IH; assumption.
Qed.

(** On a well-formed list of segments the pattern of a one-word key is
    found exactly when the key is one of the words. *)
Lemma search_word_flat (l : list seg) :
  forall prev,
    wf l = true ->
    (starts_with_word l = true -> is_word_opt prev = false) ->
    search_from (pat_word k) prev (flat l)
    = existsb (fun s => match s with W w => text_eqb w k | P _ => false end) l.
Proof.
  induction l as [|[w|c] l IH]; intros prev Hwf Hp; [reflexivity| |].
  - pose proof (wf_tail _ _ Hwf) as Hl.
    simpl in Hwf. rewrite !andb_true_iff in Hwf. destruct Hwf as [[Hw Hs] _].
    apply negb_true_iff in Hs. specialize (Hp eq_refl).
    pose proof (flat_head l Hl Hs) as Hx.
    change (flat (W w :: l)) with (w ++ flat l).
    pose proof (pat_word_at_word k Hk prev w (flat l) Hp Hw Hx) as M.
    cbn [existsb].
    destruct w as [|c w]; [discriminate|].
    cbn [app search_from]. cbn [app] in M. rewrite M.
    destruct (text_eqb (c :: w) k); [reflexivity|].
    simpl in Hw. apply andb_true_iff in Hw as [Hc Hw'].
    rewrite search_inside by assumption.
    rewrite IH; [reflexivity | assumption |].
    rewrite Hs. discriminate.
  - pose proof (wf_tail _ _ Hwf) as Hl.
    simpl in Hwf. rewrite andb_true_iff in Hwf. destruct Hwf as [Hc _].
    apply negb_true_iff in Hc.
    change (flat (P c :: l)) with (c :: flat l).
    cbn [search_from existsb]. rewrite (pat_word_nonword k Hk) by assumption.
    rewrite IH; [reflexivity | assumption |]. intros _. exact Hc.
Qed.
End WordKeySearch.

Section FinalTable.
Variable table : dict text.
Hypothesis Hwords : single_words table = true.
Hypothesis Hfinal : corrections_final table = true.

Lemma correct_word_key (ks : list text) (k : text) :
  (forall k', In k' ks -> ~ In (item table k') ks) ->
  In k ks -> correct_word table ks k = item table k.
Proof.
  revert k. induction ks as [|k0 ks IH]; intros k H Hin; [destruct Hin|].
  unfold correct_word. simpl. destruct (text_eqb k k0) eqn:E.
  - apply text_eqb_eq in E. subst k0.
    apply correct_word_fix. intros k' Hk' C.
    apply (H k); [left; reflexivity|]. right. rewrite C. assumption.
  - destruct Hin as [->|Hin]; [rewrite text_eqb_refl in E; discriminate|].
    apply IH; [|assumption].
    intros k' Hk' C. apply (H k'); right; assumption.
Qed.

(** The words of a corrected text are corrections or words that are no
    keys. *)
Lemma apply_confusions_words (t w : text) :
  In (W w) (parse (apply_confusions table t)) ->
  exists w0, w = correct_word table (longest_first (keys table)) w0.
Proof.
  set (F := correct_word table (longest_first (keys table))).
  set (L := map (on_word F) (parse t)).
  assert (HL : wf L = true).
  { apply wf_on_word; [|apply wf_parse].
    intros w1 Hw.
    destruct (correct_word_result table (longest_first (keys table))
                (item_not_key table Hfinal) w1)
      as [E|(k & Hk & E)]; unfold F; rewrite E; [assumption|].
    apply (key_and_item_words table Hwords). assumption. }
  assert (Es : substitute_all table t = flat L).
  { rewrite <- (flat_parse t) at 1.
    apply (substitute_all_flat table Hwords), wf_parse. }
  unfold apply_confusions, strip. rewrite Es, collapse_spaces_squeeze.
  rewrite parse_rstrip, parse_lstrip, parse_squeeze, parse_flat by assumption.
  intros Hw.
  apply rstrip_segs_words, lstrip_segs_words, squeeze_segs_words in Hw.
  unfold L in Hw. apply in_map_iff in Hw as ([w0|c] & E & _); [|discriminate].
  simpl in E. injection E as <-. exists w0. reflexivity.
Qed.

(** X3.  For a confusion table of single words none of whose corrections
    is a key, as the table of [mainv4.py] is, the pattern of no key is
    found in a corrected text: every mis-heard word is gone. *)
Theorem apply_confusions_leaves_no_key (t k : text) :
  In k (keys table) ->
  re_search (pat_word k) (apply_confusions table t) = false.
Proof.
  intros Hk.
  assert (Hks : In k (longest_first (keys table))).
  { apply (Permutation_in _ (Permutation_sym (longest_first_perm (keys table)))).
    assumption. }
  destruct (key_and_item_words table Hwords k Hks) as [Wk _].
  unfold re_search.
  rewrite <- (flat_parse (apply_confusions table t)).
  rewrite (search_word_flat k Wk) by (try apply wf_parse; reflexivity).
  destruct (existsb _ _) eqn:X; [|reflexivity]. exfalso.
  apply existsb_exists in X as ([w|c] & Hin & E); [|discriminate].
  apply text_eqb_eq in E. subst w.
  destruct (apply_confusions_words t k Hin) as (w0 & E).
  pose proof (correct_word_idem table Hfinal w0) as I.
  cbv zeta in I. rewrite <- E in I.
  rewrite (correct_word_key _ k (item_not_key table Hfinal) Hks) in I.
  apply (item_not_key table Hfinal k Hks). rewrite I. exact Hks.
Qed.
End FinalTable.

Lemma apply_confusions_leaves_no_key_witness :
  single_words CONFUSIONS_v4 = true
  /\ corrections_final CONFUSIONS_v4 = true
  /\ In (txt "rome") (keys CONFUSIONS_v4)
  /\ forall t, re_search (pat_word (txt "rome")) (apply_confusions CONFUSIONS_v4 t) = false.
Proof.
  assert (H1 : single_words CONFUSIONS_v4 = true) by (vm_compute; reflexivity).
  assert (H2 : corrections_final CONFUSIONS_v4 = true) by (vm_compute; reflexivity).
  assert (H3 : In (txt "rome") (keys CONFUSIONS_v4))
    by (right; right; left; reflexivity).
  split; [exact H1|]. split; [exact H2|]. split; [exact H3|].
  exact (fun t => @apply_confusions_leaves_no_key CONFUSIONS_v4 H1 H2 t (txt "rome") H3).
Defined.

(** ** What the patterns capture *)

Lemma dots_spec (r : text) :
  r = fst (dots r) ++ snd (dots r) /\ ~ In newline (fst (dots r)).
Proof.
  induction r as [|c r IH]; simpl; [tauto|].
  destruct (Ascii.eqb_spec c newline) as [E|Ne]; simpl; [tauto|].
  destruct (dots r) as [g rest]. simpl in *. destruct IH as [E N].
  split; [congruence|]. intros [C|C]; [congruence | tauto].
Qed.

Lemma rest_group_spec (r g : text) :
  rest_group r = Some g ->
  g <> [] /\ ~ In newline g /\ exists tail, r = g ++ tail /\ at_end tail = true.
Proof.
  unfold rest_group. pose proof (dots_spec r) as [E N].
  destruct (dots r) as [g' rest]. simpl in *.
  destruct g' as [|c g']; [discriminate|].
  destruct (at_end rest) eqn:A; [|discriminate].
  intros [= <-]. repeat split; [discriminate | assumption |].
  exists rest. auto.
Qed.

Lemma spaces_then_rest_spec (r g : text) :
  spaces_then_rest r = Some g ->
  exists ws tail,
    r = ws ++ g ++ tail /\ forallb is_space ws = true
    /\ g <> [] /\ ~ In newline g /\ at_end tail = true.
Proof.
  induction r as [|c r IH]; [discriminate|]. simpl.
  assert (Here : rest_group (c :: r) = Some g ->
                 exists ws tail,
                   c :: r = ws ++ g ++ tail /\ forallb is_space ws = true
                   /\ g <> [] /\ ~ In newline g /\ at_end tail = true).
  { intros H. apply rest_group_spec in H as (G & N & tail & E & A).
    exists [], tail. simpl. auto. }
  destruct (is_space c) eqn:S; [|exact Here].
  destruct (spaces_then_rest r) as [g'|]; [|exact Here].
  intros [= ->]. destruct (IH eq_refl) as (ws & tail & E & F & G & N & A).
  exists (c :: ws), tail. simpl. rewrite S, F, E. auto.
Qed.

(** X4.  When a verb pattern matches, the text is one of the verbs, then
    white space, then the captured remainder, then nothing or one last
    line feed; the remainder handed to the executor is never empty and
    holds no line feed. *)
Theorem match_verb_captures (verbs : list text) (t g : text) :
  match_verb verbs t = Some g ->
  exists v ws tail,
    In v verbs /\ t = v ++ ws ++ g ++ tail
    /\ ws <> [] /\ forallb is_space ws = true
    /\ g <> [] /\ ~ In newline g /\ at_end tail = true.
Proof.
  induction verbs as [|v vs IH]; [discriminate|]. simpl.
  destruct (strip_prefix v t) as [[|c r]|] eqn:P;
    try (intros H; destruct (IH H) as (v' & ws & tail & I & R);
         exists v', ws, tail; split; [right; exact I | exact R]).
  destruct (is_space c) eqn:S;
    [|intros H; destruct (IH H) as (v' & ws & tail & I & R);
      exists v', ws, tail; split; [right; exact I | exact R]].
  destruct (spaces_then_rest r) as [g'|] eqn:R;
    [|intros H; destruct (IH H) as (v' & ws & tail & I & R');
      exists v', ws, tail; split; [right; exact I | exact R']].
  intros [= ->]. apply strip_prefix_app in P.
  apply spaces_then_rest_spec in R as (ws & tail & E & F & G & N & A).
  exists v, (c :: ws), tail. simpl. rewrite S, F. subst r.
  repeat split; auto. discriminate.
Qed.

Lemma match_verb_captures_witness :
  OPEN_APP_PAT (txt "launch   visual studio code") = Some (txt "visual studio code")
  /\ exists v ws tail,
       In v (map txt ["open"; "launch"; "start"]%string)
       /\ txt "launch   visual studio code" = v ++ ws ++ txt "visual studio code" ++ tail
       /\ ws <> [] /\ forallb is_space ws = true
       /\ txt "visual studio code" <> []
       /\ ~ In newline (txt "visual studio code") /\ at_end tail = true.
Proof.
  assert (H : match_verb (map txt ["open"; "launch"; "start"]%string)
                (txt "launch   visual studio code") = Some (txt "visual studio code"))
    by (vm_compute; reflexivity).
  split; [exact H|].
  exact (match_verb_captures _ _ H).
Defined.

(** ** What the router can do *)

Lemma open_site_shadowed (t : text) :
  OPEN_APP_PAT t = None -> OPEN_SITE_PAT t = None.
Proof.
  unfold OPEN_SITE_PAT, OPEN_APP_PAT. cbn [map match_verb].
  destruct (match strip_prefix (txt "open") t with
            | Some (c :: r) => if is_space c then spaces_then_rest r else None
            | _ => None
            end); [discriminate | reflexivity].
Qed.

Lemma resolve_member (name : text) (choices : list text)
    (extra_alias : option (dict text)) (k : text) :
  resolve_name_fuzzy name choices extra_alias = Some k -> In k choices.
Proof.
  unfold resolve_name_fuzzy.
  destruct (mem (effective_name name extra_alias) choices) eqn:M.
  - intros [= <-]. apply mem_In. assumption.
  - intros H. apply PickFacts.get_close_matches_some in H. tauto.
Qed.

Lemma found_some (c : option text) (k : text) : found c = Some k -> c = Some k.
Proof. destruct c as [[|x y]|]; simpl; congruence. Qed.

Lemma plus_for_space_no_space (q : text) : no_space (plus_for_space q) = true.
Proof.
  unfold no_space, plus_for_space. induction q as [|c q IH]; [reflexivity|].
  simpl. rewrite IH, andb_true_r.
  destruct (Ascii.eqb_spec c " "%char) as [->|Ne]; [reflexivity|].
  apply negb_true_iff. apply Ascii.eqb_neq. assumption.
Qed.

Lemma web_search_url (q url : text) :
  In (OpenUrl url) (web_search q) ->
  url = SEARCH_URL ++ plus_for_space q /\ no_space url = true.
Proof.
  unfold web_search. intros [H|[H|[]]]; [|discriminate].
  assert (E : url = SEARCH_URL ++ plus_for_space q) by (injection H as <-; reflexivity).
  split; [exact E|]. rewrite E.
  unfold no_space. rewrite forallb_app. fold (no_space (plus_for_space q)).
  rewrite plus_for_space_no_space. reflexivity.
Qed.

Lemma repeat_key_In (a : Action) (vk : N) (n : nat) :
  In a (repeat (KeyEvent vk) n) -> a = KeyEvent vk.
Proof. intros H. apply repeat_spec in H. exact H. Qed.

(** The branches of [route], for the proofs below. *)
Ltac route_branches clean :=
  unfold route;
  destruct (SEARCH_PAT clean) as [?q|] eqn:?Esearch;
  [|destruct (CLOSE_PAT clean) as [?target|] eqn:?Eclose;
    [|destruct (OPEN_APP_PAT clean) as [?target|] eqn:?Eapp;
      [|destruct (OPEN_SITE_PAT clean) as [?target|] eqn:?Esite;
        [|destruct (TIME_PAT clean) eqn:?Etime;
          [|destruct (VOLUME_UP_PAT clean) eqn:?Eup;
            [|destruct (VOLUME_DOWN_PAT clean) eqn:?Edown;
              [|destruct (MUTE_PAT clean) eqn:?Emute;
                [|destruct (SCREENSHOT_PAT clean) eqn:?Eshot;
                  [|destruct (strip_prefix (txt "google ") clean)
                      as [?q|] eqn:?Egoogle]]]]]]]]].

Lemma route_url_is_search (env : Env) (clean url : text) :
  In (OpenUrl url) (route env clean) ->
  (exists q, url = SEARCH_URL ++ plus_for_space q) /\ no_space url = true.
Proof.
  route_branches clean; intros H.
  - apply web_search_url in H as [-> N]. split; [eexists; reflexivity | exact N].
  - unfold close_foreground in H. destruct (has_pyautogui env);
      simpl in H; intuition discriminate.
  - unfold open_app in H.
    destruct (found _) as [choice|]; [destruct (popen_ok env _)|];
      simpl in H; intuition discriminate.
  - rewrite (open_site_shadowed clean Eapp) in Esite. discriminate.
  - unfold tell_time in H. simpl in H. intuition discriminate.
  - unfold volume_up in H. apply in_app_or in H as [H|H].
    + destruct (has_win32api env); [apply repeat_key_In in H; discriminate | destruct H].
    + simpl in H. intuition discriminate.
  - unfold volume_down in H. apply in_app_or in H as [H|H].
    + destruct (has_win32api env); [apply repeat_key_In in H; discriminate | destruct H].
    + simpl in H. intuition discriminate.
  - unfold mute in H. destruct (has_win32api env); simpl in H; intuition discriminate.
  - unfold screenshot in H. destruct (has_pyautogui env);
      simpl in H; intuition discriminate.
  - apply web_search_url in H as [-> N]. split; [eexists; reflexivity | exact N].
  - destruct H.
Qed.

(** X5.  Whatever the command, the only URLs the router opens are search
    URLs, the query with [+] for each space, and no URL holds a space:
    no site of the registry is ever opened. *)
Theorem route_opens_search_urls_only (env : Env) (clean url : text) :
  In (OpenUrl url) (route env clean) ->
  (exists q, url = SEARCH_URL ++ plus_for_space q)
  /\ no_space url = true
  /\ ~ In url (map snd WEBSITES).
Proof.
  intros H. destruct (route_url_is_search env clean url H) as [[q E] N].
  split; [exists q; exact E|]. split; [exact N|].
  intros I.
  assert (S : forallb (fun u => length u <? length SEARCH_URL) (map snd WEBSITES) = true)
    by (vm_compute; reflexivity).
  rewrite forallb_forall in S. specialize (S url I).
  apply Nat.ltb_lt in S. rewrite E, length_app in S. lia.
Qed.

Lemma route_opens_search_urls_only_witness :
  In (OpenUrl (txt "https://www.google.com/search?q=pizza+near+me"))
     (route full_env (txt "search for pizza near me"))
  /\ (exists q, txt "https://www.google.com/search?q=pizza+near+me"
                = SEARCH_URL ++ plus_for_space q)
  /\ no_space (txt "https://www.google.com/search?q=pizza+near+me") = true
  /\ ~ In (txt "https://www.google.com/search?q=pizza+near+me") (map snd WEBSITES).
Proof.
  assert (H : In (OpenUrl (txt "https://www.google.com/search?q=pizza+near+me"))
                 (route full_env (txt "search for pizza near me")))
    by (vm_compute; left; reflexivity).
  split; [exact H|].
  exact (route_opens_search_urls_only full_env _ _ H).
Defined.

(** X6.  Whatever the command, a program the router starts is the path
    of a key of the application registry, with its variables expanded:
    nothing outside the registry is ever started. *)
Theorem route_starts_registry_programs_only (env : Env) (clean path : text) :
  In (Popen path) (route env clean) ->
  exists k, In k (keys APP_PATHS)
            /\ path = expandvars env (item APP_PATHS k)
            /\ popen_ok env path = true.
Proof.
  route_branches clean; intros H.
  - unfold web_search in H. simpl in H. intuition discriminate.
  - unfold close_foreground in H. destruct (has_pyautogui env);
      simpl in H; intuition discriminate.
  - unfold open_app in H.
    destruct (found _) as [choice|] eqn:F;
      [|simpl in H; intuition discriminate].
    apply found_some, resolve_member in F.
    destruct (popen_ok env _) eqn:O; simpl in H; [|intuition discriminate].
    destruct H as [H|[H|[]]]; [|discriminate].
    injection H as <-. exists choice. auto.
  - rewrite (open_site_shadowed clean Eapp) in Esite. discriminate.
  - unfold tell_time in H. simpl in H. intuition discriminate.
  - unfold volume_up in H. apply in_app_or in H as [H|H].
    + destruct (has_win32api env); [apply repeat_key_In in H; discriminate | destruct H].
    + simpl in H. intuition discriminate.
  - unfold volume_down in H. apply in_app_or in H as [H|H].
    + destruct (has_win32api env); [apply repeat_key_In in H; discriminate | destruct H].
    + simpl in H. intuition discriminate.
  - unfold mute in H. destruct (has_win32api env); simpl in H; intuition discriminate.
  - unfold screenshot in H. destruct (has_pyautogui env);
      simpl in H; intuition discriminate.
  - unfold web_search in H. simpl in H. intuition discriminate.
  - destruct H.
Qed.

Lemma route_starts_registry_programs_only_witness :
  In (Popen (txt "notepad.exe")) (route full_env (txt "open notepat for me"))
  /\ exists k, In k (keys APP_PATHS)
               /\ txt "notepad.exe" = expandvars full_env (item APP_PATHS k)
               /\ popen_ok full_env (txt "notepad.exe") = true.
Proof.
  assert (H : In (Popen (txt "notepad.exe"))
                 (route full_env (txt "open notepat for me")))
    by (vm_compute; left; reflexivity).
  split; [exact H|].
  exact (route_starts_registry_programs_only full_env _ _ H).
Defined.

Lemma ends_with_say (pre : list Action) (msg : text) :
  forallb (fun a => negb (is_say a)) pre = true ->
  pre ++ [Say msg] = [] \/
  exists pre' msg', pre ++ [Say msg] = pre' ++ [Say msg']
                    /\ forallb (fun a => negb (is_say a)) pre' = true.
Proof. intros H. right. exists pre, msg. auto. Qed.

(** X7.  Whatever the command, the router either does nothing or ends
    with one spoken message, all other actions coming before it: every
    command that is dispatched is announced, once. *)
Theorem route_announces_once (env : Env) (clean : text) :
  route env clean = [] \/
  exists pre msg, route env clean = pre ++ [Say msg]
                  /\ forallb (fun a => negb (is_say a)) pre = true.
Proof.
  assert (W : forall q, web_search q = [] \/
                exists pre msg, web_search q = pre ++ [Say msg]
                  /\ forallb (fun a => negb (is_say a)) pre = true).
  { intros q. apply (ends_with_say [OpenUrl _]). reflexivity. }
  route_branches clean.
  - apply W.
  - unfold close_foreground. destruct (has_pyautogui env).
    + apply (ends_with_say [Hotkey _]). reflexivity.
    + apply (ends_with_say []). reflexivity.
  - unfold open_app. destruct (found _) as [choice|].
    + destruct (popen_ok env _).
      * apply (ends_with_say [Popen _]). reflexivity.
      * apply (ends_with_say []). reflexivity.
    + apply (ends_with_say []). reflexivity.
  - unfold open_site. destruct (found _) as [choice|].
    + apply (ends_with_say [OpenUrl _]). reflexivity.
    + destruct (strip_prefix _ _); [apply W|].
      apply (ends_with_say []). reflexivity.
  - apply (ends_with_say []). reflexivity.
  - unfold volume_up. apply ends_with_say.
    destruct (has_win32api env); reflexivity.
  - unfold volume_down. apply ends_with_say.
    destruct (has_win32api env); reflexivity.
  - unfold mute. apply ends_with_say.
    destruct (has_win32api env); reflexivity.
  - unfold screenshot. destruct (has_pyautogui env).
    + apply (ends_with_say [SaveScreenshot]). reflexivity.
    + apply (ends_with_say []). reflexivity.
  - apply W.
  - left. reflexivity.
Qed.

(** ** Whole runs of the session *)

Lemma phrase_texts (p t : text) :
  match strip_prefix p t with Some r => at_end r | None => false end = true ->
  t = p \/ t = p ++ [newline].
Proof.
  destruct (strip_prefix p t) as [r|] eqn:S; [|discriminate].
  apply strip_prefix_app in S. subst t.
  destruct r as [|c [|d r]]; simpl; try discriminate.
  - intros _. left. apply app_nil_r.
  - intros H. apply Ascii.eqb_eq in H. subst c. right. reflexivity.
Qed.

Lemma match_phrases_texts (ps : list text) (t : text) :
  match_phrases ps t = true ->
  exists p, In p ps /\ (t = p \/ t = p ++ [newline]).
Proof.
  unfold match_phrases. intros H. apply existsb_exists in H as (p & I & H).
  exists p. split; [exact I | apply phrase_texts; exact H].
Qed.

(** A text that passes the gate is matched by none of the patterns for
    the volume, for mute and for the screenshot. *)
Lemma gate_blocks_media (clean : text) :
  _gate_intent clean = true ->
  VOLUME_UP_PAT clean = false /\ VOLUME_DOWN_PAT clean = false
  /\ MUTE_PAT clean = false /\ SCREENSHOT_PAT clean = false.
Proof.
  intros G.
  assert (B : forall ps,
             forallb (fun p => negb (_gate_intent p)
                               && negb (_gate_intent (p ++ [newline]))) ps = true ->
             match_phrases ps clean = false).
  { intros ps F. destruct (match_phrases ps clean) eqn:M; [|reflexivity].
    apply match_phrases_texts in M as (p & I & E).
    rewrite forallb_forall in F. specialize (F p I).
    apply andb_true_iff in F as [F1 F2]. apply negb_true_iff in F1, F2.
    destruct E as [-> | ->]; congruence. }
  repeat split; apply B; vm_compute; reflexivity.
Qed.

Lemma route_gated_no_media (env : Env) (clean : text) :
  _gate_intent clean = true -> existsb media_action (route env clean) = false.
Proof.
  intros G. destruct (gate_blocks_media clean G) as (Bu & Bd & Bm & Bs).
  unfold route. rewrite Bu, Bd, Bm, Bs.
  destruct (SEARCH_PAT clean) as [q|]; [reflexivity|].
  destruct (CLOSE_PAT clean) as [target|].
  { unfold close_foreground. destruct (has_pyautogui env); reflexivity. }
  destruct (OPEN_APP_PAT clean) as [target|].
  { unfold open_app. destruct (found _); [destruct (popen_ok env _)|]; reflexivity. }
  destruct (OPEN_SITE_PAT clean) as [target|].
  { unfold open_site. destruct (found _); [reflexivity|].
    destruct (strip_prefix _ _); reflexivity. }
  destruct (TIME_PAT clean); [reflexivity|].
  destruct (strip_prefix (txt "google ") clean); reflexivity.
Qed.

Lemma command_no_media (table : dict text) (env : Env) (st : Nova) (t : text) :
  existsb media_action (snd (command table env st t)) = false.
Proof.
  unfold command. destruct (cleaned table t) as [|c n] eqn:C; [reflexivity|].
  destruct (_gate_intent (c :: n)) eqn:G; [|reflexivity].
  simpl. apply route_gated_no_media. exact G.
Qed.

Lemma on_event_no_media (env : Env) (st : Nova) (e : TranscriptEvent) :
  existsb media_action (snd (on_event env st e)) = false.
Proof.
  destruct e as [t|t]; cbn [on_event].
  - unfold on_partial. destruct (negb (awake st) && fuzzy_wake t); reflexivity.
  - unfold on_final. destruct (normalize t) as [|c n]; [reflexivity|].
    destruct (negb (awake st)); [destruct (fuzzy_wake (c :: n)); reflexivity|].
    apply command_no_media.
Qed.

Lemma on_text_no_media (env : Env) (st : Nova) (t : text) :
  existsb media_action (snd (on_text env st t)) = false.
Proof.
  unfold on_text.
  destruct (negb (awake st)); [destruct (fuzzy_wake (normalize t)); reflexivity|].
  apply command_no_media.
Qed.

(** The tests for an empty text in [listen_forever] change nothing:
    [on_final] and [on_partial] do nothing on an empty text. *)
Lemma listen_step_on_event (env : Env) (st : Nova) (e : TranscriptEvent) :
  listen_step env st e = on_event env st e.
Proof.
  assert (F : fuzzy_wake [] = false) by (vm_compute; reflexivity).
  destruct e as [[|c t]|[|c t]]; cbn [listen_step on_event]; try reflexivity.
  unfold on_partial. rewrite F, andb_false_r. reflexivity.
Qed.

Lemma listen_forever_cons (env : Env) (st : Nova) (e : TranscriptEvent)
    (es : list TranscriptEvent) :
  listen_forever env st (e :: es)
  = (fst (listen_forever env (fst (on_event env st e)) es),
     snd (on_event env st e) ++ snd (listen_forever env (fst (on_event env st e)) es)).
Proof.
  cbn [listen_forever]. rewrite listen_step_on_event.
  destruct (on_event env st e) as [st1 a1]. simpl.
  destruct (listen_forever env st1 es). reflexivity.
Qed.

Lemma listen_loop_cons (env : Env) (st : Nova) (t : text) (heard : list text) :
  listen_loop env st (t :: heard)
  = (fst (listen_loop env (fst (listen_loop_step env st t)) heard),
     snd (listen_loop_step env st t)
     ++ snd (listen_loop env (fst (listen_loop_step env st t)) heard)).
Proof.
  cbn [listen_loop].
  destruct (listen_loop_step env st t) as [st1 a1]. simpl.
  destruct (listen_loop env st1 heard). reflexivity.
Qed.

(** X8.  In no run of [listen_forever] or of [listen_loop], from any
    state and on any platform, is a volume key pressed or a screenshot
    taken: the gate lets no text through that the patterns for volume,
    mute and screenshot match. *)
Theorem media_actions_never_happen (env : Env) (st : Nova)
    (es : list TranscriptEvent) (heard : list text) :
  existsb media_action (snd (listen_forever env st es)) = false
  /\ existsb media_action (snd (listen_loop env st heard)) = false.
Proof.
  split.
  - revert st. induction es as [|e es IH]; intros st; [reflexivity|].
    rewrite listen_forever_cons. cbn [snd]. rewrite existsb_app.
    rewrite on_event_no_media, IH. reflexivity.
  - revert st. induction heard as [|t heard IH]; intros st; [reflexivity|].
    rewrite listen_loop_cons. cbn [snd]. rewrite existsb_app, IH, orb_false_r.
    unfold listen_loop_step. destruct (strip t) as [|c s]; [reflexivity|].
    apply on_text_no_media.
Qed.

Lemma command_bypass (table : dict text) (env : Env) (st : Nova) (t : text) :
  bypass_wake (fst (command table env st t)) = bypass_wake st
  /\ (bypass_wake st = true -> awake st = true ->
      awake (fst (command table env st t)) = true).
Proof.
  unfold command. destruct (cleaned table t) as [|c n]; [auto|].
  destruct (_gate_intent (c :: n)); simpl; auto.
Qed.

Lemma on_event_bypass (env : Env) (st : Nova) (e : TranscriptEvent) :
  bypass_wake (fst (on_event env st e)) = bypass_wake st
  /\ (bypass_wake st = true -> awake st = true ->
      awake (fst (on_event env st e)) = true).
Proof.
  destruct e as [t|t]; cbn [on_event].
  - unfold on_partial.
    destruct (negb (awake st) && fuzzy_wake t); cbn [fst set_awake awake bypass_wake]; auto.
  - unfold on_final. destruct (normalize t) as [|c n]; [auto|].
    destruct (negb (awake st)).
    + destruct (fuzzy_wake (c :: n)); cbn [fst set_awake awake bypass_wake]; auto.
    + apply command_bypass.
Qed.

Lemma on_text_bypass (env : Env) (st : Nova) (t : text) :
  bypass_wake (fst (on_text env st t)) = bypass_wake st
  /\ (bypass_wake st = true -> awake st = true ->
      awake (fst (on_text env st t)) = true).
Proof.
  unfold on_text. destruct (negb (awake st)).
  - destruct (fuzzy_wake (normalize t)); simpl; auto.
  - apply command_bypass.
Qed.

Lemma nova_eta (st : Nova) : st = mkNova (awake st) (bypass_wake st).
Proof. destruct st. reflexivity. Qed.

(** X9.  No run changes the bypass setting of the session, and a session
    made with the bypass, which starts awake, is awake after every event:
    it is never put to sleep. *)
Theorem bypass_pins_session_awake (env : Env)
    (es : list TranscriptEvent) (heard : list text) :
  (forall st, bypass_wake (fst (listen_forever env st es)) = bypass_wake st)
  /\ (forall st, bypass_wake (fst (listen_loop env st heard)) = bypass_wake st)
  /\ fst (listen_forever env (init_nova true) es) = init_nova true
  /\ fst (listen_loop env (init_nova true) heard) = init_nova true.
Proof.
  assert (F : forall st,
             bypass_wake (fst (listen_forever env st es)) = bypass_wake st
             /\ (bypass_wake st = true -> awake st = true ->
                 awake (fst (listen_forever env st es)) = true)).
  { induction es as [|e es IH]; intros st; [simpl; auto|].
    rewrite listen_forever_cons. cbn [fst].
    destruct (on_event_bypass env st e) as [B A].
    destruct (IH (fst (on_event env st e))) as [B' A'].
    split; [congruence|]. intros Hb Ha. apply A'; [congruence | auto]. }
  assert (L : forall st,
             bypass_wake (fst (listen_loop env st heard)) = bypass_wake st
             /\ (bypass_wake st = true -> awake st = true ->
                 awake (fst (listen_loop env st heard)) = true)).
  { induction heard as [|t heard IH]; intros st; [simpl; auto|].
    rewrite listen_loop_cons. cbn [fst].
    assert (S : bypass_wake (fst (listen_loop_step env st t)) = bypass_wake st
                /\ (bypass_wake st = true -> awake st = true ->
                    awake (fst (listen_loop_step env st t)) = true)).
    { unfold listen_loop_step. destruct (strip t) as [|c s]; [auto|].
      apply on_text_bypass. }
    destruct S as [B A].
    destruct (IH (fst (listen_loop_step env st t))) as [B' A'].
    split; [congruence|]. intros Hb Ha. apply A'; [congruence | auto]. }
  split; [intros st; apply F|]. split; [intros st; apply L|]. split.
  - destruct (F (init_nova true)) as [B A].
    rewrite (nova_eta (fst _)), B, A by reflexivity. reflexivity.
  - destruct (L (init_nova true)) as [B A].
    rewrite (nova_eta (fst _)), B, A by reflexivity. reflexivity.
Qed.

Lemma is_space_lower (c : ascii) : is_space (lower_char c) = is_space c.
Proof. destruct c as [[] [] [] [] [] [] [] []]; vm_compute; reflexivity. Qed.

Lemma lower_lstrip (t : text) : lower (lstrip t) = lstrip (lower t).
Proof.
  induction t as [|c t IH]; [reflexivity|].
  cbn [lstrip lower map]. rewrite is_space_lower.
  destruct (is_space c); [exact IH | reflexivity].
Qed.

Lemma lower_rstrip (t : text) : lower (rstrip t) = rstrip (lower t).
Proof.
  induction t as [|c t IH]; [reflexivity|].
  cbn [lower map]. fold (lower t). cbn [rstrip]. rewrite <- IH.
  destruct (rstrip t) as [|d r]; cbn [lower map].
  - rewrite is_space_lower. destruct (is_space c); reflexivity.
  - reflexivity.
Qed.

Lemma strip_lower (t : text) : strip (lower t) = lower (strip t).
Proof. unfold strip. rewrite lower_rstrip, lower_lstrip. reflexivity. Qed.

Lemma fuzzy_wake_strip (t : text) : fuzzy_wake (strip t) = fuzzy_wake t.
Proof.
  rewrite <- (fuzzy_wake_normalize (strip t)), <- (fuzzy_wake_normalize t).
  unfold normalize. rewrite strip_lower, strip_idem, <- strip_lower. reflexivity.
Qed.

(** X10.  From an asleep session a run of events none of which has a
    wake phrase does nothing at all and leaves the session asleep,
    however long it is and whatever commands the events spell; so it is
    for the loop of [mainv3.py] and for the loop of [mainv4.py]. *)
Theorem asleep_run_is_silent (env : Env) (st : Nova)
    (es : list TranscriptEvent) (heard : list text) :
  awake st = false ->
  forallb (fun e => negb (fuzzy_wake (event_text e))) es = true ->
  forallb (fun t => negb (fuzzy_wake t)) heard = true ->
  listen_forever env st es = (st, []) /\ listen_loop env st heard = (st, []).
Proof.
  intros A Hes Hheard. split.
  - induction es as [|e es IH]; [reflexivity|].
    cbn [forallb] in Hes. apply andb_true_iff in Hes as [He Hes].
    apply negb_true_iff in He.
    assert (E : on_event env st e = (st, [])).
    { destruct e as [t|t]; cbn [on_event event_text] in *.
      - unfold on_partial. rewrite A, He. reflexivity.
      - rewrite on_final_asleep, He by assumption. reflexivity. }
    rewrite listen_forever_cons, E. cbn [fst snd]. rewrite (IH Hes). reflexivity.
  - induction heard as [|t heard IH]; [reflexivity|].
    cbn [forallb] in Hheard. apply andb_true_iff in Hheard as [Ht Hheard].
    apply negb_true_iff in Ht.
    assert (E : listen_loop_step env st t = (st, [])).
    { unfold listen_loop_step. destruct (strip t) as [|c s] eqn:S; [reflexivity|].
      rewrite on_text_asleep, <- S, fuzzy_wake_strip, Ht by assumption.
      reflexivity. }
    rewrite listen_loop_cons, E. cbn [fst snd]. rewrite (IH Hheard). reflexivity.
Qed.

Lemma asleep_run_is_silent_witness :
  awake (init_nova false) = false
  /\ forallb (fun e => negb (fuzzy_wake (event_text e)))
             [Partial (txt "open"); Final (txt "open chrome");
              Final (txt "search for they nova")] = true
  /\ forallb (fun t => negb (fuzzy_wake t))
             [txt " Open Chrome. "; txt "hey, nova"] = true
  /\ listen_forever full_env (init_nova false)
       [Partial (txt "open"); Final (txt "open chrome");
        Final (txt "search for they nova")]
     = (init_nova false, [])
  /\ listen_loop full_env (init_nova false) [txt " Open Chrome. "; txt "hey, nova"]
     = (init_nova false, []).
Proof.
  assert (A : awake (init_nova false) = false) by reflexivity.
  assert (H : forallb (fun e => negb (fuzzy_wake (event_text e)))
                [Partial (txt "open"); Final (txt "open chrome");
                 Final (txt "search for they nova")] = true)
    by (vm_compute; reflexivity).
  assert (H' : forallb (fun t => negb (fuzzy_wake t))
                 [txt " Open Chrome. "; txt "hey, nova"] = true)
    by (vm_compute; reflexivity).
  split; [exact A|]. split; [exact H|]. split; [exact H'|].
  exact (asleep_run_is_silent full_env (init_nova false) _ _ A H H').
Defined.

Lemma on_event_awake_final (env : Env) (st : Nova) (t : text) :
  awake st = true -> bypass_wake st = false ->
  on_event env st (Final t)
  = if _gate_intent (cleaned CONFUSIONS (normalize t))
    then (mkNova false false, route env (cleaned CONFUSIONS (normalize t)))
    else (st, []).
Proof.
  intros A B. cbn [on_event].
  assert (F : on_final env st t = command CONFUSIONS env st (normalize t)).
  { unfold on_final. rewrite A. destruct (normalize t); reflexivity. }
  rewrite F. apply command_awake. exact B.
Qed.

Lemma on_event_asleep (env : Env) (st : Nova) (e : TranscriptEvent) :
  awake st = false ->
  fst (on_event env st e)
  = if fuzzy_wake (event_text e) then set_awake st true else st.
Proof.
  intros A. destruct e as [t|t]; cbn [on_event event_text].
  - unfold on_partial. rewrite A. cbn [negb andb].
    destruct (fuzzy_wake t); reflexivity.
  - rewrite on_final_asleep by assumption. destruct (fuzzy_wake t); reflexivity.
Qed.

(** X11.  In a session without the bypass each wake buys one command at
    most: in any run the number of transcripts that are routed is at
    most the number of events that woke the session, plus one when the
    run starts awake.  Outside a routed transcript the only thing the
    session does is to speak its acknowledgement. *)
Theorem one_command_per_wake (env : Env) (st : Nova) (es : list TranscriptEvent) :
  bypass_wake st = false ->
  routed_count env st es
  <= wake_count env st es + (if awake st then 1 else 0)
  /\ (forall st' e, is_routed st' e = false ->
        forallb is_say (snd (on_event env st' e)) = true).
Proof.
  intros B. split.
  - revert st B. induction es as [|e es IH]; intros st B.
    { cbn [routed_count wake_count]. lia. }
    cbn [routed_count wake_count].
    pose proof (proj1 (on_event_bypass env st e)) as B'. rewrite B in B'.
    specialize (IH _ B').
    enough ((if is_routed st e then 1 else 0)
            + (if awake (fst (on_event env st e)) then 1 else 0)
            <= (if is_wake st e then 1 else 0) + (if awake st then 1 else 0)) by lia.
    unfold is_wake. destruct (awake st) eqn:A.
    + cbn [negb andb]. destruct e as [t|t].
      * cbn [on_event is_routed]. unfold on_partial. rewrite A.
        cbn [negb andb fst]. rewrite A. lia.
      * rewrite on_event_awake_final by assumption. cbn [is_routed]. rewrite A.
        cbn [andb]. destruct (_gate_intent _); cbn [fst awake]; [lia | rewrite A; lia].
    + assert (R : is_routed st e = false).
      { destruct e; cbn [is_routed]; [reflexivity | rewrite A; reflexivity]. }
      rewrite R, on_event_asleep by assumption. cbn [negb andb].
      destruct (fuzzy_wake (event_text e)); cbn [set_awake awake];
        [lia | rewrite A; lia].
  - intros st' e R. destruct e as [t|t]; cbn [on_event is_routed] in *.
    + unfold on_partial. destruct (negb (awake st') && fuzzy_wake t); reflexivity.
    + destruct (awake st') eqn:A.
      * cbn [andb] in R. unfold on_final. rewrite A. cbn [negb].
        destruct (normalize t) as [|c n] eqn:N; [reflexivity|].
        unfold command. rewrite R. cbn [negb].
        destruct (cleaned CONFUSIONS (c :: n)); reflexivity.
      * rewrite on_final_asleep by assumption. destruct (fuzzy_wake t); reflexivity.
Qed.

Lemma one_command_per_wake_witness :
  bypass_wake (init_nova false) = false
  /\ routed_count full_env (init_nova false)
       [Final (txt "hey nova"); Final (txt "open chrome"); Final (txt "open edge")] = 1
  /\ routed_count full_env (init_nova false)
       [Final (txt "hey nova"); Final (txt "open chrome"); Final (txt "open edge")]
     <= wake_count full_env (init_nova false)
          [Final (txt "hey nova"); Final (txt "open chrome"); Final (txt "open edge")]
        + (if awake (init_nova false) then 1 else 0).
Proof.
  assert (B : bypass_wake (init_nova false) = false) by reflexivity.
  split; [exact B|]. split; [vm_compute; reflexivity|].
  exact (proj1 (one_command_per_wake full_env (init_nova false)
                  [Final (txt "hey nova"); Final (txt "open chrome");
                   Final (txt "open edge")] B)).
Defined.

(** ** The streams of the listener *)

Lemma made_streams_app (x y : list StreamEvent) :
  made_streams (x ++ y) = made_streams x ++ made_streams y.
Proof.
  induction x as [|e x IH]; [reflexivity|].
  destruct e; simpl; rewrite IH; reflexivity.
Qed.

Lemma closed_streams_app (x y : list StreamEvent) :
  closed_streams (x ++ y) = closed_streams x ++ closed_streams y.
Proof.
  induction x as [|e x IH]; [reflexivity|].
  destruct e; simpl; rewrite IH; reflexivity.
Qed.

Lemma start_loop_spec (attempt : N -> Stage) (rates : list N) :
  forall l, stream l = None ->
  made_streams (snd (fst (start_loop attempt rates l)))
  = closed_streams (snd (fst (start_loop attempt rates l)))
    ++ held (fst (fst (start_loop attempt rates l)))
  /\ match snd (try_rates (opens_at attempt) rates) with
     | Some r =>
         snd (start_loop attempt rates l) = true
         /\ fst (fst (start_loop attempt rates l)) = mkListener (Some r) (Some r)
     | None =>
         snd (start_loop attempt rates l) = false
         /\ fst (fst (start_loop attempt rates l))
            = match rates with [] => l | _ => mkListener None None end
     end.
Proof.
  induction rates as [|rate rest IH]; intros l Hl.
  - simpl. unfold held. rewrite Hl. auto.
  - cbn [start_loop try_rates]. unfold try_rate, opens_at at 1, close_and_reset.
    destruct (attempt rate) eqn:A; cbn [stream fst snd].
    + rewrite Hl.
      destruct (IH (mkListener None None) eq_refl) as [B S].
      destruct (start_loop attempt rest (mkListener None None)) as [[l3 later] ok].
      destruct (try_rates (opens_at attempt) rest) as [tried r].
      cbn [fst snd app] in *. split; [exact B|].
      destruct r as [r|]; [exact S|].
      destruct S as [S1 S2]. split; [exact S1|]. destruct rest; exact S2.
    + rewrite Hl.
      destruct (IH (mkListener None None) eq_refl) as [B S].
      destruct (start_loop attempt rest (mkListener None None)) as [[l3 later] ok].
      destruct (try_rates (opens_at attempt) rest) as [tried r].
      cbn [fst snd app] in *. split; [exact B|].
      destruct r as [r|]; [exact S|].
      destruct S as [S1 S2]. split; [exact S1|]. destruct rest; exact S2.
    + destruct (IH (mkListener None None) eq_refl) as [B S].
      destruct (start_loop attempt rest (mkListener None None)) as [[l3 later] ok].
      destruct (try_rates (opens_at attempt) rest) as [tried r].
      cbn [fst snd app made_streams closed_streams] in *.
      split; [rewrite B; reflexivity|].
      destruct r as [r|]; [exact S|].
      destruct S as [S1 S2]. split; [exact S1|]. destruct rest; exact S2.
    + cbn [fst snd]. split; [reflexivity | split; reflexivity].
Qed.

(** X12.  [start], on a listener that holds no stream: every stream it
    makes and does not keep it closes, in the order in which they were
    made; it returns exactly when some rate opens, and then it holds the
    recogniser and the stream of the first such rate; when it raises, no
    stream is left open and both fields are reset. *)
Theorem start_releases_failed_streams (attempt : N -> Stage) (l : Listener) :
  stream l = None ->
  made_streams (snd (fst (start_streams attempt l)))
  = closed_streams (snd (fst (start_streams attempt l)))
    ++ held (fst (fst (start_streams attempt l)))
  /\ (forall r, snd (start (opens_at attempt)) = Started r ->
        snd (start_streams attempt l) = true
        /\ fst (fst (start_streams attempt l)) = mkListener (Some r) (Some r))
  /\ (forall msg, snd (start (opens_at attempt)) = DeviceUnavailable msg ->
        snd (start_streams attempt l) = false
        /\ fst (fst (start_streams attempt l)) = new_listener
        /\ made_streams (snd (fst (start_streams attempt l)))
           = closed_streams (snd (fst (start_streams attempt l)))).
Proof.
  intros Hl. unfold start_streams, start.
  destruct (start_loop_spec attempt RATES l Hl) as [B S].
  destruct (try_rates (opens_at attempt) RATES) as [tried r].
  cbn [fst snd] in *. split; [exact B|].
  destruct r as [r|]; split.
  - intros r' [= <-]. exact S.
  - intros msg C. discriminate.
  - intros r' C. discriminate.
  - intros msg _. destruct S as [S1 S2]. split; [exact S1|]. split; [exact S2|].
    rewrite B, S2. apply app_nil_r.
Qed.

Lemma start_releases_failed_streams_witness :
  let attempt := fun r => if (r =? 16000)%N then StartFails
                          else if (r =? 44100)%N then StreamFails else Opens in
  stream new_listener = None
  /\ snd (fst (start_streams attempt new_listener))
     = [StreamMade 16000; StreamClosed 16000; StreamMade 48000; StreamStarted 48000]%N
  /\ made_streams (snd (fst (start_streams attempt new_listener)))
     = closed_streams (snd (fst (start_streams attempt new_listener)))
       ++ held (fst (fst (start_streams attempt new_listener))).
Proof.
  cbv zeta.
  assert (H : stream new_listener = None) by reflexivity.
  split; [exact H|]. split; [vm_compute; reflexivity|].
  exact (proj1 (start_releases_failed_streams
                  (fun r => if (r =? 16000)%N then StartFails
                            else if (r =? 44100)%N then StreamFails else Opens)
                  new_listener H)).
Defined.

Lemma try_rates_opens (opens : N -> bool) (rates : list N) :
  match snd (try_rates opens rates) with
  | Some r => existsb opens rates = true
  | None => existsb opens rates = false
  end.
Proof.
  induction rates as [|rate rest IH]; [reflexivity|].
  simpl. destruct (opens rate); [reflexivity|].
  destruct (try_rates opens rest) as [tried r]. exact IH.
Qed.

(** X13.  A whole run of [Nova.run]: the greeting is spoken first,
    whatever the microphone does; the run returns exactly when some rate
    opens, and otherwise nothing but the greeting has happened; the
    error of a listener without a recogniser never arises; and when the
    run is over every stream that was made has been closed, in the
    order in which the streams were made. *)
Theorem run_closes_every_stream (attempt : N -> Stage) (env : Env)
    (bypass : bool) (es : list TranscriptEvent) :
  made_streams (snd (fst (run attempt env bypass es)))
  = closed_streams (snd (fst (run attempt env bypass es)))
  /\ hd_error (fst (fst (run attempt env bypass es))) = Some (Say (txt "Nova online"))
  /\ snd (run attempt env bypass es) <> Raised (txt "Recognizer not initialised.")
  /\ (snd (run attempt env bypass es) = Returned <->
      existsb (opens_at attempt) RATES = true)
  /\ (snd (run attempt env bypass es) <> Returned ->
      fst (fst (run attempt env bypass es)) = [Say (txt "Nova online")]).
Proof.
  unfold run, start_streams.
  destruct (start_loop_spec attempt RATES new_listener eq_refl) as [B S].
  pose proof (try_rates_opens (opens_at attempt) RATES) as O.
  destruct (start_loop attempt RATES new_listener) as [[l evs] ok].
  destruct (try_rates (opens_at attempt) RATES) as [tried r].
  cbn [fst snd] in *.
  destruct r as [r|]; destruct S as [-> ->].
  - unfold stop. cbn [stream rec].
    destruct (listen_forever env (init_nova bypass) es) as [st acts].
    cbn [fst snd]. rewrite made_streams_app, closed_streams_app, B.
    cbn [made_streams closed_streams held stream]. rewrite app_nil_r.
    split; [reflexivity|]. split; [reflexivity|]. split; [discriminate|].
    split; [tauto|]. intros C. exfalso. apply C. reflexivity.
  - cbn [fst snd]. split; [rewrite B; apply app_nil_r|].
    split; [reflexivity|]. split; [vm_compute; discriminate|].
    split; [|reflexivity]. rewrite O. split; discriminate.
Qed.

(** ** The audio buffer *)

Section BufferFacts.
Variable sample : Type.

Lemma buffer_run_conserves (n : nat) (ops : list (BufferOp sample)) :
  forall buffer,
  concat (snd (buffer_run n buffer ops)) ++ fst (buffer_run n buffer ops)
  = buffer ++ captured ops
  /\ Forall (fun chunk => length chunk = n) (snd (buffer_run n buffer ops))
  /\ length (snd (buffer_run n buffer ops)) <= polls ops.
Proof.
  induction ops as [|op ops IH]; intros buffer.
  - simpl. rewrite app_nil_r. repeat split; [constructor | lia].
  - destruct op as [pcm|]; cbn [buffer_run captured].
    + destruct (IH (buffer ++ pcm)) as (C & F & L).
      rewrite C, app_assoc. repeat split; assumption.
    + unfold take_chunk. unfold polls in *. cbn [filter length].
      destruct (Nat.leb_spec n (length buffer)) as [Le|Gt].
      * destruct (IH (skipn n buffer)) as (C & F & L).
        destruct (buffer_run n (skipn n buffer) ops) as [b chunks].
        cbn [fst snd concat length] in *. repeat split.
        -- rewrite <- app_assoc, C, app_assoc, firstn_skipn. reflexivity.
        -- constructor; [|assumption]. rewrite length_firstn. lia.
        -- lia.
      * destruct (IH buffer) as (C & F & L). repeat split; try assumption. lia.
Qed.

Lemma buffer_run_drains (n k : nat) :
  forall buffer : list sample,
  length buffer < (k + 1) * n ->
  length (fst (buffer_run n buffer (repeat (Poll sample) k))) < n.
Proof.
  induction k as [|k IH]; intros buffer H.
  - simpl in *. lia.
  - cbn [repeat buffer_run]. unfold take_chunk.
    destruct (Nat.leb_spec n (length buffer)) as [Le|Gt].
    + specialize (IH (skipn n buffer)).
      destruct (buffer_run n (skipn n buffer) (repeat (Poll sample) k)) as [b chunks].
      cbn [fst] in *. apply IH. rewrite length_skipn. lia.
    + apply IH. nia.
Qed.

(** X14.  The buffer of [WhisperListener] loses, repeats and reorders
    no sample: the chunks handed to the transcriber, in order, followed
    by what is left in the buffer, are the samples that were in the
    buffer followed by those the callbacks brought.  Each chunk has the
    chunk size exactly, a turn of the loop hands over one chunk at most,
    and enough turns without new audio leave less than a chunk in the
    buffer.  The chunk size of the program is 24000 samples. *)
Theorem buffer_keeps_every_sample (n : nat) (buffer : list sample)
    (ops : list (BufferOp sample)) (k : nat) :
  length (buffer ++ captured ops) < (k + 1) * n ->
  concat (snd (buffer_run n buffer ops)) ++ fst (buffer_run n buffer ops)
  = buffer ++ captured ops
  /\ Forall (fun chunk => length chunk = n) (snd (buffer_run n buffer ops))
  /\ length (snd (buffer_run n buffer ops)) <= polls ops
  /\ length (fst (buffer_run n (fst (buffer_run n buffer ops))
                    (repeat (Poll sample) k))) < n
  /\ N.of_nat frames_per_chunk = 24000%N.
Proof.
  intros H. destruct (buffer_run_conserves n ops buffer) as (C & F & L).
  split; [exact C|]. split; [exact F|]. split; [exact L|].
  split; [|unfold frames_per_chunk; rewrite N2Nat.id; reflexivity].
  apply buffer_run_drains.
  rewrite <- C, length_app in H. lia.
Qed.
End BufferFacts.

Lemma buffer_keeps_every_sample_witness :
  length ([1; 2; 3] ++ captured [Callback [4; 5]; Poll nat; Callback [6; 7; 8]; Poll nat])
  < (2 + 1) * 3
  /\ buffer_run 3 [1; 2; 3] [Callback [4; 5]; Poll nat; Callback [6; 7; 8]; Poll nat]
     = ([7; 8], [[1; 2; 3]; [4; 5; 6]])
  /\ concat (snd (buffer_run 3 [1; 2; 3]
                    [Callback [4; 5]; Poll nat; Callback [6; 7; 8]; Poll nat]))
     ++ fst (buffer_run 3 [1; 2; 3]
               [Callback [4; 5]; Poll nat; Callback [6; 7; 8]; Poll nat])
     = [1; 2; 3] ++ captured [Callback [4; 5]; Poll nat; Callback [6; 7; 8]; Poll nat].
Proof.
  assert (H : length ([1; 2; 3] ++ captured [Callback [4; 5]; Poll nat;
                                            Callback [6; 7; 8]; Poll nat])
              < (2 + 1) * 3) by (vm_compute; lia).
  split; [exact H|]. split; [vm_compute; reflexivity|].
  exact (proj1 (buffer_keeps_every_sample 3 [1; 2; 3]
                  [Callback [4; 5]; Poll nat; Callback [6; 7; 8]; Poll nat] 2 H)).
Defined.

(** ** How far a fuzzy match can be from the name *)

Lemma cutoff_ratio (m len : nat) :
  len <> 0 -> (Difflib.cutoff <= Difflib.calculate_ratio m len)%Q ->
  7 * len <= 20 * m.
Proof.
  intros Hl H. unfold Difflib.calculate_ratio in H.
  destruct (Nat.eqb_spec len 0) as [E|_]; [contradiction|].
  unfold Difflib.cutoff, Qle in H. cbn [Qnum Qden] in H.
  assert (P : Z.pos (Pos.of_nat len) = Z.of_nat len).
  { rewrite <- positive_nat_Z, Nat2Pos.id by assumption. reflexivity. }
  rewrite P in H. lia.
Qed.

(** X15.  A key that [resolve_name_fuzzy] returns and that is not the
    name itself, after the alias table, is close to the name in length
    and in letters: the matched characters are at least seven twentieths
    of the two lengths together, so neither text is longer than thirteen
    sevenths of the other, the two share at least that many characters
    as bags, and neither is empty.  A name of one letter, for one,
    resolves to no longer key. *)
Theorem resolve_name_fuzzy_near_name
    (name : text) (choices : list text) (extra_alias : option (dict text))
    (k : text) :
  resolve_name_fuzzy name choices extra_alias = Some k ->
  k <> effective_name name extra_alias ->
  7 * (length k + length (effective_name name extra_alias))
  <= 20 * Difflib.matches k (effective_name name extra_alias)
  /\ 7 * length k <= 13 * length (effective_name name extra_alias)
  /\ 7 * length (effective_name name extra_alias) <= 13 * length k
  /\ 7 * (length k + length (effective_name name extra_alias))
     <= 20 * isect k (fun c => Difflib.count c (effective_name name extra_alias))
  /\ k <> [] /\ effective_name name extra_alias <> [].
Proof.
  unfold resolve_name_fuzzy. set (e := effective_name name extra_alias).
  destruct (mem e choices) eqn:M; [intros [= <-] C; contradiction|].
  intros H Ne.
  apply PickFacts.get_close_matches_some in H as (Hin & Hk & _).
  assert (L : length k + length e <> 0).
  { intros Z. destruct k; [|simpl in Z; lia]. destruct e; [|simpl in Z; lia].
    contradiction. }
  pose proof (cutoff_ratio _ L Hk) as R.
  pose proof (DifflibFacts.matched_le_min (Difflib.is_popular e) (length k) k e) as B1.
  pose proof (DifflibFacts.matched_le_isect (Difflib.is_popular e) (length k) k e) as B2.
  fold (Difflib.matches k e) in B1, B2.
  split; [exact R|]. split; [lia|]. split; [lia|]. split; [lia|].
  split; intros ->; simpl in *; lia.
Qed.

Lemma resolve_name_fuzzy_near_name_witness :
  resolve_name_fuzzy (txt "crome") (keys APP_PATHS) (Some APP_ALIASES)
  = Some (txt "chrome")
  /\ txt "chrome" <> effective_name (txt "crome") (Some APP_ALIASES)
  /\ 7 * length (txt "chrome")
     <= 13 * length (effective_name (txt "crome") (Some APP_ALIASES)).
Proof.
  assert (R : resolve_name_fuzzy (txt "crome") (keys APP_PATHS) (Some APP_ALIASES)
              = Some (txt "chrome")) by (vm_compute; reflexivity).
  assert (N : txt "chrome" <> effective_name (txt "crome") (Some APP_ALIASES))
    by (vm_compute; discriminate).
  split; [exact R|]. split; [exact N|].
  exact (proj1 (proj2 (resolve_name_fuzzy_near_name (txt "crome") (keys APP_PATHS)
                         (Some APP_ALIASES) R N))).
Defined.

(** ** [mainv2.py] *)

Lemma normalize_v2_normalize (t : text) : normalize_v2 t = normalize t.
Proof.
  unfold normalize_v2, normalize, strip.
  rewrite lower_rstrip, lower_lstrip. reflexivity.
Qed.

Lemma lookup_value_In (d : dict text) (k v : text) :
  lookup d k = Some v -> In v (map snd d).
Proof.
  induction d as [|[k' v'] d IH]; [discriminate|].
  cbn [lookup map snd]. destruct (text_eqb k k').
  - intros [= ->]. left. reflexivity.
  - intros H. right. apply IH. exact H.
Qed.

(** X16.  The helpers of [mainv2.py] against those of [mainv3.py].  The
    two normalisers are one function.  The resolver of [mainv2.py]
    returns the value of an alias without a look at the choices; when
    every value of the alias table is a choice, as in the tables of
    [mainv2.py], it returns what the resolver of [mainv3.py] returns,
    and so a choice. *)
Theorem resolve_name_fuzzy_v2_agrees
    (name : text) (choices : list text) (d : dict text) :
  forallb (fun v => mem v choices) (map snd d) = true ->
  resolve_name_fuzzy_v2 name choices (Some d) = resolve_name_fuzzy name choices (Some d)
  /\ resolve_name_fuzzy_v2 name choices None = resolve_name_fuzzy name choices None
  /\ (forall k, resolve_name_fuzzy_v2 name choices (Some d) = Some k -> In k choices)
  /\ forallb (fun v => mem v (keys APP_PATHS_v2)) (map snd APP_ALIASES_v2) = true
  /\ (forall t, normalize_v2 t = normalize t).
Proof.
  intros H.
  assert (E : resolve_name_fuzzy_v2 name choices (Some d)
              = resolve_name_fuzzy name choices (Some d)).
  { unfold resolve_name_fuzzy_v2, resolve_name_fuzzy, effective_name.
    destruct (lookup d (lower (strip name))) as [v|] eqn:L; [|reflexivity].
    apply lookup_value_In in L. rewrite forallb_forall in H.
    rewrite (H v L). reflexivity. }
  split; [exact E|]. split; [reflexivity|]. split.
  - intros k Hk. rewrite E in Hk. apply resolve_member in Hk. exact Hk.
  - split; [vm_compute; reflexivity | apply normalize_v2_normalize].
Qed.

Lemma resolve_name_fuzzy_v2_agrees_witness :
  forallb (fun v => mem v (keys APP_PATHS_v2)) (map snd APP_ALIASES_v2) = true
  /\ resolve_name_fuzzy_v2 (txt " Rome ") (keys APP_PATHS_v2) (Some APP_ALIASES_v2)
     = Some (txt "chrome")
  /\ resolve_name_fuzzy_v2 (txt " Rome ") (keys APP_PATHS_v2) (Some APP_ALIASES_v2)
     = resolve_name_fuzzy (txt " Rome ") (keys APP_PATHS_v2) (Some APP_ALIASES_v2).
Proof.
  assert (H : forallb (fun v => mem v (keys APP_PATHS_v2)) (map snd APP_ALIASES_v2)
              = true) by (vm_compute; reflexivity).
  split; [exact H|]. split; [vm_compute; reflexivity|].
  exact (proj1 (resolve_name_fuzzy_v2_agrees (txt " Rome ") (keys APP_PATHS_v2)
                  APP_ALIASES_v2 H)).
Defined.

Lemma word_run_all (w : text) : forallb is_word w = true -> word_run w = (w, []).
Proof.
  induction w as [|c w IH]; [reflexivity|].
  cbn [forallb word_run]. intros H. apply andb_true_iff in H as [Hc Hw].
  rewrite Hc, (IH Hw). reflexivity.
Qed.

Lemma open_site_v2_no_program (key path : text) :
  ~ In (Popen path) (open_site_v2 key).
Proof.
  unfold open_site_v2. destruct (found _) as [choice|]; cbn [In]; intuition discriminate.
Qed.

(** X17.  In [mainv2.py] the pattern for sites is tried before the
    pattern for applications, and it matches "open" followed by one
    word: such a command goes to [open_site] with that word, whatever
    the word, and starts no program. *)
Theorem open_one_word_goes_to_sites_v2 (env : Env) (w : text) :
  w <> [] -> forallb is_word w = true ->
  OPEN_SITE_PAT_v2 (txt "open " ++ w) = Some w
  /\ route_v2 env (txt "open " ++ w) = open_site_v2 w
  /\ forall path, ~ In (Popen path) (route_v2 env (txt "open " ++ w)).
Proof.
  intros Hne Hw.
  assert (O : OPEN_SITE_PAT_v2 (txt "open " ++ w) = Some w).
  { unfold OPEN_SITE_PAT_v2.
    change (strip_prefix (txt "open") (txt "open " ++ w)) with (Some (" "%char :: w)).
    change (is_space " "%char) with true. cbv iota. unfold site_group.
    destruct w as [|c w']; [contradiction|].
    assert (Hc : is_word c = true).
    { cbn [forallb] in Hw. apply andb_true_iff in Hw. tauto. }
    assert (Hs : is_space c = false).
    { destruct (is_space c) eqn:S; [|reflexivity].
      apply space_not_word in S. congruence. }
    cbn [lstrip]. rewrite Hs, (word_run_all _ Hw). reflexivity. }
  assert (S : SEARCH_PAT (txt "open " ++ w) = None) by reflexivity.
  assert (R : route_v2 env (txt "open " ++ w) = open_site_v2 w).
  { unfold route_v2. rewrite S, O. reflexivity. }
  split; [exact O|]. split; [exact R|].
  intros path. rewrite R. apply open_site_v2_no_program.
Qed.

Lemma open_one_word_goes_to_sites_v2_witness :
  txt "chrome" <> []
  /\ forallb is_word (txt "chrome") = true
  /\ route_v2 full_env (txt "open chrome") = [Say (txt "I don't know the site chrome.")]
  /\ route_v2 full_env (txt "open " ++ txt "chrome") = open_site_v2 (txt "chrome").
Proof.
  assert (N : txt "chrome" <> []) by discriminate.
  assert (W : forallb is_word (txt "chrome") = true) by reflexivity.
  split; [exact N|]. split; [exact W|]. split; [vm_compute; reflexivity|].
  exact (proj1 (proj2 (open_one_word_goes_to_sites_v2 full_env N W))).
Defined.

Lemma say_last (pre : list Action) (msg : text) :
  forallb (fun a => negb (is_say a)) pre = true ->
  exists pre' msg', pre ++ [Say msg] = pre' ++ [Say msg']
                    /\ forallb (fun a => negb (is_say a)) pre' = true.
Proof. intros H. exists pre, msg. auto. Qed.

Lemma route_v2_answers (env : Env) (t : text) :
  exists pre msg, route_v2 env t = pre ++ [Say msg]
                  /\ forallb (fun a => negb (is_say a)) pre = true.
Proof.
  unfold route_v2.
  destruct (SEARCH_PAT t) as [q|].
  { apply (say_last [OpenUrl _]). reflexivity. }
  destruct (OPEN_SITE_PAT_v2 t) as [key|].
  { unfold open_site_v2. destruct (found _) as [choice|].
    - apply (say_last [OpenUrl _]). reflexivity.
    - apply (say_last []). reflexivity. }
  destruct (OPEN_APP_PAT_v2 t) as [name|].
  { unfold open_app_v2. destruct (found _) as [choice|].
    - destruct (lookup APP_PATHS_v2 choice) as [p|].
      + destruct (popen_ok env _).
        * apply (say_last [Popen _]). reflexivity.
        * apply (say_last []). reflexivity.
      + apply (say_last []). reflexivity.
    - apply (say_last []). reflexivity. }
  destruct (TIME_PAT t). { apply (say_last []). reflexivity. }
  destruct (VOLUME_UP_PAT t).
  { unfold volume_up. apply say_last. destruct (has_win32api env); reflexivity. }
  destruct (VOLUME_DOWN_PAT t).
  { unfold volume_down. apply say_last. destruct (has_win32api env); reflexivity. }
  destruct (MUTE_PAT t).
  { unfold mute. apply say_last. destruct (has_win32api env); reflexivity. }
  destruct (SCREENSHOT_PAT t).
  { unfold screenshot. destruct (has_pyautogui env).
    - apply (say_last [SaveScreenshot]). reflexivity.
    - apply (say_last []). reflexivity. }
  destruct (mem t _); apply (say_last []); reflexivity.
Qed.

(** X18.  In [mainv2.py] an awake session answers every final
    transcript of which something is left once the wake phrases are
    taken out: it speaks one message, after whatever else it does, be
    the command supported or not, and it is awake afterwards exactly
    when the wake phrase is bypassed. *)
Theorem on_final_v2_always_answers (env : Env) (st : Nova) (t : text) :
  awake st = true ->
  strip_wake_words (normalize_v2 t) <> [] ->
  exists pre msg,
    on_final_v2 env st t
    = (mkNova (bypass_wake st) (bypass_wake st), pre ++ [Say msg])
    /\ route_v2 env (strip_wake_words (normalize_v2 t)) = pre ++ [Say msg]
    /\ forallb (fun a => negb (is_say a)) pre = true.
Proof.
  intros A H. unfold on_final_v2.
  destruct (normalize_v2 t) as [|c n] eqn:N.
  { exfalso. apply H. vm_compute. reflexivity. }
  rewrite A. cbn [negb].
  destruct (strip_wake_words (c :: n)) as [|c' n'] eqn:S; [contradiction|].
  destruct (route_v2_answers env (c' :: n')) as (pre & msg & E & F).
  exists pre, msg. rewrite E. repeat split; assumption.
Qed.

Lemma on_final_v2_always_answers_witness :
  awake (mkNova true false) = true
  /\ strip_wake_words (normalize_v2 (txt "Hey Nova  tell me a joke")) <> []
  /\ on_final_v2 full_env (mkNova true false) (txt "Hey Nova  tell me a joke")
     = (mkNova false false, [Say (txt "I didn't catch a supported command.")])
  /\ exists pre msg,
       on_final_v2 full_env (mkNova true false) (txt "Hey Nova  tell me a joke")
       = (mkNova (bypass_wake (mkNova true false)) (bypass_wake (mkNova true false)),
          pre ++ [Say msg])
       /\ route_v2 full_env (strip_wake_words (normalize_v2 (txt "Hey Nova  tell me a joke")))
          = pre ++ [Say msg]
       /\ forallb (fun a => negb (is_say a)) pre = true.
Proof.
  assert (A : awake (mkNova true false) = true) by reflexivity.
  assert (H : strip_wake_words (normalize_v2 (txt "Hey Nova  tell me a joke")) <> [])
    by (vm_compute; discriminate).
  split; [exact A|]. split; [exact H|]. split; [vm_compute; reflexivity|].
  exact (on_final_v2_always_answers full_env (mkNova true false)
           (txt "Hey Nova  tell me a joke") A H).
Defined.

(** ** The command text *)

Lemma is_word_lower (c : ascii) : is_word (lower_char c) = is_word c.
Proof. destruct c as [[] [] [] [] [] [] [] []]; vm_compute; reflexivity. Qed.

Lemma strip_prefix_ci_lower (k t : text) :
  strip_prefix k (lower t) = option_map lower (strip_prefix_ci k t).
Proof.
  revert t. induction k as [|c k IH]; intros t; [reflexivity|].
  destruct t as [|d t]; [reflexivity|].
  cbn [lower map strip_prefix strip_prefix_ci]. fold (lower t).
  destruct (Ascii.eqb c (lower_char d)); [apply IH | reflexivity].
Qed.

Lemma word_boundary_lower (p q : option ascii) :
  word_boundary (option_map lower_char p) (option_map lower_char q)
  = word_boundary p q.
Proof.
  unfold word_boundary.
  destruct p as [c|], q as [d|]; cbn [option_map is_word_opt];
    rewrite ?is_word_lower; reflexivity.
Qed.

Lemma hd_error_lower (t : text) :
  hd_error (lower t) = option_map lower_char (hd_error t).
Proof. destruct t; reflexivity. Qed.

Lemma length_lower (t : text) : length (lower t) = length t.
Proof. apply length_map. Qed.

(** A wake pattern under [re.IGNORECASE] matches where the pattern
    itself matches in the text in lower case. *)
Lemma pat_wake_ci_lower (w : text * text) (prev : option ascii) (t : text) :
  pat_wake true w prev t = pat_wake false w (option_map lower_char prev) (lower t).
Proof.
  unfold pat_wake. rewrite strip_prefix_ci_lower.
  destruct (strip_prefix_ci (fst w) t) as [r1|]; cbn [option_map]; [|reflexivity].
  rewrite <- lower_lstrip, !length_lower.
  destruct (length (lstrip r1) <? length r1); [|reflexivity].
  rewrite strip_prefix_ci_lower.
  destruct (strip_prefix_ci (snd w) (lstrip r1)) as [r3|]; cbn [option_map];
    [|reflexivity].
  rewrite !hd_error_lower, word_boundary_lower, length_lower.
  replace (word_boundary (last_char (snd w)) (option_map lower_char (hd_error r3)))
    with (word_boundary (last_char (snd w)) (hd_error r3)); [reflexivity|].
  unfold word_boundary. destruct (hd_error r3) as [d|]; cbn [option_map is_word_opt];
    rewrite ?is_word_lower; reflexivity.
Qed.

Lemma search_wake_ci_lower (w : text * text) (t : text) :
  forall prev,
    search_from (pat_wake true w) prev t
    = search_from (pat_wake false w) (option_map lower_char prev) (lower t).
Proof.
  induction t as [|c t IH]; intros prev; [reflexivity|].
  cbn [lower map search_from]. fold (lower t).
  change (lower_char c :: lower t) with (lower (c :: t)).
  rewrite <- pat_wake_ci_lower.
  destruct (pat_wake true w prev (c :: t)); [reflexivity|].
  apply (IH (Some c)).
Qed.

Lemma existsb_false (A : Type) (f : A -> bool) (l : list A) :
  existsb f l = false -> forall x, In x l -> f x = false.
Proof.
  intros H x I. destruct (f x) eqn:E; [|reflexivity].
  rewrite <- H. symmetry. apply existsb_exists. exists x. auto.
Qed.

Lemma re_search_wake_strip (w : text * text) (z : text) :
  is_wordb (fst w) = true -> is_wordb (snd w) = true ->
  re_search (pat_wake false w) (strip z) = re_search (pat_wake false w) z.
Proof.
  intros H1 H2. unfold re_search, strip. rewrite !search_from_hit.
  rewrite (search_hit_rstrip w H1 H2). apply (search_hit_lstrip w H1).
Qed.

Lemma strip_wake_words_none (ws : list (text * text)) (c : text) :
  forallb (fun w => is_wordb (fst w) && is_wordb (snd w)) ws = true ->
  existsb (fun w => re_search (pat_wake false w) (lower c)) ws = false ->
  fold_left (fun c w => strip (re_sub (pat_wake true w) [] c)) ws (strip c) = strip c.
Proof.
  intros W H. induction ws as [|w ws IH]; [reflexivity|].
  cbn [existsb] in H. apply orb_false_iff in H as [Hw H].
  cbn [forallb] in W. apply andb_true_iff in W as [W1 W].
  apply andb_true_iff in W1 as [W1 W2].
  cbn [fold_left].
  assert (S : search_from (pat_wake true w) None (strip c) = false).
  { rewrite search_wake_ci_lower. cbn [option_map]. rewrite <- strip_lower.
    fold (re_search (pat_wake false w) (strip (lower c))).
    rewrite re_search_wake_strip by assumption. exact Hw. }
  unfold re_sub. rewrite (sub_from_no_match _ _ _ _ S), strip_idem.
  apply IH; assumption.
Qed.

(** X19.  A text in which no wake phrase is found, in any case of
    letters, goes through the loop that takes the wake phrases out
    stripped and otherwise as it is.  So the command of a final
    transcript without a wake phrase and without a key of the confusion
    table is the normalised transcript: this is the text the gate and
    the router see. *)
Theorem command_text_is_normalized (table : dict text) (t : text) :
  fuzzy_wake t = false ->
  forallb (fun k => negb (re_search (pat_word k) (normalize t))) (keys table) = true ->
  strip_wake_words t = strip t
  /\ cleaned table (normalize t) = normalize t.
Proof.
  intros F K.
  assert (W : forall c, fuzzy_wake c = false -> strip_wake_words (strip c) = strip c).
  { intros c Fc. unfold strip_wake_words. apply strip_wake_words_none.
    - vm_compute. reflexivity.
    - exact Fc. }
  assert (A : apply_confusions table (normalize t) = normalize t).
  { unfold apply_confusions, substitute_all. rewrite substitute_no_match.
    - rewrite collapse_normalize. apply strip_normalize.
    - rewrite forallb_forall in K |- *. intros k Hk. apply K.
      apply (Permutation_in _ (longest_first_perm (keys table))). assumption. }
  split.
  - unfold strip_wake_words, WAKE_WORDS. cbn [fold_left].
    assert (S : search_from (pat_wake true (txt "hey", txt "nova")) None t = false).
    { rewrite search_wake_ci_lower. cbn [option_map].
      unfold fuzzy_wake, WAKE_WORDS in F. cbn [existsb] in F.
      apply orb_false_iff in F. apply F. }
    unfold re_sub at 4. rewrite (sub_from_no_match _ _ _ _ S).
    apply (strip_wake_words_none
             [(txt "hello", txt "nova"); (txt "hey", txt "noah"); (txt "hey", txt "novaa")]).
    + vm_compute. reflexivity.
    + unfold fuzzy_wake, WAKE_WORDS in F. cbn [existsb] in F.
      apply orb_false_iff in F. apply F.
  - unfold cleaned. rewrite A, <- strip_normalize. apply W.
    rewrite fuzzy_wake_normalize. exact F.
Qed.

Lemma command_text_is_normalized_witness :
  fuzzy_wake (txt "  Open   the CHROME browser ") = false
  /\ forallb (fun k => negb (re_search (pat_word k)
                                (normalize (txt "  Open   the CHROME browser "))))
             (keys CONFUSIONS) = true
  /\ cleaned CONFUSIONS (normalize (txt "  Open   the CHROME browser "))
     = txt "open the chrome browser"
  /\ cleaned CONFUSIONS (normalize (txt "  Open   the CHROME browser "))
     = normalize (txt "  Open   the CHROME browser ").
Proof.
  assert (F : fuzzy_wake (txt "  Open   the CHROME browser ") = false)
    by (vm_compute; reflexivity).
  assert (K : forallb (fun k => negb (re_search (pat_word k)
                                        (normalize (txt "  Open   the CHROME browser "))))
                (keys CONFUSIONS) = true) by (vm_compute; reflexivity).
  split; [exact F|]. split; [exact K|]. split; [vm_compute; reflexivity|].
  exact (proj2 (command_text_is_normalized CONFUSIONS
                  (txt "  Open   the CHROME browser ") F K)).
Defined.

(** ** What the gate lets through *)

Lemma before_space_split (t : text) :
  no_space (before (txt " ") t) = true
  /\ (t = before (txt " ") t
      \/ exists rest, t = before (txt " ") t ++ txt " " ++ rest).
Proof.
  change (txt " ") with [" "%char].
  induction t as [|c t IH]; [split; [reflexivity | left; reflexivity]|].
  cbn [before strip_prefix].
  destruct (Ascii.eqb_spec " "%char c) as [E|Ne].
  - subst c. split; [reflexivity|]. right. exists t. reflexivity.
  - destruct IH as [N S]. split.
    + unfold no_space in *. cbn [forallb]. rewrite N, andb_true_r.
      apply negb_true_iff, Ascii.eqb_neq. congruence.
    + destruct S as [S | [rest S]].
      * left. f_equal. exact S.
      * right. exists rest. cbn [app] in *. f_equal. exact S.
Qed.

Lemma before_space_app (v rest : text) :
  no_space v = true ->
  before (txt " ") v = v /\ before (txt " ") (v ++ txt " " ++ rest) = v.
Proof.
  change (txt " ") with [" "%char].
  induction v as [|c v IH]; intros N.
  - split; reflexivity.
  - unfold no_space in N. cbn [forallb] in N. apply andb_true_iff in N as [Nc N].
    apply negb_true_iff, Ascii.eqb_neq in Nc.
    destruct (IH N) as [I1 I2].
    cbn [app before strip_prefix] in *.
    destruct (Ascii.eqb_spec " "%char c) as [E|_]; [congruence|].
    rewrite I1, I2. split; reflexivity.
Qed.

(** X20.  The gate lets a text through exactly when the text is one of
    the seven words open, search, google, lookup, close, time and what,
    or starts with one of them followed by a space; a tab or a line feed
    after the word does not do. *)
Theorem gate_intent_accepts (t : text) :
  _gate_intent t = true <->
  exists v,
    In v (map txt ["open"; "search"; "google"; "lookup"; "close"; "time"; "what"]%string)
    /\ (t = v \/ exists rest, t = v ++ txt " " ++ rest).
Proof.
  unfold _gate_intent. cbv zeta. rewrite mem_In. split.
  - intros I. exists (before (txt " ") t). split; [exact I|].
    apply before_space_split.
  - intros (v & I & S).
    assert (N : no_space v = true).
    { assert (A : forallb no_space
                    (map txt ["open"; "search"; "google"; "lookup"; "close";
                              "time"; "what"]%string) = true)
        by (vm_compute; reflexivity).
      rewrite forallb_forall in A. apply A. exact I. }
    destruct (before_space_app v [] N) as [B1 _].
    destruct S as [-> | [rest ->]].
    + rewrite B1. exact I.
    + rewrite (proj2 (before_space_app v rest N)). exact I.
Qed.
